(** * windowToggle: a shallow embedding of
    [src/internal/operators/windowToggle.ts] and its lifecycle properties.

    The operator is modelled as an event-driven state machine.  One [State]
    stands for one subscription to the output of [windowToggle]: it holds the
    [windows] array of the closure, the objects allocated per opening (the
    window [Subject], its [closingSubscription] and its [closingSubscriber]),
    the liveness of the three subscribers wired by the operator, and the
    chronological [trace] of what the operator did and signalled.

    External stimuli are [Input]s: notifications of the openings stream, of
    the source, of the closing notifier of one window, and the downstream
    consumer unsubscribing the output.  The runtime is single-threaded, so a
    run is a sequence of inputs, each handled to completion; an instant is a
    position in that sequence.  Reentrancy is modelled in three places: the
    openings stream may notify synchronously while it is being subscribed
    ([Coercible sync]), which is before the source subscriber is built; a
    closing notifier may emit synchronously while it is being subscribed
    ([Notifier sync]); and a consumer of a window may react synchronously to
    a value it receives ([react]) by causing any [Signal].  The closing
    selector is taken to be a function of the opening value, and consumers
    are taken not to call back into the operator from the other
    notifications they get.

    [Subject], [Subscriber], [Subscription], [OperatorSubscriber] and
    [arrRemove] are imported by the source file and not part of it; what the
    operator needs of them is modelled below. *)

From stdpp Require Import base list sorting.

(** ** Data model *)

Abbreviation WinId := nat (only parsing).
Abbreviation Value := nat (only parsing).
Abbreviation OpenVal := nat (only parsing).

Inductive Error : Type :=
  | UserError (n : nat)
  | ObjectUnsubscribedError.

(** Modelled from the spec: the terminal state of a window's multicast channel
    ([Subject], not part of the source file) is the tagged variant of the
    design notes. *)
Inductive WindowState : Type :=
  | Open
  | Completed
  | Errored (e : Error)
  | Cancelled.

(** Life of the [closingSubscriber] created for one window: created but not
    yet subscribed; inside [closingNotifier.subscribe] (the subscription it
    returns is not yet added to [closingSubscription]); subscribed with its
    subscription held by [closingSubscription]; stopped. *)
Inductive SubscriberState : Type :=
  | NotSubscribed
  | Subscribing
  | Attached
  | Stopped.

(** The bindings of one run of the openings callback. *)
Record WinObj : Type := mkWinObj {
  openValue : OpenVal;
  window : WindowState;
  closingSubscription : bool;  (* [closingSubscription.closed] *)
  closingSubscriber : SubscriberState
}.

Inductive Event : Type :=
  | Register (w : WinId)           (* windows.push(window) *)
  | OutNext (w : WinId)            (* subscriber.next(window.asObservable()) *)
  | OutError (e : Error)           (* subscriber.error(err) *)
  | OutComplete                    (* subscriber.complete() *)
  | SubscribeClosing (w : WinId)   (* closingNotifier.subscribe(closingSubscriber) *)
  | WinNext (w : WinId) (v : Value)
  | WinError (w : WinId) (e : Error)
  | WinComplete (w : WinId)
  | WinCancel (w : WinId).         (* window.unsubscribe() *)

(** What a closing notifier sends to [closingSubscriber]. *)
Inductive ClosingSignal : Type :=
  | CNext
  | CError (e : Error)
  | CComplete.

(** Outcome of [from(closingSelector(openValue))]: it throws, or it yields a
    notifier which emits [sync] at once when subscribed (and possibly more
    later, as [Close] inputs). *)
Inductive SelectorResult : Type :=
  | Throws (e : Error)
  | Notifier (sync : list ClosingSignal).

Inductive Signal : Type :=
  | OpenNext (o : OpenVal)
  | OpenError (e : Error)
  | OpenComplete
  | SrcError (e : Error)
  | SrcComplete
  | Close (w : WinId) (c : ClosingSignal)
  | Unsubscribe.

Inductive Input : Type :=
  | Sig (g : Signal)
  | SrcNext (v : Value).

(** What the openings stream sends while it is being subscribed (line 83),
    before its [subscribe] returns. *)
Inductive Opening : Type :=
  | ONext (o : OpenVal)
  | OError (e : Error)
  | OComplete.

(** The [openings] handed to the operator: [from(openings)] throws [err], or
    it gives a stream that sends [sync] while it is being subscribed (and
    possibly more later, as inputs). *)
Inductive Openings : Type :=
  | Uncoercible (err : Error)
  | Coercible (sync : list Opening).

Record State : Type := mkState {
  windows : list WinId;        (* const windows: Subject<T>[] *)
  heap : list WinObj;          (* objects by identity, in allocation order *)
  subscriber : bool;           (* the output subscriber is not closed *)
  openSubscriber : bool;       (* subscriber of [openNotifier] is not closed *)
  sourceSubscriber : bool;     (* subscriber of [source] is built and not closed *)
  trace : list Event
}.

#[global] Instance Error_eq_dec : EqDecision Error.
Proof. solve_decision. Defined.
#[global] Instance WindowState_eq_dec : EqDecision WindowState.
Proof. solve_decision. Defined.
#[global] Instance SubscriberState_eq_dec : EqDecision SubscriberState.
Proof. solve_decision. Defined.
#[global] Instance Event_eq_dec : EqDecision Event.
Proof. solve_decision. Defined.

(** ** Field updates *)

Definition set_windows (ws : list WinId) (s : State) : State :=
  mkState ws (heap s) (subscriber s) (openSubscriber s) (sourceSubscriber s) (trace s).
Definition set_heap (h : list WinObj) (s : State) : State :=
  mkState (windows s) h (subscriber s) (openSubscriber s) (sourceSubscriber s) (trace s).
Definition set_subscriber (b : bool) (s : State) : State :=
  mkState (windows s) (heap s) b (openSubscriber s) (sourceSubscriber s) (trace s).
Definition set_openSubscriber (b : bool) (s : State) : State :=
  mkState (windows s) (heap s) (subscriber s) b (sourceSubscriber s) (trace s).
Definition set_sourceSubscriber (b : bool) (s : State) : State :=
  mkState (windows s) (heap s) (subscriber s) (openSubscriber s) b (trace s).
Definition emit (e : Event) (s : State) : State :=
  mkState (windows s) (heap s) (subscriber s) (openSubscriber s) (sourceSubscriber s)
          (trace s ++ [e]).

Definition set_window (st : WindowState) (o : WinObj) : WinObj :=
  mkWinObj (openValue o) st (closingSubscription o) (closingSubscriber o).
Definition set_closingSubscriber (c : SubscriberState) (o : WinObj) : WinObj :=
  mkWinObj (openValue o) (window o) (closingSubscription o) c.

Definition window_state (w : WinId) (s : State) : option WindowState :=
  window <$> heap s !! w.
Definition is_open (w : WinId) (s : State) : bool :=
  bool_decide (window_state w s = Some Open).
Definition closing_state (w : WinId) (s : State) : option SubscriberState :=
  closingSubscriber <$> heap s !! w.

(** ** The multicast channel *)

(** Modelled from the spec: [Subject.next] (the multicast channel is not part
    of the source file).  A value reaches the consumers of a window only while
    the window is open; a stream carries nothing after its terminal event. *)
Definition subject_next (w : WinId) (v : Value) (s : State) : State :=
  if is_open w s then emit (WinNext w v) s else s.

(** Modelled from the spec: [Subject.complete], the terminal operation
    complete() of the multicast channel; at most one terminal event. *)
Definition subject_complete (w : WinId) (s : State) : State :=
  if is_open w s
  then emit (WinComplete w) (set_heap (alter (set_window Completed) w (heap s)) s)
  else s.

(** Modelled from the spec: [Subject.error], the terminal operation error(e). *)
Definition subject_error (e : Error) (w : WinId) (s : State) : State :=
  if is_open w s
  then emit (WinError w e) (set_heap (alter (set_window (Errored e)) w (heap s)) s)
  else s.

(** Modelled from the spec: [Subject.unsubscribe], the forced cancel of the
    multicast channel.  Nothing is signalled to the consumers; [WinCancel]
    only records the call. *)
Definition subject_unsubscribe (w : WinId) (s : State) : State :=
  emit (WinCancel w) (set_heap (alter (set_window Cancelled) w (heap s)) s).



(** Modelled from the spec: [arrRemove] (util/arrRemove is not part of the
    source file): remove by identity, no-op if absent. *)
Fixpoint arrRemove (ws : list WinId) (w : WinId) : list WinId :=
  match ws with
  | [] => []
  | x :: ws' => if decide (x = w) then ws' else x :: arrRemove ws' w
  end.

(** ** The operator *)

(** [while (0 < windows.length) { f(windows.shift()!) }].  The loop runs on the
    live array; [f] is one of the terminal operations of a window, none of
    which touches [windows], so [length (windows s)] rounds empty it. *)
Fixpoint drain_loop (fuel : nat) (f : WinId → State → State) (s : State) : State :=
  match fuel with
  | 0 => s
  | S fuel' =>
      match windows s with
      | [] => s
      | w :: ws => drain_loop fuel' f (f w (set_windows ws s))
      end
  end.

Definition drain (f : WinId → State → State) (s : State) : State :=
  drain_loop (length (windows s)) f s.

(** Teardown of the source subscriber (lines 134-143), run once when that
    subscriber is unsubscribed. *)
Definition source_unsubscribe (s : State) : State :=
  if sourceSubscriber s
  then drain subject_unsubscribe (set_sourceSubscriber false s)
  else s.

(** Modelled from the spec: cancelling the output subscription transitively
    cancels the subscribers created with [subscriber] as their destination
    ([Subscriber] and [OperatorSubscriber] are not part of the source file):
    the openings subscriber, every [closingSubscriber], and the source
    subscriber, whose teardown then runs. *)
Definition unsubscribe_all (s : State) : State :=
  source_unsubscribe
    (set_heap (set_closingSubscriber Stopped <$> heap s)
       (set_openSubscriber false (set_subscriber false s))).

(** Modelled from the spec: the output subscriber ([Subscriber] is not part
    of the source file) accepts no signal after its first terminal event or
    its cancellation, and a terminal event ends its subscription. *)
Definition subscriber_next (w : WinId) (s : State) : State :=
  if subscriber s then emit (OutNext w) s else s.

Definition subscriber_error (e : Error) (s : State) : State :=
  if subscriber s then unsubscribe_all (emit (OutError e) s) else s.

Definition subscriber_complete (s : State) : State :=
  if subscriber s then unsubscribe_all (emit OutComplete s) else s.

Definition subscriber_unsubscribe (s : State) : State :=
  if subscriber s then unsubscribe_all s else s.

(** Lines 69-74. *)
Definition handleError (e : Error) (s : State) : State :=
  subscriber_error e (drain (subject_error e) s).

(** Modelled from the spec: [closingSubscription.unsubscribe()], on the
    cancellation-set primitive ([Subscription] is not part of the source
    file): it cancels what it holds as a unit, once.  It holds the
    subscription of the closing notifier only after line 107 has returned. *)
Definition closingSubscription_unsubscribe (o : WinObj) : WinObj :=
  if closingSubscription o then o
  else mkWinObj (openValue o) (window o) true
         (match closingSubscriber o with Attached => Stopped | c => c end).

(** Modelled from the spec: [closingSubscription.add(inner)] once
    [closingNotifier.subscribe] has returned ([Subscription] is not part of
    the source file): a set that is already cancelled cancels what is added
    to it. *)
Definition closingSubscription_add (o : WinObj) : WinObj :=
  match closingSubscriber o with
  | Subscribing =>
      set_closingSubscriber (if closingSubscription o then Stopped else Attached) o
  | _ => o
  end.

(** Lines 90-94. *)
Definition closeWindow (w : WinId) (s : State) : State :=
  let s1 := set_windows (arrRemove (windows s) w) s in
  let s2 := subject_complete w s1 in
  set_heap (alter closingSubscription_unsubscribe w (heap s2)) s2.

Definition closing_live (w : WinId) (s : State) : bool :=
  match closing_state w s with
  | Some Subscribing | Some Attached => true
  | _ => false
  end.

(** Line 95: [closingSubscriber = new OperatorSubscriber(subscriber,
    closeWindow, handleError, closeWindow)] receiving one notification.  It
    takes none once it is stopped, and a terminal notification stops it. *)
Definition closing_signal (w : WinId) (c : ClosingSignal) (s : State) : State :=
  if closing_live w s then
    match c with
    | CNext => closeWindow w s
    | CError e =>
        let s1 := handleError e s in
        set_heap (alter (set_closingSubscriber Stopped) w (heap s1)) s1
    | CComplete =>
        let s1 := closeWindow w s in
        set_heap (alter (set_closingSubscriber Stopped) w (heap s1)) s1
    end
  else s.

(** Lines 87-89: [const window = new Subject<T>(); windows.push(window);
    const closingSubscription = new Subscription()], with [closingSubscriber]
    of line 95.  The identity of the new window is its allocation index. *)
Definition new_window (o : OpenVal) (s : State) : State :=
  let w := length (heap s) in
  emit (Register w)
    (set_windows (windows s ++ [w])
       (set_heap (heap s ++ [mkWinObj o Open false NotSubscribed]) s)).

(** Line 107: [closingSubscription.add(closingNotifier.subscribe(
    closingSubscriber))], where the notifier emits [sync] before [subscribe]
    returns. *)
Definition subscribe_closing (w : WinId) (sync : list ClosingSignal)
    (s : State) : State :=
  let s1 := emit (SubscribeClosing w)
              (set_heap (alter (set_closingSubscriber Subscribing) w (heap s)) s) in
  let s2 := foldl (λ s' c, closing_signal w c s') s1 sync in
  set_heap (alter closingSubscription_add w (heap s2)) s2.

Section Operator.

Variable closingSelector : OpenVal → SelectorResult.

(** Lines 86-108: the callback of the openings subscriber. *)
Definition open_window (o : OpenVal) (s : State) : State :=
  let w := length (heap s) in
  let s1 := new_window o s in
  match closingSelector o with
  | Throws e => handleError e s1
  | Notifier sync => subscribe_closing w sync (subscriber_next w s1)
  end.

(** One notification reaching the operator.  The openings subscriber (lines
    83-112) runs [open_window] on a value, does nothing on completion
    ([noop]) and, having [undefined] as its error callback, passes an error
    on to its destination [subscriber]; [handleError] is not in its reach.
    The source subscriber (lines 115-145) runs [handleError] on an error and
    lines 127-133 on completion.  A subscriber takes nothing once it is
    stopped. *)
Definition handle_signal (g : Signal) (s : State) : State :=
  match g with
  | OpenNext o => if openSubscriber s then open_window o s else s
  | OpenError e => if openSubscriber s then subscriber_error e s else s
  | OpenComplete => set_openSubscriber false s
  | SrcError e => if sourceSubscriber s then handleError e s else s
  | SrcComplete =>
      if sourceSubscriber s
      then subscriber_complete (drain subject_complete s)
      else s
  | Close w c => closing_signal w c s
  | Unsubscribe => subscriber_unsubscribe s
  end.

(** What the consumers of window [w] do, synchronously, on receiving [v]. *)
Variable react : WinId → Value → list Signal.

(** [window.next(value)] and what the consumers of the window cause before it
    returns. *)
Definition deliver (v : Value) (w : WinId) (s : State) : State :=
  if is_open w s
  then foldl (λ s' g, handle_signal g s') (subject_next w v s) (react w v)
  else s.

(** Lines 118-125: [for (const window of windowsCopy) window.next(value)]. *)
Fixpoint fanout (v : Value) (windowsCopy : list WinId) (s : State) : State :=
  match windowsCopy with
  | [] => s
  | w :: rest => fanout v rest (deliver v w s)
  end.

(** Lines 118-125 for a source value: the copy is [windows s], taken when the
    value arrives. *)
Definition handle (i : Input) (s : State) : State :=
  match i with
  | Sig g => handle_signal g s
  | SrcNext v => if sourceSubscriber s then fanout v (windows s) s else s
  end.

Definition run (ins : list Input) (s : State) : State :=
  foldl (λ s' i, handle i s') s ins.

End Operator.

(** Lines 66-83: the output is subscribed, the registry is empty and the
    openings subscriber is built and about to be subscribed.  The source
    subscriber of line 115 does not exist yet: nothing reaches it and its
    teardown is not armed. *)
Definition init : State := mkState [] [] true true false [].

(** Line 115: [source.subscribe(new OperatorSubscriber(subscriber, ...))],
    once [openNotifier.subscribe] has returned.
    Modelled from the spec: [OperatorSubscriber] is not part of the source
    file.  A subscriber built on an output that has already ended is stopped
    from the start: it takes no notification, and its teardown is not run
    for the windows that are in the registry. *)
Definition source_subscribe (s : State) : State :=
  if subscriber s then set_sourceSubscriber true s else s.

(** Both subscriptions are set up and nothing has been received. *)
Definition ready : State := source_subscribe init.

Definition opening_signal (n : Opening) : Signal :=
  match n with
  | ONext o => OpenNext o
  | OError e => OpenError e
  | OComplete => OpenComplete
  end.

Section Subscribe.

Variable closingSelector : OpenVal → SelectorResult.

(** Lines 76-115: the state when the subscription of the output returns.
    [from(openings)] may throw (lines 79-82); otherwise the openings are
    subscribed (line 83), what they send meanwhile is handled with the source
    subscriber still missing, and then the source is subscribed (line 115). *)
Definition subscribe (openings : Openings) : State :=
  match openings with
  | Uncoercible err => mkState [] [] false false false [OutError err]
  | Coercible sync =>
      source_subscribe
        (foldl (λ s n, handle_signal closingSelector (opening_signal n) s) init sync)
  end.

End Subscribe.

(** Consumers that never react. *)
Definition quiet : WinId → Value → list Signal := λ _ _, [].

(** ** Reading a trace *)

(** The values delivered to window [w], oldest first. *)
Definition delivered (w : WinId) (tr : list Event) : list Value :=
  omap (λ e, match e with
             | WinNext w' v => if decide (w' = w) then Some v else None
             | _ => None
             end) tr.

(** The windows emitted on the output, oldest first. *)
Definition emitted (tr : list Event) : list WinId :=
  omap (λ e, match e with OutNext w => Some w | _ => None end) tr.

(** The source values among the inputs, oldest first. *)
Definition src_values (ins : list Input) : list Value :=
  omap (λ i, match i with SrcNext v => Some v | _ => None end) ins.

(** Opening values received so far by the openings callback, oldest first:
    one per allocated window. *)
Definition opened (s : State) : list OpenVal := openValue <$> heap s.

(** The closing selector call threw. *)
Definition throws (r : SelectorResult) : bool :=
  match r with Throws _ => true | Notifier _ => false end.

(** The windows due downstream for the openings [os], the first of which got
    identity [w]: those whose closing selector call returned. *)
Fixpoint windows_due (sel : OpenVal → SelectorResult) (w : WinId)
    (os : list OpenVal) : list WinId :=
  match os with
  | [] => []
  | o :: os' =>
      (if throws (sel o) then [] else [w]) ++ windows_due sel (S w) os'
  end.

(** Every occurrence of [b] in the trace comes after an occurrence of [a]. *)
Definition precedes (a b : Event) (tr : list Event) : Prop :=
  ∀ pre post, tr = pre ++ b :: post → a ∈ pre.

(** ** Invariants and steps *)

(** The event that has to come before [e]. *)
Definition requires (e : Event) : option Event :=
  match e with
  | OutNext w => Some (Register w)
  | SubscribeClosing w => Some (OutNext w)
  | WinNext w _ => Some (OutNext w)
  | WinComplete w => Some (OutNext w)
  | WinError w _ => Some (Register w)
  | WinCancel w => Some (Register w)
  | _ => None
  end.

(** Every event of the trace comes after the event it requires. *)
Definition ordered (tr : list Event) : Prop :=
  ∀ pre e post a, tr = pre ++ e :: post → requires e = Some a → a ∈ pre.

(** The invariant of the states between two callbacks, once the subscription
    of the output has returned (line 115 has run). *)
Record wf (s : State) : Prop := mkWf {
  wf_nodup : NoDup (windows s);
  wf_registry : ∀ w, w ∈ windows s ↔ is_open w s = true;
  wf_source : sourceSubscriber s = subscriber s;
  wf_openings : openSubscriber s = true → subscriber s = true;
  wf_register : ∀ w, Register w ∈ trace s ↔ w < length (heap s);
  wf_emitted : ∀ w, is_open w s = true → OutNext w ∈ trace s;
  wf_ordered : ordered (trace s)
}.

(** The events by which windows and the output end, for windows that are
    open, or registered when they are cancelled.  With [c = false]
    completions are left out. *)
Definition term_event (c : bool) (s : State) (e : Event) : Prop :=
  match e with
  | WinError w _ => is_open w s = true
  | WinComplete w => c = true ∧ is_open w s = true
  | OutComplete => c = true
  | WinCancel w => w ∈ windows s
  | OutError _ => True
  | _ => False
  end.

(** [s'] comes from [s] by closing windows and stopping subscribers only. *)
Record closes (c : bool) (s s' : State) : Prop := mkCloses {
  closes_opened : opened s' = opened s;
  closes_open : ∀ w, is_open w s' = true → is_open w s = true;
  closes_windows : ∀ w, w ∈ windows s' → w ∈ windows s;
  closes_trace : ∃ Δ, trace s' = trace s ++ Δ ∧ Forall (term_event c s) Δ
}.

(** What the three terminal operations of a window have in common: [f w]
    signals [ev w] and leaves [w] in state [st] when [w] is open, and touches
    nothing else. *)
Record terminal_op (f : WinId → State → State) (ev : WinId → Event)
    (st : WindowState) : Prop := mkTerminalOp {
  top_windows : ∀ w s, windows (f w s) = windows s;
  top_subscriber : ∀ w s, subscriber (f w s) = subscriber s;
  top_openSubscriber : ∀ w s, openSubscriber (f w s) = openSubscriber s;
  top_sourceSubscriber : ∀ w s, sourceSubscriber (f w s) = sourceSubscriber s;
  top_trace : ∀ w s, is_open w s = true → trace (f w s) = trace s ++ [ev w];
  top_state : ∀ w s, is_open w s = true → window_state w (f w s) = Some st;
  top_other : ∀ w w' s, w ≠ w' → window_state w' (f w s) = window_state w' s;
  top_closed : ∀ w s, is_open w (f w s) = false;
  top_closing : ∀ w w' s, closing_state w' (f w s) = closing_state w' s
}.

(** A state in which every subscriber wired by the operator is stopped. *)
Definition stopped (s : State) : Prop :=
  subscriber s = false ∧ openSubscriber s = false ∧ sourceSubscriber s = false ∧
  ∀ w, closing_live w s = false.

(** The windows emitted so far are those due for the openings received. *)
Definition due (sel : OpenVal → SelectorResult) (s : State) : Prop :=
  emitted (trace s) = windows_due sel 0 (opened s).

(** From [s] to [s'] the heap only grows and no window of [s] is opened. *)
Definition ages (s s' : State) : Prop :=
  length (heap s) ≤ length (heap s') ∧
  ∀ w, is_open w s' = true → is_open w s = true ∨ length (heap s) ≤ w.

(** Window [w] is registered and its closing notifier is subscribed. *)
Record open_at (w : WinId) (s : State) : Prop := mkOpenAt {
  oa_wf : wf s;
  oa_source : sourceSubscriber s = true;
  oa_registered : w ∈ windows s;
  oa_closing : closing_live w s = true
}.

(** From [s] to [s'] the source subscriber, the closing subscriber of [w]
    and the registration of [w] are left alone. *)
Definition keeps (w : WinId) (s s' : State) : Prop :=
  sourceSubscriber s' = sourceSubscriber s ∧
  closing_state w s' = closing_state w s ∧
  (w ∈ windows s → w ∈ windows s').

(** [closingSubscription] of window [w] has been unsubscribed. *)
Definition released (w : WinId) (s : State) : Prop :=
  closingSubscription <$> heap s !! w = Some true.

(** Whatever was released in [s] is released in [s']. *)
Definition sticky (s s' : State) : Prop := ∀ w, released w s → released w s'.

(** ** Inputs around one window *)

(** A closing notification other than an error. *)
Definition no_error (c : ClosingSignal) : bool :=
  match c with CError _ => false | _ => true end.

(** Inputs that neither close window [w] nor end the output: source values,
    openings whose closing selector returns a notifier that does not error
    while it is subscribed, the completion of the openings stream, and
    closing notifications of other windows. *)
Definition benign (sel : OpenVal → SelectorResult) (w : WinId) (i : Input) : bool :=
  match i with
  | SrcNext _ => true
  | Sig (OpenNext o) =>
      match sel o with Throws _ => false | Notifier sync => forallb no_error sync end
  | Sig OpenComplete => true
  | Sig (Close w' c) => bool_decide (w' ≠ w) && no_error c
  | _ => false
  end.

(** Inputs that close window [w]: a notification of its own closing
    notifier, the end of the source, the cancellation of the output. *)
Definition ends (w : WinId) (i : Input) : bool :=
  match i with
  | Sig (Close w' _) => bool_decide (w' = w)
  | Sig SrcComplete | Sig (SrcError _) | Sig Unsubscribe => true
  | _ => false
  end.

(** No reaction of a consumer to a value closes window [w] or ends the
    output. *)
Definition benign_consumers (sel : OpenVal → SelectorResult)
    (react : WinId → Value → list Signal) (w : WinId) : Prop :=
  ∀ w' v, forallb (λ g, benign sel w (Sig g)) (react w' v) = true.

(** ** Selectors, consumers and states of the examples *)

(** Closing notifiers that stay silent while they are subscribed. *)
Definition silent : OpenVal → SelectorResult := λ _, Notifier [].

(** The closing selector of the counterexample: it throws. *)
Definition throwing : OpenVal → SelectorResult := λ _, Throws (UserError 0).

(** The selector returns a silent notifier for 0 and throws for any other
    opening value. *)
Definition throws_later : OpenVal → SelectorResult :=
  λ o, match o with 0 => Notifier [] | _ => Throws (UserError 2) end.

(** Consumers of window 0 that answer every value by making the closing
    notifier of window 1 emit. *)
Definition closing_other : WinId → Value → list Signal :=
  λ w _, if decide (w = 0) then [Close 1 CNext] else [].

(** Consumers of window 0 that answer every value by making the openings
    emit 5 and the closing notifiers of windows 1 and 0 fire. *)
Definition interfering : WinId → Value → list Signal :=
  λ w _, if decide (w = 0) then [OpenNext 5; Close 1 CNext; Close 0 CNext] else [].

(** The overlap example: openings at t=0 and t=5, closings at t=10 and
    t=15, source values 1, 6 and 11 at t=1, 6 and 11. *)
Definition overlap : list Input :=
  [Sig (OpenNext 0); SrcNext 1; Sig (OpenNext 5); SrcNext 6;
   Sig (Close 0 CNext); SrcNext 11; Sig (Close 1 CNext)].

(** The scenario of the specification: openings a@1 and b@3, whose closing
    notifiers fire at 5 and 7, source values x@2, y@4 and y2@6, written 10,
    20 and 21. *)
Definition scenario : list Input :=
  [Sig (OpenNext 0); SrcNext 10; Sig (OpenNext 1); SrcNext 20;
   Sig (Close 0 CNext); SrcNext 21; Sig (Close 1 CNext)].

(** Two windows open, nothing else has happened. *)
Definition two_open : State :=
  run silent quiet [Sig (OpenNext 0); Sig (OpenNext 0)] ready.

(** ** Notions of the further properties *)

(** The terminal signals of the output. *)
Definition is_terminal (e : Event) : bool :=
  match e with OutError _ | OutComplete => true | _ => false end.

(** The forced cancel of a window. *)
Definition is_cancel (e : Event) : bool :=
  match e with WinCancel _ => true | _ => false end.

(** After a terminal signal of the output the trace holds nothing but
    cancellations of windows. *)
Definition final (tr : list Event) : Prop :=
  ∀ pre e post, tr = pre ++ e :: post → is_terminal e = true →
    Forall (λ x, is_cancel x = true) post.

(** The output has not been sent a terminal signal. *)
Definition unended (s : State) : Prop :=
  Forall (λ e, is_terminal e = false) (trace s).

(** What holds of the output between two callbacks, on top of [wf], when
    the source was subscribed (line 115) on a live output: the output is sent
    nothing after its terminal signal, and once it has ended every subscriber
    is stopped and the registry is empty. *)
Record tidy (s : State) : Prop := mkTidy {
  tidy_final : final (trace s);
  tidy_live : subscriber s = true → unended s;
  tidy_ended : subscriber s = false → stopped s ∧ windows s = []
}.

(** What holds of the output in every state between two callbacks, wherever
    the output ended: it is sent nothing after its terminal signal, and once
    it has ended every subscriber is stopped. *)
Record settled (s : State) : Prop := mkSettled {
  settled_final : final (trace s);
  settled_live : subscriber s = true → unended s;
  settled_ended : subscriber s = false → stopped s
}.

(** [s'] has the trace of [s] followed by events that satisfy [P]. *)
Definition adds (P : Event → Prop) (s s' : State) : Prop :=
  ∃ Δ, trace s' = trace s ++ Δ ∧ Forall P Δ.

(** The registry of [s'] is that of [s] with some windows taken out. *)
Definition shrinks (s s' : State) : Prop := windows s' `sublist_of` windows s.

(** The registry is in opening order. *)
Definition sorted (s : State) : Prop := StronglySorted lt (windows s).

(** The closing selector returns for every opening value. *)
Definition never_throws (sel : OpenVal → SelectorResult) : Prop :=
  ∀ o, throws (sel o) = false.

(** The selector of the documentation example: [i % 2 ? interval(500) : EMPTY].
    For an odd opening value the notifier fires later; for an even one it
    completes while it is subscribed. *)
Definition every_other : OpenVal → SelectorResult :=
  λ i, if Nat.odd i then Notifier [] else Notifier [CComplete].

(** Every object of the heap satisfies [P]. *)
Definition heap_all (P : WinObj → Prop) (s : State) : Prop := Forall P (heap s).

(** A closing subscriber whose subscription is held by [closingSubscription]
    has that subscription still open. *)
Definition attached_ok (o : WinObj) : Prop :=
  closingSubscriber o = Attached → closingSubscription o = false.

(** ** The subscription of the output *)

(** [t] is what line 115 makes of [s], a state whose source subscriber is not
    built: [s] with the source subscribed if the output is live, [s] itself
    if everything has stopped. *)
Definition presource (s t : State) : Prop :=
  sourceSubscriber s = false ∧
  ((subscriber s = true ∧ t = set_sourceSubscriber true s) ∨ (stopped s ∧ t = s)).

(** ** The values handed to a window *)

(** The windows before [w] in the registry [ws]. *)
Fixpoint upto (w : WinId) (ws : list WinId) : list WinId :=
  match ws with
  | [] => []
  | x :: ws' => if decide (x = w) then [] else x :: upto w ws'
  end.

Section Expected.

Variable closingSelector : OpenVal → SelectorResult.
Variable react : WinId → Value → list Signal.

(** The source value [v], arriving in state [s], is handed to window [w]:
    the source subscriber is live, [w] is in the registry when [v] arrives
    (line 121 copies it), and [w] is still in the registry when its turn
    comes (line 123), after the windows before it in the copy were served. *)
Definition in_turn (v : Value) (w : WinId) (s : State) : bool :=
  sourceSubscriber s && bool_decide (w ∈ windows s)
  && bool_decide (w ∈ windows (fanout closingSelector react v (upto w (windows s)) s)).

(** The source values handed to [w] during the inputs [ins], from state [s]. *)
Fixpoint expected (w : WinId) (ins : list Input) (s : State) : list Value :=
  match ins with
  | [] => []
  | i :: ins' =>
      match i with
      | SrcNext v => if in_turn v w s then [v] else []
      | Sig _ => []
      end ++ expected w ins' (handle closingSelector react i s)
  end.

End Expected.

(** ** The opening values received *)

(** The opening value that reaches the openings callback (line 86) with the
    signal [g] arriving in state [s]: the value of the openings stream, if
    its subscriber is live. *)
Definition received_signal (g : Signal) (s : State) : list OpenVal :=
  match g with
  | OpenNext o => if openSubscriber s then [o] else []
  | _ => []
  end.

Section Received.

Variable closingSelector : OpenVal → SelectorResult.

(** The opening values received with the signals [gs], arriving one after
    the other from state [s]. *)
Fixpoint received_signals (gs : list Signal) (s : State) : list OpenVal :=
  match gs with
  | [] => []
  | g :: gs' =>
      received_signal g s ++ received_signals gs' (handle_signal closingSelector g s)
  end.

Variable react : WinId → Value → list Signal.

(** The opening values received while [v] is fanned out over [ws]: those the
    consumers of the windows cause by their reactions. *)
Fixpoint received_fanout (v : Value) (ws : list WinId) (s : State) : list OpenVal :=
  match ws with
  | [] => []
  | w :: ws' =>
      (if is_open w s then received_signals (react w v) (subject_next w v s) else [])
      ++ received_fanout v ws' (deliver closingSelector react v w s)
  end.

Definition received_input (i : Input) (s : State) : list OpenVal :=
  match i with
  | Sig g => received_signal g s
  | SrcNext v => if sourceSubscriber s then received_fanout v (windows s) s else []
  end.

(** The opening values received during the inputs [ins], from state [s]. *)
Fixpoint received (ins : list Input) (s : State) : list OpenVal :=
  match ins with
  | [] => []
  | i :: ins' =>
      received_input i s ++ received ins' (handle closingSelector react i s)
  end.

(** The opening values received while the openings are being subscribed. *)
Definition received_subscribing (openings : Openings) : list OpenVal :=
  match openings with
  | Uncoercible _ => []
  | Coercible sync => received_signals (opening_signal <$> sync) init
  end.

(** The opening values received in a whole run, oldest first: those sent by
    the openings stream, while it is subscribed and later, as long as its
    subscriber is live, that is before the output ends and before the
    openings complete. *)
Definition all_received (openings : Openings) (ins : list Input) : list OpenVal :=
  received_subscribing openings ++ received ins (subscribe closingSelector openings).

End Received.

(** Every opening value received whose closing selector call threw [e] has a
    window that got [e], and everything has stopped since. *)
Definition thrown (sel : OpenVal → SelectorResult) (s : State) : Prop :=
  ∀ k o e, opened s !! k = Some o → sel o = Throws e →
    window_state k s = Some (Errored e) ∧ WinError k e ∈ trace s ∧ stopped s.

(** ** Windows and the heap *)

Lemma is_open_spec w s : is_open w s = true ↔ window_state w s = Some Open.
Proof. unfold is_open. apply bool_decide_eq_true. Qed.

Lemma is_open_lt w s : is_open w s = true → w < length (heap s).
Proof.
  rewrite is_open_spec. unfold window_state. intros H.
  destruct (heap s !! w) eqn:E; [|done]. by eapply lookup_lt_Some.
Qed.

Lemma is_open_ext w s s' :
  window_state w s' = window_state w s → is_open w s' = is_open w s.
Proof. unfold is_open. by intros ->. Qed.

Lemma window_state_set_window st (w w' : nat) (h : list WinObj) :
  window <$> alter (set_window st) w h !! w' =
  if decide (w = w') then (λ _, st) <$> (window <$> h !! w') else window <$> h !! w'.
Proof.
  case_decide as E.
  - subst. rewrite list_lookup_alter_eq. by destruct (h !! w').
  - by rewrite list_lookup_alter_ne.
Qed.

Lemma window_state_alter_closing f (w w' : nat) (h : list WinObj) :
  (∀ o, window (f o) = window o) →
  window <$> alter f w h !! w' = window <$> h !! w'.
Proof.
  intros Hf. destruct (decide (w = w')) as [->|E].
  - rewrite list_lookup_alter_eq. destruct (h !! w'); simpl; [by rewrite Hf|done].
  - by rewrite list_lookup_alter_ne.
Qed.

Lemma opened_alter f (w : nat) (h : list WinObj) :
  (∀ o, openValue (f o) = openValue o) →
  openValue <$> alter f w h = openValue <$> h.
Proof.
  intros Hf. revert w. induction h as [|o h IH]; intros [|w]; simpl; [done..| |].
  - by rewrite Hf.
  - f_equal. apply IH.
Qed.

Lemma closingSubscription_unsubscribe_window o :
  window (closingSubscription_unsubscribe o) = window o.
Proof. unfold closingSubscription_unsubscribe. by destruct (closingSubscription o). Qed.

Lemma closingSubscription_unsubscribe_openValue o :
  openValue (closingSubscription_unsubscribe o) = openValue o.
Proof. unfold closingSubscription_unsubscribe. by destruct (closingSubscription o). Qed.

Lemma closingSubscription_add_window o :
  window (closingSubscription_add o) = window o.
Proof. unfold closingSubscription_add. by destruct (closingSubscriber o). Qed.

Lemma closingSubscription_add_openValue o :
  openValue (closingSubscription_add o) = openValue o.
Proof. unfold closingSubscription_add. by destruct (closingSubscriber o). Qed.

(** ** Steps that only close *)

Lemma term_event_weaken c s e : term_event false s e → term_event c s e.
Proof. destruct e; simpl; try done. by intros []. Qed.

Lemma term_event_mono c s s' e :
  (∀ w, is_open w s' = true → is_open w s = true) →
  (∀ w, w ∈ windows s' → w ∈ windows s) →
  term_event c s' e → term_event c s e.
Proof.
  intros H H'. destruct e; simpl; try done; [auto| |auto].
  intros []. auto.
Qed.

Lemma closes_refl c s : closes c s s.
Proof. split; [done..|]. exists []. by rewrite app_nil_r. Qed.

Lemma closes_trans c s1 s2 s3 : closes c s1 s2 → closes c s2 s3 → closes c s1 s3.
Proof.
  intros [H1 H2 W1 (Δ1 & E1 & F1)] [H3 H4 W2 (Δ2 & E2 & F2)]. split.
  - congruence.
  - auto.
  - auto.
  - exists (Δ1 ++ Δ2). split; [by rewrite E2, E1, app_assoc|].
    apply Forall_app. split; [done|].
    eapply Forall_impl; [exact F2|]. intros e. by apply term_event_mono.
Qed.

Lemma closes_weaken c s s' : closes false s s' → closes c s s'.
Proof.
  intros [H1 H2 W (Δ & E & F)]. split; [done..|]. exists Δ. split; [done|].
  eapply Forall_impl; [exact F|]. intros e. apply term_event_weaken.
Qed.

Lemma closes_frame c s s' :
  opened s' = opened s →
  (∀ w, window_state w s' = window_state w s) →
  (∀ w, w ∈ windows s' → w ∈ windows s) →
  trace s' = trace s →
  closes c s s'.
Proof.
  intros H1 H2 H3 H4. split; [done| |done|].
  - intros w. by rewrite (is_open_ext w s s').
  - exists []. by rewrite app_nil_r.
Qed.

Lemma closes_terminate c s w st e :
  st ≠ Open → term_event c s e →
  closes c s (emit e (set_heap (alter (set_window st) w (heap s)) s)).
Proof.
  intros Hst He. split.
  - unfold opened. simpl. by apply opened_alter.
  - intros w'. rewrite !is_open_spec. unfold window_state. simpl.
    rewrite window_state_set_window. case_decide; [|done].
    destruct (heap s !! w'); simpl; congruence.
  - done.
  - exists [e]. split; [done|]. by constructor.
Qed.

Lemma closes_subject_error c e w s : closes c s (subject_error e w s).
Proof.
  unfold subject_error. destruct (is_open w s) eqn:E; [|apply closes_refl].
  by apply closes_terminate.
Qed.

Lemma closes_subject_complete w s : closes true s (subject_complete w s).
Proof.
  unfold subject_complete. destruct (is_open w s) eqn:E; [|apply closes_refl].
  by apply closes_terminate.
Qed.

(** One round of a drain: the oldest window leaves the registry and is
    ended. *)
Lemma closes_shift c f w ws s :
  (∀ w s, closes c s (f w s)) → windows s = w :: ws →
  closes c s (f w (set_windows ws s)).
Proof.
  intros Hf E. eapply closes_trans; [|apply Hf].
  apply closes_frame; try done. simpl. intros w' Hw'. rewrite E. by right.
Qed.

Lemma closes_shift_unsubscribe c w ws s :
  windows s = w :: ws → closes c s (subject_unsubscribe w (set_windows ws s)).
Proof.
  intros E. split.
  - unfold opened. simpl. by apply opened_alter.
  - intros w'. rewrite !is_open_spec. unfold window_state. simpl.
    rewrite window_state_set_window. case_decide; [|done].
    destruct (heap s !! w'); simpl; congruence.
  - simpl. intros w' Hw'. rewrite E. by right.
  - exists [WinCancel w]. split; [done|]. constructor; [|done].
    simpl. rewrite E. by left.
Qed.

Lemma closes_drain_loop c f n s :
  (∀ w ws s, windows s = w :: ws → closes c s (f w (set_windows ws s))) →
  closes c s (drain_loop n f s).
Proof.
  intros Hf. revert s. induction n as [|n IH]; intros s; simpl; [apply closes_refl|].
  destruct (windows s) as [|w ws] eqn:E; [apply closes_refl|].
  eapply closes_trans; [|apply IH]. by apply Hf.
Qed.

Lemma closes_drain c f s :
  (∀ w s, closes c s (f w s)) → closes c s (drain f s).
Proof. intros Hf. apply closes_drain_loop. intros. by apply closes_shift. Qed.

Lemma closes_source_unsubscribe c s : closes c s (source_unsubscribe s).
Proof.
  unfold source_unsubscribe. destruct (sourceSubscriber s); [|apply closes_refl].
  eapply closes_trans; [|apply closes_drain_loop; intros; by apply closes_shift_unsubscribe].
  by apply closes_frame.
Qed.

Lemma closes_unsubscribe_all c s : closes c s (unsubscribe_all s).
Proof.
  unfold unsubscribe_all.
  eapply closes_trans; [|apply closes_source_unsubscribe].
  apply closes_frame; [| |done..].
  - unfold opened. simpl. rewrite <- list_fmap_compose. by apply list_fmap_ext.
  - intros w. unfold window_state. simpl. rewrite list_lookup_fmap.
    by destruct (heap s !! w).
Qed.

Lemma closes_emit c e s : term_event c s e → closes c s (emit e s).
Proof. intros He. split; [done..|]. exists [e]. split; [done|]. by constructor. Qed.

Lemma closes_subscriber_error c e s : closes c s (subscriber_error e s).
Proof.
  unfold subscriber_error. destruct (subscriber s); [|apply closes_refl].
  eapply closes_trans; [|apply closes_unsubscribe_all]. by apply closes_emit.
Qed.

Lemma closes_subscriber_complete s : closes true s (subscriber_complete s).
Proof.
  unfold subscriber_complete. destruct (subscriber s); [|apply closes_refl].
  eapply closes_trans; [|apply closes_unsubscribe_all]. by apply closes_emit.
Qed.

Lemma closes_subscriber_unsubscribe c s : closes c s (subscriber_unsubscribe s).
Proof.
  unfold subscriber_unsubscribe. destruct (subscriber s); [|apply closes_refl].
  apply closes_unsubscribe_all.
Qed.

Lemma closes_handleError c e s : closes c s (handleError e s).
Proof.
  unfold handleError.
  eapply closes_trans; [|apply closes_subscriber_error].
  apply closes_drain. intros. apply closes_subject_error.
Qed.

Lemma closes_alter_closing c f w s :
  (∀ o, window (f o) = window o) → (∀ o, openValue (f o) = openValue o) →
  closes c s (set_heap (alter f w (heap s)) s).
Proof.
  intros H1 H2. apply closes_frame; [| |done..].
  - unfold opened. simpl. by apply opened_alter.
  - intros w'. unfold window_state. simpl. by apply window_state_alter_closing.
Qed.

Lemma arrRemove_subseteq ws w w' : w' ∈ arrRemove ws w → w' ∈ ws.
Proof.
  induction ws as [|x ws IH]; simpl; [done|]. case_decide as E.
  - intros Hw. by right.
  - intros [->|Hw]%elem_of_cons; [by left|right; auto].
Qed.

Lemma closes_closeWindow w s : closes true s (closeWindow w s).
Proof.
  unfold closeWindow.
  eapply closes_trans; [|apply closes_alter_closing;
    [apply closingSubscription_unsubscribe_window
    |apply closingSubscription_unsubscribe_openValue]].
  eapply closes_trans; [|apply closes_subject_complete].
  apply closes_frame; try done. simpl. intros w'. apply arrRemove_subseteq.
Qed.

Lemma closes_closing_signal w c s : closes true s (closing_signal w c s).
Proof.
  unfold closing_signal. destruct (closing_live w s); [|apply closes_refl].
  destruct c.
  - apply closes_closeWindow.
  - eapply closes_trans; [apply closes_handleError|]. by apply closes_alter_closing.
  - eapply closes_trans; [apply closes_closeWindow|]. by apply closes_alter_closing.
Qed.

(** ** Draining the registry *)

Lemma window_state_terminate st (w w' : nat) s :
  window_state w' (set_heap (alter (set_window st) w (heap s)) s) =
  if decide (w = w') then (λ _, st) <$> window_state w' s else window_state w' s.
Proof. unfold window_state. simpl. apply window_state_set_window. Qed.

Lemma is_open_terminate st (w : nat) e s :
  st ≠ Open →
  is_open w (emit e (set_heap (alter (set_window st) w (heap s)) s)) = false.
Proof.
  intros Hst. apply not_true_is_false. rewrite is_open_spec.
  change (window_state w (emit e ?s)) with (window_state w s).
  rewrite window_state_terminate, decide_True by done.
  destruct (window_state w s); simpl; congruence.
Qed.

Lemma closing_state_terminate st (w w' : nat) s :
  closing_state w' (set_heap (alter (set_window st) w (heap s)) s) =
  closing_state w' s.
Proof.
  unfold closing_state. simpl. destruct (decide (w = w')) as [->|E].
  - rewrite list_lookup_alter_eq. by destruct (heap s !! w').
  - by rewrite list_lookup_alter_ne.
Qed.

Lemma terminal_op_subject_complete :
  terminal_op subject_complete WinComplete Completed.
Proof.
  split; intros; unfold subject_complete;
    try (destruct (is_open w s) eqn:E; try done).
  - change (window_state w (emit ?e ?s)) with (window_state w s).
    rewrite window_state_terminate, decide_True by done.
    apply is_open_spec in E. by rewrite E.
  - change (window_state w' (emit ?e ?s)) with (window_state w' s).
    by rewrite window_state_terminate, decide_False.
  - by apply is_open_terminate.
  - change (closing_state w' (emit ?e ?s)) with (closing_state w' s).
    apply closing_state_terminate.
Qed.

Lemma terminal_op_subject_error e :
  terminal_op (subject_error e) (λ w, WinError w e) (Errored e).
Proof.
  split; intros; unfold subject_error;
    try (destruct (is_open w s) eqn:E; try done).
  - change (window_state w (emit ?e ?s)) with (window_state w s).
    rewrite window_state_terminate, decide_True by done.
    apply is_open_spec in E. by rewrite E.
  - change (window_state w' (emit ?e ?s)) with (window_state w' s).
    by rewrite window_state_terminate, decide_False.
  - by apply is_open_terminate.
  - change (closing_state w' (emit ?e ?s)) with (closing_state w' s).
    apply closing_state_terminate.
Qed.

Lemma terminal_op_subject_unsubscribe :
  terminal_op subject_unsubscribe WinCancel Cancelled.
Proof.
  split; intros; unfold subject_unsubscribe; try done.
  - change (window_state w (emit ?e ?s)) with (window_state w s).
    rewrite window_state_terminate, decide_True by done.
    apply is_open_spec in H. by rewrite H.
  - change (window_state w' (emit ?e ?s)) with (window_state w' s).
    by rewrite window_state_terminate, decide_False.
  - by apply is_open_terminate.
  - change (closing_state w' (emit ?e ?s)) with (closing_state w' s).
    apply closing_state_terminate.
Qed.

Section Drain.

Context (f : WinId → State → State) (ev : WinId → Event) (st : WindowState).
Hypothesis Hf : terminal_op f ev st.

Lemma top_open_mono w w' s : is_open w' (f w s) = true → is_open w' s = true.
Proof.
  destruct (decide (w = w')) as [->|E].
  - by rewrite (top_closed _ _ _ Hf).
  - by rewrite (is_open_ext w' s (f w s)) by by apply (top_other _ _ _ Hf).
Qed.

Lemma drain_loop_windows n s :
  length (windows s) ≤ n → windows (drain_loop n f s) = [].
Proof.
  revert s. induction n as [|n IH]; intros s Hn; simpl.
  - destruct (windows s); [done|simpl in Hn; lia].
  - destruct (windows s) as [|w ws] eqn:E; [done|].
    apply IH. rewrite (top_windows _ _ _ Hf). simpl in *. lia.
Qed.

Lemma drain_windows s : windows (drain f s) = [].
Proof. by apply drain_loop_windows. Qed.

Lemma drain_loop_subscribers n s :
  subscriber (drain_loop n f s) = subscriber s ∧
  openSubscriber (drain_loop n f s) = openSubscriber s ∧
  sourceSubscriber (drain_loop n f s) = sourceSubscriber s.
Proof.
  revert s. induction n as [|n IH]; intros s; simpl; [done|].
  destruct (windows s) as [|w ws]; [done|].
  destruct (IH (f w (set_windows ws s))) as (-> & -> & ->).
  by rewrite (top_subscriber _ _ _ Hf), (top_openSubscriber _ _ _ Hf),
    (top_sourceSubscriber _ _ _ Hf).
Qed.

Lemma drain_loop_other n s w :
  w ∉ windows s → window_state w (drain_loop n f s) = window_state w s.
Proof.
  revert s. induction n as [|n IH]; intros s Hw; simpl; [done|].
  destruct (windows s) as [|w' ws] eqn:E; [done|].
  apply not_elem_of_cons in Hw as [Hne Hw].
  rewrite IH by by rewrite (top_windows _ _ _ Hf).
  by rewrite (top_other _ _ _ Hf).
Qed.

(** The loop visits the registry oldest first and ends every window. *)
Lemma drain_loop_open n s :
  length (windows s) ≤ n → NoDup (windows s) →
  (∀ w, w ∈ windows s → is_open w s = true) →
  trace (drain_loop n f s) = trace s ++ (ev <$> windows s) ∧
  ∀ w, w ∈ windows s → window_state w (drain_loop n f s) = Some st.
Proof.
  revert s. induction n as [|n IH]; intros s Hn Hnd Hop; simpl.
  - destruct (windows s); [|simpl in Hn; lia].
    split; [by rewrite app_nil_r|]. intros w Hw. by apply elem_of_nil in Hw.
  - destruct (windows s) as [|w ws] eqn:E.
    { split; [by rewrite app_nil_r|]. intros w Hw. by apply elem_of_nil in Hw. }
    apply NoDup_cons in Hnd as [Hw Hnd].
    assert (Ho : is_open w (set_windows ws s) = true).
    { apply (Hop w). by left. }
    destruct (IH (f w (set_windows ws s))) as [Ht Hs].
    + rewrite (top_windows _ _ _ Hf). simpl in *. lia.
    + by rewrite (top_windows _ _ _ Hf).
    + rewrite (top_windows _ _ _ Hf). simpl. intros w' Hw'.
      rewrite (is_open_ext w' (set_windows ws s)).
      * apply (Hop w'). by right.
      * apply (top_other _ _ _ Hf). intros ->. done.
    + rewrite (top_windows _ _ _ Hf) in Ht, Hs. simpl in Ht, Hs. split.
      * rewrite Ht, (top_trace _ _ _ Hf) by done. simpl.
        by rewrite <- app_assoc.
      * intros w' [->|Hw']%elem_of_cons; [|by apply Hs].
        rewrite drain_loop_other by by rewrite (top_windows _ _ _ Hf).
        by apply (top_state _ _ _ Hf).
Qed.

Lemma drain_loop_closed n s :
  length (windows s) ≤ n →
  (∀ w, is_open w s = true → w ∈ windows s) →
  ∀ w, is_open w (drain_loop n f s) = false.
Proof.
  revert s. induction n as [|n IH]; intros s Hn Hreg w; simpl.
  - apply not_true_is_false. intros H%Hreg.
    destruct (windows s); [by apply elem_of_nil in H|simpl in Hn; lia].
  - destruct (windows s) as [|w' ws] eqn:E.
    { apply not_true_is_false. intros H%Hreg. by apply elem_of_nil in H. }
    apply IH.
    + rewrite (top_windows _ _ _ Hf). simpl in *. lia.
    + intros w'' Ho. rewrite (top_windows _ _ _ Hf). simpl.
      destruct (decide (w' = w'')) as [->|Hne].
      * by rewrite (top_closed _ _ _ Hf) in Ho.
      * rewrite (is_open_ext w'' (set_windows ws s)) in Ho
          by by apply (top_other _ _ _ Hf).
        apply Hreg in Ho.
        apply elem_of_cons in Ho as [->|Ho]; done.
Qed.

Lemma drain_closed s :
  (∀ w, is_open w s = true → w ∈ windows s) →
  ∀ w, is_open w (drain f s) = false.
Proof. by apply drain_loop_closed. Qed.

Lemma drain_open s :
  NoDup (windows s) → (∀ w, w ∈ windows s → is_open w s = true) →
  trace (drain f s) = trace s ++ (ev <$> windows s) ∧
  ∀ w, w ∈ windows s → window_state w (drain f s) = Some st.
Proof. by apply drain_loop_open. Qed.

Lemma drain_other s w :
  w ∉ windows s → window_state w (drain f s) = window_state w s.
Proof. apply drain_loop_other. Qed.

Lemma drain_subscribers s :
  subscriber (drain f s) = subscriber s ∧
  openSubscriber (drain f s) = openSubscriber s ∧
  sourceSubscriber (drain f s) = sourceSubscriber s.
Proof. apply drain_loop_subscribers. Qed.

End Drain.

(** ** Order of events *)

Lemma ordered_nil : ordered [].
Proof. intros pre e post a H. by destruct pre. Qed.

Lemma ordered_snoc tr e :
  ordered tr → (∀ a, requires e = Some a → a ∈ tr) → ordered (tr ++ [e]).
Proof.
  intros Htr He pre e' post a Heq Hreq.
  destruct post as [|x post _] using rev_ind.
  - apply app_inj_tail in Heq as [-> ->]. by apply He.
  - rewrite app_comm_cons, app_assoc in Heq.
    apply app_inj_tail in Heq as [Heq _]. by eapply Htr.
Qed.

Lemma ordered_app tr Δ :
  ordered tr → Forall (λ e, ∀ a, requires e = Some a → a ∈ tr) Δ →
  ordered (tr ++ Δ).
Proof.
  intros Htr. induction Δ as [|e Δ IH] using rev_ind; intros HΔ.
  - by rewrite app_nil_r.
  - apply Forall_app in HΔ as [HΔ He]. rewrite app_assoc.
    apply ordered_snoc; [by apply IH|].
    intros a Ha. apply elem_of_app. left.
    by apply (Forall_inv He).
Qed.

Lemma ordered_precedes tr e a : ordered tr → requires e = Some a → precedes a e tr.
Proof. intros Htr Hreq pre post Heq. by eapply Htr. Qed.

Lemma closes_length c s s' : closes c s s' → length (heap s') = length (heap s).
Proof.
  intros [H _ _ _]. unfold opened in H.
  by rewrite <- (length_fmap openValue (heap s')), H, length_fmap.
Qed.

Lemma closes_not_register c s s' w :
  closes c s s' → Register w ∈ trace s' → Register w ∈ trace s.
Proof.
  intros [_ _ _ (Δ & -> & HΔ)] [H|H]%elem_of_app; [done|].
  rewrite Forall_forall in HΔ. by apply HΔ in H.
Qed.

Lemma closes_not_emitted c s s' w :
  closes c s s' → OutNext w ∈ trace s' → OutNext w ∈ trace s.
Proof.
  intros [_ _ _ (Δ & -> & HΔ)] [H|H]%elem_of_app; [done|].
  rewrite Forall_forall in HΔ. by apply HΔ in H.
Qed.

Lemma closes_trace_mono c s s' e : closes c s s' → e ∈ trace s → e ∈ trace s'.
Proof. intros [_ _ _ (Δ & -> & _)] H. apply elem_of_app. by left. Qed.

(** The part of the invariant that concerns the trace survives every step
    that only closes.  Completions need their window emitted; errors and
    cancellations need it registered only. *)
Lemma closes_trace_inv c s s' :
  closes c s s' →
  (∀ w, w ∈ windows s → w < length (heap s)) →
  (∀ w, Register w ∈ trace s ↔ w < length (heap s)) →
  (c = true → ∀ w, is_open w s = true → OutNext w ∈ trace s) →
  ordered (trace s) →
  (∀ w, Register w ∈ trace s' ↔ w < length (heap s')) ∧ ordered (trace s').
Proof.
  intros Hc Hall Hreg Hem Hord. split.
  - intros w. rewrite (closes_length _ _ _ Hc), <- Hreg. split.
    + by eapply closes_not_register.
    + by eapply closes_trace_mono.
  - destruct Hc as [_ _ _ (Δ & -> & HΔ)]. apply ordered_app; [done|].
    eapply Forall_impl; [exact HΔ|]. intros e He a Ha.
    destruct e; simpl in *; try done; simplify_eq.
    + apply Hreg. by apply is_open_lt.
    + destruct He as [-> He]. by apply Hem.
    + apply Hreg. by apply Hall.
Qed.

Lemma wf_allocated s w : wf s → w ∈ windows s → w < length (heap s).
Proof. intros Hwf Hw%(wf_registry s Hwf). by apply is_open_lt. Qed.

Lemma wf_closes s s' :
  wf s → closes true s s' →
  NoDup (windows s') → (∀ w, w ∈ windows s' ↔ is_open w s' = true) →
  sourceSubscriber s' = subscriber s' →
  (openSubscriber s' = true → subscriber s' = true) →
  wf s'.
Proof.
  intros Hwf Hc Hnd Hreg Hsrc Hop.
  destruct (closes_trace_inv true s s' Hc) as [H1 H2];
    [intros w; by apply wf_allocated|apply Hwf|intros _; apply Hwf|apply Hwf|].
  split; try done.
  intros w Hw. eapply closes_trace_mono; [done|].
  apply Hwf. by apply (closes_open _ _ _ Hc).
Qed.

(** Once the registry is drained and every window is closed, the invariant
    holds whatever was emitted before. *)
Lemma wf_drained c s s' :
  closes c s s' →
  (∀ w, w ∈ windows s → w < length (heap s)) →
  (∀ w, Register w ∈ trace s ↔ w < length (heap s)) →
  (c = true → ∀ w, is_open w s = true → OutNext w ∈ trace s) →
  ordered (trace s) →
  windows s' = [] → (∀ w, is_open w s' = false) →
  sourceSubscriber s' = subscriber s' →
  (openSubscriber s' = true → subscriber s' = true) →
  wf s'.
Proof.
  intros Hc Hall Hreg Hem Hord Hws Hcl Hsrc Hop.
  destruct (closes_trace_inv c s s' Hc) as [H1 H2]; [done..|].
  split; try done.
  - rewrite Hws. constructor.
  - intros w. rewrite Hws, Hcl. split; [by intros ?%elem_of_nil|done].
  - intros w. by rewrite Hcl.
Qed.

(** ** The registry under each callback *)

Lemma arrRemove_elem_of ws w w' :
  NoDup ws → w' ∈ arrRemove ws w ↔ w' ∈ ws ∧ w' ≠ w.
Proof.
  induction ws as [|x ws IH]; simpl; intros Hnd.
  - split; [by intros ?%elem_of_nil|by intros [?%elem_of_nil _]].
  - apply NoDup_cons in Hnd as [Hx Hnd]. case_decide as E.
    + subst x. rewrite elem_of_cons. split.
      * intros H. split; [by right|]. by intros ->.
      * by intros [[->|H] Hne].
    + rewrite !elem_of_cons, IH by done. split.
      * intros [->|[H Hne]]; [split; [by left|done]|split; [by right|done]].
      * intros [[->|H] Hne]; [by left|by right].
Qed.

Lemma arrRemove_NoDup ws w : NoDup ws → NoDup (arrRemove ws w).
Proof.
  induction ws as [|x ws IH]; simpl; intros Hnd; [done|].
  apply NoDup_cons in Hnd as [Hx Hnd]. case_decide; [done|].
  apply NoDup_cons. split; [|by apply IH].
  rewrite arrRemove_elem_of by done. by intros [? _].
Qed.

Lemma arrRemove_absent ws w : w ∉ ws → arrRemove ws w = ws.
Proof.
  induction ws as [|x ws IH]; simpl; [done|].
  intros [Hne Hw]%not_elem_of_cons. case_decide; [done|]. by rewrite IH.
Qed.

Lemma source_unsubscribe_windows s :
  windows (source_unsubscribe s) = if sourceSubscriber s then [] else windows s.
Proof.
  unfold source_unsubscribe. destruct (sourceSubscriber s); [|done].
  apply (drain_windows _ _ _ terminal_op_subject_unsubscribe).
Qed.

Lemma unsubscribe_all_windows s :
  windows (unsubscribe_all s) = if sourceSubscriber s then [] else windows s.
Proof. unfold unsubscribe_all. by rewrite source_unsubscribe_windows. Qed.

Lemma unsubscribe_all_subscribers s :
  subscriber (unsubscribe_all s) = false ∧
  openSubscriber (unsubscribe_all s) = false ∧
  sourceSubscriber (unsubscribe_all s) = false.
Proof.
  unfold unsubscribe_all, source_unsubscribe. simpl.
  destruct (sourceSubscriber s) eqn:E; simpl; [|done].
  by destruct (drain_subscribers _ _ _ terminal_op_subject_unsubscribe
    (set_sourceSubscriber false
       (set_heap (set_closingSubscriber Stopped <$> heap s)
          (set_openSubscriber false (set_subscriber false s)))))
    as (-> & -> & ->).
Qed.

Lemma unsubscribe_all_closed s :
  sourceSubscriber s = true →
  (∀ w, is_open w s = true → w ∈ windows s) →
  ∀ w, is_open w (unsubscribe_all s) = false.
Proof.
  intros Hsrc Hreg. unfold unsubscribe_all, source_unsubscribe. simpl.
  rewrite Hsrc. apply (drain_closed _ _ _ terminal_op_subject_unsubscribe).
  intros w Hw. simpl. apply Hreg. revert Hw. rewrite !is_open_spec.
  unfold window_state. simpl. rewrite list_lookup_fmap.
  by destruct (heap s !! w).
Qed.

Lemma closes_closed c s s' :
  closes c s s' → (∀ w, is_open w s = false) → ∀ w, is_open w s' = false.
Proof.
  intros Hc Hcl w. apply not_true_is_false. intros H%(closes_open _ _ _ Hc).
  by rewrite Hcl in H.
Qed.

(** ** The invariant under the callbacks that close *)

Lemma wf_unsubscribe_all c s s0 :
  closes c s s0 →
  (∀ w, w ∈ windows s → w < length (heap s)) →
  (∀ w, Register w ∈ trace s ↔ w < length (heap s)) →
  (c = true → ∀ w, is_open w s = true → OutNext w ∈ trace s) →
  ordered (trace s) →
  (∀ w, is_open w s0 = true → w ∈ windows s0) →
  sourceSubscriber s0 = true ∨ windows s0 = [] →
  wf (unsubscribe_all s0).
Proof.
  intros Hc Hall Hreg Hem Hord Hopen Hsrc.
  destruct (unsubscribe_all_subscribers s0) as (Hs1 & Hs2 & Hs3).
  eapply (wf_drained c s);
    [eapply closes_trans; [done|apply closes_unsubscribe_all]
    |done|done|done|done| | | |].
  - rewrite unsubscribe_all_windows. destruct (sourceSubscriber s0); [done|].
    by destruct Hsrc.
  - destruct (sourceSubscriber s0) eqn:E; [by apply unsubscribe_all_closed|].
    destruct Hsrc as [|Hws]; [done|].
    apply (closes_closed c s0); [apply closes_unsubscribe_all|].
    intros w. apply not_true_is_false. intros H%Hopen. rewrite Hws in H.
    by apply elem_of_nil in H.
  - congruence.
  - congruence.
Qed.

Lemma wf_subscriber_error e s : wf s → wf (subscriber_error e s).
Proof.
  intros Hwf. unfold subscriber_error. destruct (subscriber s) eqn:E; [|done].
  eapply (wf_unsubscribe_all true s);
    [by apply closes_emit|intros w; by apply wf_allocated
    |apply Hwf|intros _; apply Hwf|apply Hwf| |].
  - intros w. apply (wf_registry s Hwf).
  - left. simpl. by rewrite (wf_source s Hwf).
Qed.

Lemma wf_subscriber_unsubscribe s : wf s → wf (subscriber_unsubscribe s).
Proof.
  intros Hwf. unfold subscriber_unsubscribe. destruct (subscriber s) eqn:E; [|done].
  eapply (wf_unsubscribe_all true s);
    [apply closes_refl|intros w; by apply wf_allocated
    |apply Hwf|intros _; apply Hwf|apply Hwf| |].
  - intros w. apply (wf_registry s Hwf).
  - left. by rewrite (wf_source s Hwf).
Qed.

(** After a drain of the whole registry, [subscriber.error] or
    [subscriber.complete] leaves a well-formed state. *)
Lemma wf_after_drain c f ev st e s :
  terminal_op f ev st →
  (∀ w s, closes c s (f w s)) → term_event c (drain f s) e →
  (∀ w, is_open w s = true → w ∈ windows s) →
  (∀ w, w ∈ windows s → w < length (heap s)) →
  sourceSubscriber s = subscriber s →
  (openSubscriber s = true → subscriber s = true) →
  (∀ w, Register w ∈ trace s ↔ w < length (heap s)) →
  (c = true → ∀ w, is_open w s = true → OutNext w ∈ trace s) →
  ordered (trace s) →
  wf (if subscriber (drain f s) then unsubscribe_all (emit e (drain f s))
      else drain f s).
Proof.
  intros Hf Hcf He Hopen Hall Hsrc Hop Hreg Hem Hord.
  pose proof (drain_windows f ev st Hf s) as Hws.
  pose proof (drain_closed f ev st Hf s Hopen) as Hcl.
  destruct (drain_subscribers f ev st Hf s) as (Hs1 & Hs2 & Hs3).
  destruct (subscriber (drain f s)) eqn:E.
  - eapply (wf_unsubscribe_all c s); try done.
    + eapply closes_trans; [by apply closes_drain|]. by apply closes_emit.
    + intros w. simpl. change (is_open w (emit e ?s)) with (is_open w s).
      by rewrite Hcl.
    + by right.
  - eapply (wf_drained c s); try done;
      [by apply closes_drain|congruence|rewrite Hs2; intros H%Hop; congruence].
Qed.

Lemma wf_handleError_pre e s :
  (∀ w, is_open w s = true → w ∈ windows s) →
  (∀ w, w ∈ windows s → w < length (heap s)) →
  sourceSubscriber s = subscriber s →
  (openSubscriber s = true → subscriber s = true) →
  (∀ w, Register w ∈ trace s ↔ w < length (heap s)) →
  ordered (trace s) →
  wf (handleError e s).
Proof.
  intros. unfold handleError, subscriber_error.
  eapply (wf_after_drain false); try done.
  - apply terminal_op_subject_error.
  - intros. apply closes_subject_error.
Qed.

Lemma wf_handleError e s : wf s → wf (handleError e s).
Proof.
  intros Hwf. apply wf_handleError_pre;
    [intros w; apply (wf_registry s Hwf)|intros w; by apply wf_allocated
    |apply Hwf..].
Qed.

Lemma wf_source_complete s :
  wf s → wf (subscriber_complete (drain subject_complete s)).
Proof.
  intros Hwf. unfold subscriber_complete.
  eapply (wf_after_drain true);
    [apply terminal_op_subject_complete
    |intros; apply closes_subject_complete
    |done
    |intros w; apply (wf_registry s Hwf)
    |intros w; by apply wf_allocated
    |apply Hwf|apply Hwf|apply Hwf|intros _; apply Hwf|apply Hwf].
Qed.

Lemma wf_alter_closing f (w : nat) s :
  (∀ o, window (f o) = window o) → (∀ o, openValue (f o) = openValue o) →
  wf s → wf (set_heap (alter f w (heap s)) s).
Proof.
  intros H1 H2 Hwf.
  assert (Ho : ∀ w', is_open w' (set_heap (alter f w (heap s)) s) = is_open w' s).
  { intros w'. apply is_open_ext. unfold window_state. simpl.
    by apply window_state_alter_closing. }
  eapply wf_closes; [done|by apply closes_alter_closing|..]; simpl;
    try apply Hwf.
  intros w'. rewrite Ho. apply Hwf.
Qed.

Lemma closeWindow_windows w s :
  windows (closeWindow w s) = arrRemove (windows s) w.
Proof.
  unfold closeWindow, subject_complete. simpl.
  by destruct (is_open w (set_windows (arrRemove (windows s) w) s)).
Qed.

Lemma closeWindow_subscribers w s :
  subscriber (closeWindow w s) = subscriber s ∧
  openSubscriber (closeWindow w s) = openSubscriber s ∧
  sourceSubscriber (closeWindow w s) = sourceSubscriber s.
Proof.
  unfold closeWindow, subject_complete. simpl.
  by destruct (is_open w (set_windows (arrRemove (windows s) w) s)).
Qed.

Lemma closeWindow_window_state w w' s :
  window_state w' (closeWindow w s) =
  if decide (w = w')
  then match window_state w' s with Some Open => Some Completed | o => o end
  else window_state w' s.
Proof.
  unfold closeWindow.
  set (s1 := set_windows (arrRemove (windows s) w) s).
  assert (E : window_state w' (subject_complete w s1) =
    if decide (w = w')
    then match window_state w' s with Some Open => Some Completed | o => o end
    else window_state w' s).
  { unfold subject_complete. destruct (is_open w s1) eqn:Ho.
    - change (window_state w' (emit ?e ?s)) with (window_state w' s).
      rewrite window_state_terminate.
      change (window_state w' s1) with (window_state w' s).
      case_decide; [|done]. subst w'. apply is_open_spec in Ho.
      change (window_state w s1) with (window_state w s) in Ho. by rewrite Ho.
    - change (window_state w' s1) with (window_state w' s).
      case_decide; [|done]. subst w'.
      destruct (window_state w s) as [[]|] eqn:E; try done.
      apply is_open_spec in E. change (is_open w s) with (is_open w s1) in E.
      congruence. }
  rewrite <- E. unfold window_state at 1. simpl.
  apply window_state_alter_closing, closingSubscription_unsubscribe_window.
Qed.

Lemma closeWindow_is_open w w' s :
  is_open w' (closeWindow w s) = true ↔ is_open w' s = true ∧ w' ≠ w.
Proof.
  rewrite !is_open_spec, closeWindow_window_state. case_decide as E.
  - subst. destruct (window_state w' s) as [[]|]; (split; [done|by intros [_ ?]]).
  - split; [intros H; split; [done|congruence]|by intros [? _]].
Qed.

Lemma wf_closeWindow w s : wf s → wf (closeWindow w s).
Proof.
  intros Hwf. destruct (closeWindow_subscribers w s) as (E1 & E2 & E3).
  eapply wf_closes; [done|apply closes_closeWindow|..].
  - rewrite closeWindow_windows. apply arrRemove_NoDup, Hwf.
  - intros w'. rewrite closeWindow_windows, closeWindow_is_open.
    rewrite arrRemove_elem_of by apply Hwf.
    by rewrite (wf_registry s Hwf).
  - rewrite E1, E3. apply Hwf.
  - rewrite E1, E2. apply Hwf.
Qed.

Lemma wf_closing_signal w c s : wf s → wf (closing_signal w c s).
Proof.
  intros Hwf. unfold closing_signal. destruct (closing_live w s); [|done].
  destruct c.
  - by apply wf_closeWindow.
  - apply wf_alter_closing; [done..|]. by apply wf_handleError.
  - apply wf_alter_closing; [done..|]. by apply wf_closeWindow.
Qed.

(** ** The invariant under the openings callback *)

Lemma new_window_window_state o (w : nat) s :
  window_state w (new_window o s) =
  if decide (w = length (heap s)) then Some Open else window_state w s.
Proof.
  unfold window_state, new_window. simpl. case_decide as E.
  - subst. by rewrite list_lookup_middle.
  - destruct (decide (w < length (heap s))).
    + by rewrite lookup_app_l.
    + rewrite !lookup_ge_None_2; [done|lia|rewrite length_app; simpl; lia].
Qed.

Lemma new_window_is_open o (w : nat) s :
  is_open w (new_window o s) = true ↔ w = length (heap s) ∨ is_open w s = true.
Proof.
  rewrite !is_open_spec, new_window_window_state. case_decide as E.
  - split; [by left|done].
  - split; [by right|by intros [|]].
Qed.

Lemma new_window_register o s (w : nat) :
  (∀ w, Register w ∈ trace s ↔ w < length (heap s)) →
  Register w ∈ trace (new_window o s) ↔ w < length (heap (new_window o s)).
Proof.
  intros Hreg. simpl. rewrite elem_of_app, list_elem_of_singleton, Hreg.
  rewrite length_app. simpl. split.
  - intros [H|H]; [lia|]. injection H. lia.
  - intros H. destruct (decide (w = length (heap s))) as [->|]; [by right|left; lia].
Qed.

Lemma wf_open_fresh s w : wf s → w ∈ windows s → w ≠ length (heap s).
Proof.
  intros Hwf Hw%(wf_registry s Hwf). apply is_open_lt in Hw. lia.
Qed.

(** The state in which the closing notifier is about to be subscribed. *)
Lemma wf_emitted_window o s :
  wf s → subscriber s = true →
  wf (emit (OutNext (length (heap s))) (new_window o s)).
Proof.
  intros Hwf Hsub. split.
  - simpl. apply NoDup_app. split; [apply Hwf|]. split; [|apply NoDup_singleton].
    intros w Hw ->%list_elem_of_singleton. by eapply wf_open_fresh.
  - intros w. change (is_open w (emit ?e ?s)) with (is_open w s).
    rewrite new_window_is_open. simpl.
    rewrite elem_of_app, list_elem_of_singleton, (wf_registry s Hwf). tauto.
  - simpl. apply Hwf.
  - simpl. apply Hwf.
  - intros w. change (heap (emit ?e ?s)) with (heap s).
    rewrite <- (new_window_register o s w) by apply Hwf.
    change (trace (emit ?e ?s)) with (trace s ++ [e]).
    rewrite elem_of_app, list_elem_of_singleton. split; [by intros [|]|by left].
  - intros w. change (is_open w (emit ?e ?s)) with (is_open w s).
    rewrite new_window_is_open. simpl. intros [->|Hw].
    + apply elem_of_app. right. by apply list_elem_of_singleton.
    + apply elem_of_app. left. apply elem_of_app. left. by apply Hwf.
  - simpl. apply ordered_snoc; [apply ordered_snoc; [apply Hwf|done]|].
    intros a [= <-]. apply elem_of_app. right. by apply list_elem_of_singleton.
Qed.

Lemma wf_emit_subscribe (w : nat) s :
  wf s → OutNext w ∈ trace s → wf (emit (SubscribeClosing w) s).
Proof.
  intros Hwf Hw. split; simpl; try apply Hwf.
  - intros w'. rewrite elem_of_app, list_elem_of_singleton.
    rewrite <- (wf_register s Hwf). split; [by intros [|]|by left].
  - intros w' Hw'. apply elem_of_app. left. by apply Hwf.
  - apply ordered_snoc; [apply Hwf|]. by intros a [= <-].
Qed.

Lemma wf_closing_signals w sync s :
  wf s → wf (foldl (λ s' c, closing_signal w c s') s sync).
Proof.
  revert s. induction sync as [|c sync IH]; intros s Hwf; simpl; [done|].
  by apply IH, wf_closing_signal.
Qed.

Lemma wf_subscribe_closing w sync s :
  wf s → OutNext w ∈ trace s → wf (subscribe_closing w sync s).
Proof.
  intros Hwf Hw. unfold subscribe_closing.
  apply wf_alter_closing;
    [apply closingSubscription_add_window|apply closingSubscription_add_openValue|].
  apply wf_closing_signals.
  apply (wf_emit_subscribe w
    (set_heap (alter (set_closingSubscriber Subscribing) w (heap s)) s)).
  - by apply wf_alter_closing.
  - done.
Qed.

Section Invariant.

Variable closingSelector : OpenVal → SelectorResult.
Variable react : WinId → Value → list Signal.

Lemma wf_open_window o s :
  wf s → openSubscriber s = true → wf (open_window closingSelector o s).
Proof.
  intros Hwf Hop. pose proof (wf_openings s Hwf Hop) as Hsub.
  unfold open_window. destruct (closingSelector o) as [e|sync].
  - apply wf_handleError_pre.
    + intros w [->|Hw]%new_window_is_open; simpl.
      * apply elem_of_app. right. by apply list_elem_of_singleton.
      * apply elem_of_app. left. by apply Hwf.
    + intros w. simpl. rewrite length_app. simpl.
      intros [Hw|Hw]%elem_of_app.
      * apply (wf_allocated s w Hwf) in Hw. lia.
      * apply list_elem_of_singleton in Hw. lia.
    + apply Hwf.
    + apply Hwf.
    + intros w. apply new_window_register, Hwf.
    + simpl. apply ordered_snoc; [apply Hwf|done].
  - unfold subscriber_next.
    change (subscriber (new_window o s)) with (subscriber s). rewrite Hsub.
    apply wf_subscribe_closing; [by apply wf_emitted_window|].
    apply elem_of_app. right. by apply list_elem_of_singleton.
Qed.

Lemma wf_handle_signal g s : wf s → wf (handle_signal closingSelector g s).
Proof.
  intros Hwf. destruct g; simpl.
  - destruct (openSubscriber s) eqn:E; [by apply wf_open_window|done].
  - destruct (openSubscriber s); [by apply wf_subscriber_error|done].
  - split; simpl; try apply Hwf. done.
  - destruct (sourceSubscriber s); [by apply wf_handleError|done].
  - destruct (sourceSubscriber s); [by apply wf_source_complete|done].
  - by apply wf_closing_signal.
  - by apply wf_subscriber_unsubscribe.
Qed.

Lemma wf_handle_signals gs s :
  wf s → wf (foldl (λ s' g, handle_signal closingSelector g s') s gs).
Proof.
  revert s. induction gs as [|g gs IH]; intros s Hwf; simpl; [done|].
  by apply IH, wf_handle_signal.
Qed.

Lemma wf_subject_next w v s : wf s → wf (subject_next w v s).
Proof.
  intros Hwf. unfold subject_next. destruct (is_open w s) eqn:E; [|done].
  split; simpl; try apply Hwf.
  - intros w'. rewrite elem_of_app, list_elem_of_singleton.
    rewrite <- (wf_register s Hwf). split; [by intros [|]|by left].
  - intros w' Hw'. apply elem_of_app. left. by apply Hwf.
  - apply ordered_snoc; [apply Hwf|]. intros a [= <-]. by apply Hwf.
Qed.

Lemma wf_deliver v w s : wf s → wf (deliver closingSelector react v w s).
Proof.
  intros Hwf. unfold deliver. destruct (is_open w s); [|done].
  by apply wf_handle_signals, wf_subject_next.
Qed.

Lemma wf_fanout v ws s : wf s → wf (fanout closingSelector react v ws s).
Proof.
  revert s. induction ws as [|w ws IH]; intros s Hwf; simpl; [done|].
  by apply IH, wf_deliver.
Qed.

Lemma wf_handle i s : wf s → wf (handle closingSelector react i s).
Proof.
  intros Hwf. destruct i as [g|v]; simpl; [by apply wf_handle_signal|].
  destruct (sourceSubscriber s); [by apply wf_fanout|done].
Qed.

Lemma wf_run ins s : wf s → wf (run closingSelector react ins s).
Proof.
  revert s. induction ins as [|i ins IH]; intros s Hwf; simpl; [done|].
  by apply IH, wf_handle.
Qed.

Lemma wf_ready : wf ready.
Proof.
  split; simpl; try done.
  - constructor.
  - intros w. split; [by intros ?%elem_of_nil|].
    intros H%is_open_lt. simpl in H. lia.
  - intros w. split; [by intros ?%elem_of_nil|lia].
  - apply ordered_nil.
Qed.

End Invariant.

(** ** What the global paths do, exactly *)

Section DrainClosing.

Context (f : WinId → State → State) (ev : WinId → Event) (st : WindowState).
Hypothesis Hf : terminal_op f ev st.

Lemma drain_closing_state s w :
  closing_state w (drain f s) = closing_state w s.
Proof.
  unfold drain. generalize (length (windows s)) as n. intros n. revert s.
  induction n as [|n IH]; intros s; simpl; [done|].
  destruct (windows s) as [|w' ws]; [done|].
  by rewrite IH, (top_closing _ _ _ Hf).
Qed.

End DrainClosing.

Lemma is_open_stop_closing (w : nat) s b1 b2 :
  is_open w (set_heap (set_closingSubscriber Stopped <$> heap s)
               (set_openSubscriber b1 (set_subscriber b2 s))) = is_open w s.
Proof.
  apply is_open_ext. unfold window_state. simpl. rewrite list_lookup_fmap.
  by destruct (heap s !! w).
Qed.

Lemma unsubscribe_all_effect s :
  sourceSubscriber s = true → NoDup (windows s) →
  (∀ w, w ∈ windows s → is_open w s = true) →
  trace (unsubscribe_all s) = trace s ++ (WinCancel <$> windows s) ∧
  ∀ w, w ∈ windows s → window_state w (unsubscribe_all s) = Some Cancelled.
Proof.
  intros Hsrc Hnd Hop. unfold unsubscribe_all, source_unsubscribe. simpl.
  rewrite Hsrc.
  apply (drain_open _ _ _ terminal_op_subject_unsubscribe
    (set_sourceSubscriber false
       (set_heap (set_closingSubscriber Stopped <$> heap s)
          (set_openSubscriber false (set_subscriber false s))))); [done|].
  intros w Hw. simpl in Hw.
  change (is_open w (set_sourceSubscriber false ?s)) with (is_open w s).
  rewrite is_open_stop_closing. by apply Hop.
Qed.

Lemma unsubscribe_all_other s w :
  w ∉ windows s → window_state w (unsubscribe_all s) = window_state w s.
Proof.
  intros Hw. unfold unsubscribe_all, source_unsubscribe. simpl.
  assert (E : ∀ b1 b2, window_state w
    (set_heap (set_closingSubscriber Stopped <$> heap s)
       (set_openSubscriber b1 (set_subscriber b2 s))) = window_state w s).
  { intros. unfold window_state. simpl. rewrite list_lookup_fmap.
    by destruct (heap s !! w). }
  destruct (sourceSubscriber s); [|apply E].
  rewrite (drain_other _ _ _ terminal_op_subject_unsubscribe) by done.
  apply E.
Qed.

Lemma unsubscribe_all_closing_live s w :
  closing_live w (unsubscribe_all s) = false.
Proof.
  unfold closing_live.
  assert (E : closing_state w (unsubscribe_all s) = (λ _, Stopped) <$> heap s !! w).
  { unfold unsubscribe_all, source_unsubscribe. simpl.
    destruct (sourceSubscriber s).
    - rewrite (drain_closing_state _ _ _ terminal_op_subject_unsubscribe).
      unfold closing_state. simpl. rewrite list_lookup_fmap.
      by destruct (heap s !! w).
    - unfold closing_state. simpl. rewrite list_lookup_fmap.
      by destruct (heap s !! w). }
  rewrite E. by destruct (heap s !! w).
Qed.

(** A full drain by [f] followed by a terminal signal [e] on a live output. *)
Lemma drain_then_stop f ev st e s :
  terminal_op f ev st →
  NoDup (windows s) → (∀ w, w ∈ windows s → is_open w s = true) →
  sourceSubscriber s = true →
  let s' := unsubscribe_all (emit e (drain f s)) in
  trace s' = trace s ++ (ev <$> windows s) ++ [e] ∧
  windows s' = [] ∧
  (∀ w, w ∈ windows s → window_state w s' = Some st) ∧
  (∀ w, w ∉ windows s → window_state w s' = window_state w s).
Proof.
  intros Hf Hnd Hop Hsrc s'.
  destruct (drain_open f ev st Hf s Hnd Hop) as [Ht Hst].
  pose proof (drain_windows f ev st Hf s) as Hws.
  destruct (drain_subscribers f ev st Hf s) as (_ & _ & Hs3).
  destruct (unsubscribe_all_effect (emit e (drain f s))) as [Ht' _].
  { simpl. congruence. }
  { simpl. rewrite Hws. constructor. }
  { simpl. rewrite Hws. by intros w ?%elem_of_nil. }
  assert (Hoth : ∀ w, window_state w s' = window_state w (drain f s)).
  { intros w. unfold s'. rewrite unsubscribe_all_other; [done|].
    simpl. rewrite Hws. by intros ?%elem_of_nil. }
  split; [|split; [|split]].
  - unfold s'. rewrite Ht'. simpl. rewrite Hws, Ht. simpl.
    by rewrite app_nil_r, <- app_assoc.
  - unfold s'. rewrite unsubscribe_all_windows. simpl. rewrite Hws.
    by destruct (sourceSubscriber (drain f s)).
  - intros w Hw. rewrite Hoth. by apply Hst.
  - intros w Hw. rewrite Hoth. by apply (drain_other f ev st Hf).
Qed.

Lemma stopped_unsubscribe_all s : stopped (unsubscribe_all s).
Proof.
  destruct (unsubscribe_all_subscribers s) as (H1 & H2 & H3).
  repeat split; try done. intros w. apply unsubscribe_all_closing_live.
Qed.

Lemma stopped_handle sel react i s : stopped s → handle sel react i s = s.
Proof.
  intros (H1 & H2 & H3 & H4). destruct i as [g|v]; simpl; [|by rewrite H3].
  destruct g; simpl; rewrite ?H1, ?H2, ?H3; try done.
  - destruct s. simpl in *. by subst.
  - unfold closing_signal. by rewrite H4.
  - unfold subscriber_unsubscribe. by rewrite H1.
Qed.

Lemma stopped_run sel react ins s : stopped s → run sel react ins s = s.
Proof.
  intros Hs. induction ins as [|i ins IH]; simpl; [done|].
  by rewrite stopped_handle.
Qed.

(** ** The subscription of the output *)

Lemma closing_live_alter_stop (w w' : nat) s :
  closing_live w' (set_heap (alter (set_closingSubscriber Stopped) w (heap s)) s) = true →
  closing_live w' s = true.
Proof.
  unfold closing_live, closing_state. simpl. destruct (decide (w = w')) as [->|Hne].
  - rewrite list_lookup_alter_eq. by destruct (heap s !! w').
  - by rewrite list_lookup_alter_ne.
Qed.

Lemma stopped_alter_stop (w : nat) s :
  stopped s → stopped (set_heap (alter (set_closingSubscriber Stopped) w (heap s)) s).
Proof.
  intros (H1 & H2 & H3 & H4). repeat split; try done.
  intros w'. apply not_true_is_false. intros H%closing_live_alter_stop.
  by rewrite H4 in H.
Qed.

Lemma alter_fixed (f : WinObj → WinObj) (w : nat) (h : list WinObj) o :
  h !! w = Some o → f o = o → alter f w h = h.
Proof.
  revert w. induction h as [|o' h IH]; intros [|w] Hw Hf; simpl in *; try done.
  - injection Hw as ->. by rewrite Hf.
  - f_equal. by apply IH.
Qed.

Lemma alter_none (f : WinObj → WinObj) (w : nat) (h : list WinObj) :
  h !! w = None → alter f w h = h.
Proof.
  revert w. induction h as [|o h IH]; intros [|w] Hw; simpl in *; try done.
  f_equal. by apply IH.
Qed.

Lemma stopped_closing_signals w sync s :
  stopped s → foldl (λ s' c, closing_signal w c s') s sync = s.
Proof.
  intros Hs. induction sync as [|c sync IH]; simpl; [done|].
  unfold closing_signal at 2. destruct Hs as (H1 & H2 & H3 & H4).
  rewrite H4. by apply IH.
Qed.

Lemma stopped_closingSubscription_add (w : nat) s :
  stopped s → set_heap (alter closingSubscription_add w (heap s)) s = s.
Proof.
  intros (_ & _ & _ & Hl). specialize (Hl w).
  unfold closing_live, closing_state in Hl.
  destruct (heap s !! w) as [o|] eqn:Ho.
  - rewrite (alter_fixed _ w (heap s) o Ho); [by destruct s|].
    unfold closingSubscription_add. simpl in Hl.
    by destruct (closingSubscriber o).
  - rewrite alter_none by done. by destruct s.
Qed.

(** Whether the source subscriber exists makes no difference to the terminal
    operations of a window, to the close procedure and to the drain loop. *)
Lemma subject_error_source b e w s :
  subject_error e w (set_sourceSubscriber b s)
  = set_sourceSubscriber b (subject_error e w s).
Proof.
  unfold subject_error. change (is_open w (set_sourceSubscriber b s)) with (is_open w s).
  by destruct (is_open w s).
Qed.

Lemma subject_complete_source b w s :
  subject_complete w (set_sourceSubscriber b s)
  = set_sourceSubscriber b (subject_complete w s).
Proof.
  unfold subject_complete.
  change (is_open w (set_sourceSubscriber b s)) with (is_open w s).
  by destruct (is_open w s).
Qed.

Lemma drain_loop_source b f n s :
  (∀ w s, f w (set_sourceSubscriber b s) = set_sourceSubscriber b (f w s)) →
  drain_loop n f (set_sourceSubscriber b s) = set_sourceSubscriber b (drain_loop n f s).
Proof.
  intros Hf. revert s. induction n as [|n IH]; intros s; simpl; [done|].
  destruct (windows s) as [|w ws]; [done|].
  change (set_windows ws (set_sourceSubscriber b s))
    with (set_sourceSubscriber b (set_windows ws s)).
  by rewrite Hf, IH.
Qed.

Lemma closeWindow_source b w s :
  closeWindow w (set_sourceSubscriber b s) = set_sourceSubscriber b (closeWindow w s).
Proof.
  unfold closeWindow.
  change (set_windows ?ws (set_sourceSubscriber b s))
    with (set_sourceSubscriber b (set_windows ws s)).
  by rewrite subject_complete_source.
Qed.

(** With an empty registry the teardown of the source subscriber has nothing
    to cancel. *)
Lemma subscriber_error_source e s :
  sourceSubscriber s = false → subscriber s = true → windows s = [] →
  subscriber_error e (set_sourceSubscriber true s) = subscriber_error e s.
Proof.
  intros Hf Hs Hw. destruct s as [ws h b1 b2 b3 tr]. simpl in *. by subst.
Qed.

Lemma handleError_source e s :
  sourceSubscriber s = false → subscriber s = true →
  handleError e (set_sourceSubscriber true s) = handleError e s ∧
  stopped (handleError e s).
Proof.
  intros Hf Hs.
  destruct (drain_subscribers _ _ _ (terminal_op_subject_error e) s) as (H1 & _ & H3).
  split.
  - unfold handleError, drain.
    change (windows (set_sourceSubscriber true s)) with (windows s).
    rewrite drain_loop_source by apply subject_error_source.
    apply subscriber_error_source; [by rewrite <- Hf|by rewrite <- Hs|].
    apply (drain_windows _ _ _ (terminal_op_subject_error e)).
  - unfold handleError, subscriber_error. rewrite H1, Hs.
    apply stopped_unsubscribe_all.
Qed.

Lemma source_subscribe_presource s t : presource s t → source_subscribe s = t.
Proof.
  intros [Hf [[Hs ->]|[(Hs & _) ->]]]; unfold source_subscribe; by rewrite Hs.
Qed.

Lemma presource_stopped s : stopped s → presource s s.
Proof. intros Hs. split; [apply Hs|by right]. Qed.

Lemma presource_closing_signal w c s t :
  presource s t → presource (closing_signal w c s) (closing_signal w c t).
Proof.
  intros [Hf [[Hs ->]|[Hst ->]]].
  - unfold closing_signal.
    change (closing_live w (set_sourceSubscriber true s)) with (closing_live w s).
    destruct (closing_live w s); [|by split; [|left]].
    destruct (closeWindow_subscribers w s) as (C1 & _ & C3).
    destruct c.
    + rewrite closeWindow_source. split; [by rewrite C3|left].
      split; [by rewrite C1|done].
    + destruct (handleError_source e s Hf Hs) as [E Hstop].
      cbv zeta. rewrite E. apply presource_stopped. by apply stopped_alter_stop.
    + cbv zeta. rewrite closeWindow_source. split.
      { change (sourceSubscriber (closeWindow w s) = false). by rewrite C3. }
      left. split; [|done].
      change (subscriber (closeWindow w s) = true). by rewrite C1.
  - unfold closing_signal. destruct Hst as (H1 & H2 & H3 & H4). rewrite H4.
    by apply presource_stopped.
Qed.

Lemma presource_closing_signals w sync s t :
  presource s t →
  presource (foldl (λ s' c, closing_signal w c s') s sync)
            (foldl (λ s' c, closing_signal w c s') t sync).
Proof.
  revert s t. induction sync as [|c sync IH]; intros s t H; simpl; [done|].
  by apply IH, presource_closing_signal.
Qed.

Lemma presource_subscribe_closing w sync s :
  sourceSubscriber s = false → subscriber s = true →
  presource (subscribe_closing w sync s)
            (subscribe_closing w sync (set_sourceSubscriber true s)).
Proof.
  intros Hf Hs. unfold subscribe_closing. cbv zeta.
  change (emit (SubscribeClosing w)
            (set_heap (alter (set_closingSubscriber Subscribing) w
                         (heap (set_sourceSubscriber true s)))
               (set_sourceSubscriber true s)))
    with (set_sourceSubscriber true
            (emit (SubscribeClosing w)
               (set_heap (alter (set_closingSubscriber Subscribing) w (heap s)) s))).
  set (s1 := emit (SubscribeClosing w)
               (set_heap (alter (set_closingSubscriber Subscribing) w (heap s)) s)).
  assert (H1 : presource s1 (set_sourceSubscriber true s1)).
  { split; [done|left]. by split. }
  destruct (presource_closing_signals w sync _ _ H1) as [Hf2 [[Hs2 ->]|[Hst ->]]].
  - split; [done|left]. by split.
  - rewrite (stopped_closingSubscription_add w _ Hst). by apply presource_stopped.
Qed.

Lemma presource_open_window sel o s :
  sourceSubscriber s = false → subscriber s = true →
  presource (open_window sel o s) (open_window sel o (set_sourceSubscriber true s)).
Proof.
  intros Hf Hs. unfold open_window. cbv zeta.
  change (new_window o (set_sourceSubscriber true s))
    with (set_sourceSubscriber true (new_window o s)).
  change (length (heap (set_sourceSubscriber true s))) with (length (heap s)).
  destruct (sel o) as [e|sync].
  - destruct (handleError_source e (new_window o s)) as [E Hst]; [done..|].
    rewrite E. by apply presource_stopped.
  - unfold subscriber_next.
    change (subscriber (set_sourceSubscriber true (new_window o s))) with (subscriber s).
    change (subscriber (new_window o s)) with (subscriber s). rewrite Hs.
    change (emit (OutNext (length (heap s))) (set_sourceSubscriber true (new_window o s)))
      with (set_sourceSubscriber true (emit (OutNext (length (heap s))) (new_window o s))).
    by apply presource_subscribe_closing.
Qed.

Lemma presource_open_next sel o s t :
  presource s t →
  presource (handle_signal sel (OpenNext o) s) (handle_signal sel (OpenNext o) t).
Proof.
  intros [Hf [[Hs ->]|[Hst ->]]]; simpl.
  - change (openSubscriber (set_sourceSubscriber true s)) with (openSubscriber s).
    destruct (openSubscriber s); [by apply presource_open_window|].
    split; [done|left]. by split.
  - destruct Hst as (H1 & H2 & H3 & H4). rewrite H2. by apply presource_stopped.
Qed.

Lemma presource_open_complete sel s t :
  presource s t →
  presource (handle_signal sel OpenComplete s) (handle_signal sel OpenComplete t).
Proof.
  intros [Hf [[Hs ->]|[Hst ->]]]; simpl.
  - split; [done|left]. by split.
  - apply presource_stopped. by destruct Hst as (H1 & H2 & H3 & H4).
Qed.

(** How a property of the states between two callbacks is shown while the
    openings are being subscribed, with the source subscriber still missing:
    it holds when both subscriptions are set up and nothing was received, it
    is kept by what the openings callbacks do in a state whose source
    subscriber is live, and it is kept when the openings error while the
    source subscriber is missing. *)
Lemma subscribing_ind sel (P : State → Prop) :
  P ready →
  (∀ o t, P t → P (handle_signal sel (OpenNext o) t)) →
  (∀ t, P t → P (handle_signal sel OpenComplete t)) →
  (∀ e t, subscriber t = true → openSubscriber t = true → sourceSubscriber t = true →
     P t → P (subscriber_error e (set_sourceSubscriber false t))) →
  ∀ sync, ∃ t,
    presource (foldl (λ s n, handle_signal sel (opening_signal n) s) init sync) t ∧
    P t.
Proof.
  intros Hready Hnext Hcomplete Herror sync.
  assert (H0 : presource init ready) by (split; [done|left; by split]).
  revert H0 Hready. generalize init ready.
  induction sync as [|n sync IH]; intros s t Hst HP; simpl.
  - by exists t.
  - destruct n as [o|e|].
    + apply (IH _ (handle_signal sel (OpenNext o) t));
        [by apply presource_open_next|by apply Hnext].
    + destruct Hst as [Hf [[Hs ->]|[Hstop ->]]].
      * simpl. destruct (openSubscriber s) eqn:Hop.
        -- assert (E : s = set_sourceSubscriber false (set_sourceSubscriber true s)).
           { destruct s. simpl in *. by subst. }
           apply (IH _ (subscriber_error e s)).
           ++ apply presource_stopped. unfold subscriber_error. rewrite Hs.
              apply stopped_unsubscribe_all.
           ++ rewrite E at 1. by apply Herror.
        -- apply (IH _ (set_sourceSubscriber true s)); [|done].
           split; [done|left]. by split.
      * simpl. destruct Hstop as (H1 & H2 & H3 & H4). rewrite H2.
        apply (IH _ s); [|done]. by apply presource_stopped.
    + apply (IH _ (handle_signal sel OpenComplete t));
        [by apply presource_open_complete|by apply Hcomplete].
Qed.

(** The same for the state in which the subscription of the output returns. *)
Lemma subscribe_ind sel (P : State → Prop) :
  P ready →
  (∀ o t, P t → P (handle_signal sel (OpenNext o) t)) →
  (∀ t, P t → P (handle_signal sel OpenComplete t)) →
  (∀ e t, subscriber t = true → openSubscriber t = true → sourceSubscriber t = true →
     P t → P (subscriber_error e (set_sourceSubscriber false t))) →
  (∀ err, P (subscribe sel (Uncoercible err))) →
  ∀ openings, P (subscribe sel openings).
Proof.
  intros Hready Hnext Hcomplete Herror Hfail [err|sync]; [apply Hfail|].
  destruct (subscribing_ind sel P Hready Hnext Hcomplete Herror sync) as (t & Hpre & HP).
  unfold subscribe. by rewrite (source_subscribe_presource _ _ Hpre).
Qed.

(** The error of the openings while the source subscriber is missing: the
    output errors, every subscriber is stopped, and the registry and the
    windows are left as they are. *)
Lemma early_error_state e t :
  subscriber t = true →
  subscriber_error e (set_sourceSubscriber false t)
  = mkState (windows t) (set_closingSubscriber Stopped <$> heap t) false false false
      (trace t ++ [OutError e]).
Proof.
  intros Hs. unfold subscriber_error. simpl. rewrite Hs.
  by unfold unsubscribe_all, source_unsubscribe.
Qed.

Lemma is_open_stop_all w s s' :
  heap s' = set_closingSubscriber Stopped <$> heap s → is_open w s' = is_open w s.
Proof.
  intros E. apply is_open_ext. unfold window_state. rewrite E, list_lookup_fmap.
  by destruct (heap s !! w).
Qed.

Lemma wf_early_error e t :
  wf t → subscriber t = true → wf (subscriber_error e (set_sourceSubscriber false t)).
Proof.
  intros Hwf Hs. rewrite early_error_state by done.
  assert (Ho : ∀ w, is_open w (mkState (windows t)
                 (set_closingSubscriber Stopped <$> heap t) false false false
                 (trace t ++ [OutError e])) = is_open w t).
  { intros w. by apply is_open_stop_all. }
  split; simpl.
  - apply Hwf.
  - intros w. rewrite Ho. apply Hwf.
  - done.
  - done.
  - intros w. rewrite length_fmap, elem_of_app, list_elem_of_singleton.
    rewrite <- (wf_register t Hwf w). split; [by intros [?|?]|by left].
  - intros w. rewrite Ho. intros H. apply elem_of_app. left. by apply Hwf.
  - apply ordered_snoc; [apply Hwf|done].
Qed.

(** ** Source completion and source error *)

(** C3.  When the source completes, every window still in the registry gets
    a normal completion, oldest first, the registry ends up empty, and then
    the output completes: the trace grows by one [WinComplete] per registered
    window, in registry order, followed by [OutComplete], and by nothing else,
    so no error is signalled to a window or to the output. *)
Theorem source_complete_drains sel react s :
  wf s → sourceSubscriber s = true →
  let s' := handle sel react (Sig SrcComplete) s in
  trace s' = trace s ++ (WinComplete <$> windows s) ++ [OutComplete] ∧
  windows s' = [] ∧
  (∀ w, w ∈ windows s → window_state w s' = Some Completed) ∧
  (∀ w e, WinError w e ∉ (WinComplete <$> windows s) ++ [OutComplete]) ∧
  (∀ e, OutError e ∉ (WinComplete <$> windows s) ++ [OutComplete]).
Proof.
  intros Hwf Hsrc. simpl. rewrite Hsrc. unfold subscriber_complete.
  destruct (drain_subscribers _ _ _ terminal_op_subject_complete s) as (-> & _ & _).
  rewrite <- (wf_source s Hwf), Hsrc.
  destruct (drain_then_stop subject_complete WinComplete Completed OutComplete s)
    as (Ht & Hws & Hst & _);
    [apply terminal_op_subject_complete|apply Hwf| |done|].
  { intros w. apply (wf_registry s Hwf). }
  repeat split; try done.
  - intros w e [H|H]%elem_of_app.
    + apply list_elem_of_fmap in H as (? & ? & _). done.
    + by apply list_elem_of_singleton in H.
  - intros e [H|H]%elem_of_app.
    + apply list_elem_of_fmap in H as (? & ? & _). done.
    + by apply list_elem_of_singleton in H.
Qed.

(** C4.  When the source errors with [e], every window still in the registry
    gets that same error, oldest first, the registry ends up empty, and then
    the output errors with [e]. *)
Theorem source_error_drains sel react e s :
  wf s → sourceSubscriber s = true →
  let s' := handle sel react (Sig (SrcError e)) s in
  trace s' = trace s ++ ((λ w, WinError w e) <$> windows s) ++ [OutError e] ∧
  windows s' = [] ∧
  (∀ w, w ∈ windows s → window_state w s' = Some (Errored e)).
Proof.
  intros Hwf Hsrc. simpl. rewrite Hsrc. unfold handleError, subscriber_error.
  destruct (drain_subscribers _ _ _ (terminal_op_subject_error e) s) as (-> & _ & _).
  rewrite <- (wf_source s Hwf), Hsrc.
  destruct (drain_then_stop (subject_error e) (λ w, WinError w e) (Errored e)
              (OutError e) s) as (Ht & Hws & Hst & _);
    [apply terminal_op_subject_error|apply Hwf| |done|].
  { intros w. apply (wf_registry s Hwf). }
  done.
Qed.

(** ** A closing selector that throws *)

Lemma ordered_emitted_registered tr w :
  ordered tr → OutNext w ∈ tr → Register w ∈ tr.
Proof.
  intros Hord (pre & post & ->)%list_elem_of_split.
  apply elem_of_app. left. by eapply Hord.
Qed.

Lemma wf_fresh_not_emitted s : wf s → OutNext (length (heap s)) ∉ trace s.
Proof.
  intros Hwf H. apply ordered_emitted_registered in H; [|apply Hwf].
  apply (wf_register s Hwf) in H. lia.
Qed.

(** C7.  If the closing selector throws [e] for an opening value, the window
    just created for it is registered, is never emitted downstream, gets the
    error [e] together with every other registered window, and is removed
    from the registry, which ends up empty; then the output errors with
    [e]. *)
Theorem selector_throw_drains sel react o e s :
  wf s → openSubscriber s = true → sel o = Throws e →
  let w := length (heap s) in
  let s' := handle sel react (Sig (OpenNext o)) s in
  trace s' = trace s ++ [Register w]
               ++ ((λ w', WinError w' e) <$> (windows s ++ [w])) ++ [OutError e] ∧
  (OutNext w ∉ trace s') ∧
  windows s' = [] ∧
  window_state w s' = Some (Errored e) ∧
  (∀ w', w' ∈ windows s → window_state w' s' = Some (Errored e)).
Proof.
  intros Hwf Hop Hsel w s'.
  pose proof (wf_openings s Hwf Hop) as Hsub.
  assert (Es' : s' = unsubscribe_all
    (emit (OutError e) (drain (subject_error e) (new_window o s)))).
  { unfold s'. simpl. rewrite Hop. unfold open_window. rewrite Hsel.
    unfold handleError, subscriber_error.
    destruct (drain_subscribers _ _ _ (terminal_op_subject_error e)
      (new_window o s)) as (-> & _ & _).
    simpl. by rewrite Hsub. }
  destruct (drain_then_stop (subject_error e) (λ w, WinError w e) (Errored e)
              (OutError e) (new_window o s)) as (Ht & Hws & Hst & _).
  - apply terminal_op_subject_error.
  - simpl. apply NoDup_app. split; [apply Hwf|]. split; [|apply NoDup_singleton].
    intros w' Hw' ->%list_elem_of_singleton. by eapply wf_open_fresh.
  - intros w' Hw'. apply new_window_is_open. simpl in Hw'.
    apply elem_of_app in Hw' as [Hw'|Hw'].
    + right. by apply Hwf.
    + left. by apply list_elem_of_singleton in Hw'.
  - simpl. by rewrite (wf_source s Hwf).
  - rewrite <- Es' in Ht, Hws, Hst. simpl in Ht, Hst.
    assert (Et : trace s' = trace s ++ [Register w]
      ++ ((λ w', WinError w' e) <$> (windows s ++ [w])) ++ [OutError e]).
    { rewrite Ht. by rewrite <- app_assoc. }
    split; [done|]. split; [|split; [done|split]].
    + rewrite Et. intros H.
      apply elem_of_app in H as [H|H]; [by apply (wf_fresh_not_emitted s Hwf)|].
      apply elem_of_app in H as [H|H]; [by apply list_elem_of_singleton in H|].
      apply elem_of_app in H as [H|H].
      * apply list_elem_of_fmap in H as (? & ? & _). done.
      * by apply list_elem_of_singleton in H.
    + apply Hst. apply elem_of_app. right. by apply list_elem_of_singleton.
    + intros w' Hw'. apply Hst. apply elem_of_app. by left.
Qed.

(** ** Cancellation of the output *)


(** ** Registration, emission and the closing subscription *)

Lemma wf_uncoercible sel err : wf (subscribe sel (Uncoercible err)).
Proof.
  split; simpl; try done.
  - constructor.
  - intros w. split; [by intros ?%elem_of_nil|].
    intros H%is_open_lt. simpl in H. lia.
  - intros w. rewrite list_elem_of_singleton. split; [done|lia].
  - apply (ordered_snoc []); [apply ordered_nil|done].
Qed.

Lemma wf_subscribe sel openings : wf (subscribe sel openings).
Proof.
  apply subscribe_ind.
  - apply wf_ready.
  - intros o t. apply wf_handle_signal.
  - intros t. apply wf_handle_signal.
  - intros e t Hs _ _ Hwf. by apply wf_early_error.
  - apply wf_uncoercible.
Qed.

(** C6.  In every run, under any closing selector and any consumers, a
    window is pushed on the registry before it is emitted on the output, and
    it is emitted before its closing notifier is subscribed.  Hence whatever
    closes it, a completion, an error or a cancellation, comes after its
    registration, and a completion, which is what a closing notifier firing
    during its own subscription causes, comes after the emission. *)
Theorem registered_emitted_subscribed sel react openings ins w :
  let tr := trace (run sel react ins (subscribe sel openings)) in
  precedes (Register w) (OutNext w) tr ∧
  precedes (OutNext w) (SubscribeClosing w) tr ∧
  precedes (OutNext w) (WinComplete w) tr ∧
  (∀ e, precedes (Register w) (WinError w e) tr) ∧
  precedes (Register w) (WinCancel w) tr.
Proof.
  intros tr.
  assert (Hord : ordered tr) by apply wf_run, wf_subscribe.
  repeat split; intros; by apply ordered_precedes.
Qed.

(** ** An error of the openings stream *)

(** What the code does when the openings stream errors: the openings
    subscriber has no error callback, so the error goes to
    [subscriber.error] at once, and the teardown of the source subscriber
    then cancels the windows. *)
Lemma openings_error_effect sel react e s :
  wf s → openSubscriber s = true →
  let s' := handle sel react (Sig (OpenError e)) s in
  trace s' = trace s ++ [OutError e] ++ (WinCancel <$> windows s) ∧
  ∀ w, w ∈ windows s → window_state w s' = Some Cancelled.
Proof.
  intros Hwf Hop. simpl. rewrite Hop. unfold subscriber_error.
  rewrite (wf_openings s Hwf Hop).
  destruct (unsubscribe_all_effect (emit (OutError e) s)) as [Ht Hst].
  - simpl. rewrite (wf_source s Hwf). by apply Hwf.
  - apply Hwf.
  - intros w. apply (wf_registry s Hwf).
  - split; [|done]. rewrite Ht. simpl. by rewrite <- app_assoc.
Qed.

(** C5 on the code.  One window is open when the openings stream errors with
    [UserError 1]: the output errors first and the window is cancelled; it
    never gets the error, and [handleError] does not run. *)
Theorem openings_error_cancels_window :
  let s := run silent quiet [Sig (OpenNext 0); Sig (OpenError (UserError 1))] ready in
  trace s = [Register 0; OutNext 0; SubscribeClosing 0;
             OutError (UserError 1); WinCancel 0] ∧
  window_state 0 s = Some Cancelled ∧
  WinError 0 (UserError 1) ∉ trace s.
Proof.
  repeat split. intros H. repeat (apply elem_of_cons in H as [H|H]; [done|]).
  by apply elem_of_nil in H.
Qed.

(** ** Windows emitted downstream *)

Lemma omap_none {A B} (f : A → option B) (P : A → Prop) l :
  (∀ x, P x → f x = None) → Forall P l → omap f l = [].
Proof.
  intros Hf. induction 1 as [|x l Hx _ IH]; simpl; [done|].
  by rewrite (Hf x Hx).
Qed.

Lemma closes_delivered c s s' w :
  closes c s s' → delivered w (trace s') = delivered w (trace s).
Proof.
  intros [_ _ _ (Δ & -> & HΔ)]. unfold delivered. rewrite omap_app.
  erewrite (omap_none _ _ Δ); [by rewrite app_nil_r| |exact HΔ].
  by intros [].
Qed.

Lemma closes_emitted c s s' :
  closes c s s' → emitted (trace s') = emitted (trace s).
Proof.
  intros [_ _ _ (Δ & -> & HΔ)]. unfold emitted. rewrite omap_app.
  erewrite (omap_none _ _ Δ); [by rewrite app_nil_r| |exact HΔ].
  by intros [].
Qed.

Lemma closes_closing_signals w sync s :
  closes true s (foldl (λ s' c, closing_signal w c s') s sync).
Proof.
  revert s. induction sync as [|c sync IH]; intros s; simpl; [apply closes_refl|].
  eapply closes_trans; [apply closes_closing_signal|apply IH].
Qed.

(** Subscribing the closing notifier adds [SubscribeClosing] to the trace and
    then only closes. *)
Lemma subscribe_closing_closes w sync s :
  closes true (emit (SubscribeClosing w) s) (subscribe_closing w sync s).
Proof.
  unfold subscribe_closing.
  eapply closes_trans;
    [|apply closes_alter_closing;
       [apply closingSubscription_add_window|apply closingSubscription_add_openValue]].
  eapply closes_trans; [|apply closes_closing_signals].
  apply closes_frame; [| |done..].
  - unfold opened. simpl. by apply opened_alter.
  - intros w'. unfold window_state. simpl. by apply window_state_alter_closing.
Qed.

Lemma windows_due_snoc sel w os o :
  windows_due sel w (os ++ [o]) =
  windows_due sel w os ++ (if throws (sel o) then [] else [w + length os]).
Proof.
  revert w. induction os as [|o' os IH]; intros w; simpl.
  - by rewrite app_nil_r, Nat.add_0_r.
  - rewrite IH, <- app_assoc. do 2 f_equal.
    by replace (S w + length os) with (w + S (length os)) by lia.
Qed.

Lemma due_closes sel c s s' : closes c s s' → due sel s → due sel s'.
Proof.
  intros Hc Hd. unfold due.
  by rewrite (closes_emitted c s s' Hc), (closes_opened c s s' Hc).
Qed.

Section Due.

Variable closingSelector : OpenVal → SelectorResult.
Variable react : WinId → Value → list Signal.

Lemma due_open_window o s :
  wf s → openSubscriber s = true → due closingSelector s →
  due closingSelector (open_window closingSelector o s).
Proof.
  intros Hwf Hop Hd. pose proof (wf_openings s Hwf Hop) as Hsub.
  assert (Hlen : length (opened s) = length (heap s)).
  { unfold opened. apply length_fmap. }
  unfold open_window, due.
  destruct (closingSelector o) as [e|sync] eqn:Hsel.
  - rewrite (closes_emitted false _ _ (closes_handleError false e _)).
    rewrite (closes_opened false _ _ (closes_handleError false e _)).
    unfold opened, emitted. simpl. rewrite omap_app, fmap_app. simpl.
    rewrite windows_due_snoc, Hsel. simpl. rewrite !app_nil_r. exact Hd.
  - unfold subscriber_next.
    change (subscriber (new_window o s)) with (subscriber s). rewrite Hsub.
    rewrite (closes_emitted true _ _ (subscribe_closing_closes _ sync _)).
    rewrite (closes_opened true _ _ (subscribe_closing_closes _ sync _)).
    unfold opened, emitted. simpl. rewrite !omap_app, fmap_app. simpl.
    rewrite windows_due_snoc, Hsel. simpl. rewrite !app_nil_r.
    f_equal; [exact Hd|]. by rewrite length_fmap.
Qed.

Lemma closes_handle_signal g s :
  (∀ o, g ≠ OpenNext o) → closes true s (handle_signal closingSelector g s).
Proof.
  intros Hg. destruct g; simpl.
  - by destruct (Hg o).
  - destruct (openSubscriber s); [apply closes_subscriber_error|apply closes_refl].
  - by apply closes_frame.
  - destruct (sourceSubscriber s); [apply closes_handleError|apply closes_refl].
  - destruct (sourceSubscriber s); [|apply closes_refl].
    eapply closes_trans; [|apply closes_subscriber_complete].
    apply closes_drain. intros. apply closes_subject_complete.
  - apply closes_closing_signal.
  - apply closes_subscriber_unsubscribe.
Qed.

Lemma due_handle_signal g s :
  wf s → due closingSelector s → due closingSelector (handle_signal closingSelector g s).
Proof.
  intros Hwf Hd.
  assert (Hg : (∃ o, g = OpenNext o) ∨ ∀ o, g ≠ OpenNext o).
  { destruct g; try (by right); left; by eexists. }
  destruct Hg as [[o ->]|Hg].
  - simpl. destruct (openSubscriber s) eqn:E; [by apply due_open_window|done].
  - eapply due_closes; [|done]. by apply closes_handle_signal.
Qed.

Lemma due_handle_signals gs s :
  wf s → due closingSelector s →
  due closingSelector (foldl (λ s' g, handle_signal closingSelector g s') s gs).
Proof.
  revert s. induction gs as [|g gs IH]; intros s Hwf Hd; simpl; [done|].
  apply IH; [by apply wf_handle_signal|by apply due_handle_signal].
Qed.

Lemma due_deliver v w s :
  wf s → due closingSelector s → due closingSelector (deliver closingSelector react v w s).
Proof.
  intros Hwf Hd. unfold deliver. destruct (is_open w s) eqn:E; [|done].
  apply due_handle_signals; [by apply wf_subject_next|].
  unfold subject_next, due, emitted. rewrite E. simpl. rewrite omap_app. simpl.
  by rewrite app_nil_r.
Qed.

Lemma due_fanout v ws s :
  wf s → due closingSelector s → due closingSelector (fanout closingSelector react v ws s).
Proof.
  revert s. induction ws as [|w ws IH]; intros s Hwf Hd; simpl; [done|].
  apply IH; [by apply wf_deliver|by apply due_deliver].
Qed.

Lemma due_run ins s :
  wf s → due closingSelector s → due closingSelector (run closingSelector react ins s).
Proof.
  revert s. induction ins as [|i ins IH]; intros s Hwf Hd; simpl; [done|].
  apply IH; [by apply wf_handle|]. destruct i as [g|v]; simpl.
  - by apply due_handle_signal.
  - destruct (sourceSubscriber s); [by apply due_fanout|done].
Qed.

End Due.

(** ** Windows never reopen *)

Lemma ages_refl s : ages s s.
Proof. split; [done|]. intros w. by left. Qed.

Lemma ages_trans s1 s2 s3 : ages s1 s2 → ages s2 s3 → ages s1 s3.
Proof.
  intros [L1 H1] [L2 H2]. split; [lia|].
  intros w [H|H]%H2; [by apply H1|right; lia].
Qed.

Lemma closes_ages c s s' : closes c s s' → ages s s'.
Proof.
  intros Hc. split; [by rewrite (closes_length c s s' Hc)|].
  intros w H. left. by apply (closes_open c s s' Hc).
Qed.

Lemma ages_new_window o s : ages s (new_window o s).
Proof.
  split; [simpl; rewrite length_app; lia|].
  intros w [->|H]%new_window_is_open; [by right|by left].
Qed.

Lemma ages_emit e s : ages s (emit e s).
Proof. split; [simpl; lia|]. intros w. by left. Qed.

Lemma ages_closed s s' w :
  ages s s' → w < length (heap s) → is_open w s = false → is_open w s' = false.
Proof.
  intros [_ H] Hlt Hcl. apply not_true_is_false. intros [Ho|Ho]%H; [congruence|lia].
Qed.

Lemma ages_lt s s' w : ages s s' → w < length (heap s) → w < length (heap s').
Proof. intros [H _] ?. lia. Qed.

Lemma delivered_emit w e s :
  delivered w (trace (emit e s)) = delivered w (trace s) ++ delivered w [e].
Proof. unfold delivered. simpl. by rewrite omap_app. Qed.

Lemma delivered_none w tr : (∀ v, WinNext w v ∉ tr) → delivered w tr = [].
Proof.
  induction tr as [|e tr IH]; intros H; simpl; [done|].
  destruct e as [| | | | |w' v| | |];
    try (apply IH; intros v Hv; apply (H v); by right).
  case_decide as E.
  - subst. destruct (H v). by left.
  - apply IH. intros v' Hv. apply (H v'). by right.
Qed.

(** Nothing was ever delivered to a window that does not exist yet. *)
Lemma delivered_fresh w s : wf s → length (heap s) ≤ w → delivered w (trace s) = [].
Proof.
  intros Hwf Hw. apply delivered_none. intros v Hv.
  apply list_elem_of_split in Hv as (pre & post & E).
  assert (Hout : OutNext w ∈ trace s).
  { rewrite E. apply elem_of_app. left.
    by eapply (wf_ordered s Hwf pre (WinNext w v) post). }
  apply ordered_emitted_registered in Hout; [|apply Hwf].
  apply (wf_register s Hwf) in Hout. lia.
Qed.

Section Deliveries.

Variable closingSelector : OpenVal → SelectorResult.
Variable react : WinId → Value → list Signal.

Lemma open_window_ages_delivered o s :
  ages s (open_window closingSelector o s) ∧
  ∀ w, delivered w (trace (open_window closingSelector o s)) = delivered w (trace s).
Proof.
  unfold open_window. destruct (closingSelector o) as [e|sync].
  - split.
    + eapply ages_trans; [apply ages_new_window|].
      eapply closes_ages, (closes_handleError false).
    + intros w. rewrite (closes_delivered false _ _ w (closes_handleError false e _)).
      unfold new_window. rewrite delivered_emit. simpl. by rewrite app_nil_r.
  - set (s1 := subscriber_next (length (heap s)) (new_window o s)).
    assert (H1 : ages s s1 ∧ ∀ w, delivered w (trace s1) = delivered w (trace s)).
    { unfold s1, subscriber_next. destruct (subscriber (new_window o s)).
      - split.
        + eapply ages_trans; [apply ages_new_window|apply ages_emit].
        + intros w. rewrite delivered_emit. unfold new_window.
          rewrite delivered_emit. simpl. by rewrite !app_nil_r.
      - split; [apply ages_new_window|].
        intros w. unfold new_window. rewrite delivered_emit. simpl.
        by rewrite app_nil_r. }
    destruct H1 as [Ha Hd]. split.
    + eapply ages_trans; [exact Ha|].
      eapply ages_trans; [|eapply closes_ages, subscribe_closing_closes].
      apply ages_emit.
    + intros w.
      rewrite (closes_delivered true _ _ w (subscribe_closing_closes _ sync s1)).
      rewrite delivered_emit. simpl. by rewrite app_nil_r.
Qed.

Lemma handle_signal_ages_delivered g s :
  ages s (handle_signal closingSelector g s) ∧
  ∀ w, delivered w (trace (handle_signal closingSelector g s)) = delivered w (trace s).
Proof.
  assert (Hg : (∃ o, g = OpenNext o) ∨ ∀ o, g ≠ OpenNext o).
  { destruct g; try (by right); left; by eexists. }
  destruct Hg as [[o ->]|Hg].
  - simpl. destruct (openSubscriber s); [apply open_window_ages_delivered|].
    split; [apply ages_refl|done].
  - pose proof (closes_handle_signal closingSelector g s Hg) as Hc. split.
    + by eapply closes_ages.
    + intros w. by eapply closes_delivered.
Qed.

Lemma handle_signals_ages_delivered gs s :
  ages s (foldl (λ s' g, handle_signal closingSelector g s') s gs) ∧
  ∀ w, delivered w (trace (foldl (λ s' g, handle_signal closingSelector g s') s gs))
       = delivered w (trace s).
Proof.
  revert s. induction gs as [|g gs IH]; intros s; simpl.
  - split; [apply ages_refl|done].
  - destruct (handle_signal_ages_delivered g s) as [Ha Hd].
    destruct (IH (handle_signal closingSelector g s)) as [Ha' Hd']. split.
    + by eapply ages_trans.
    + intros w. by rewrite Hd', Hd.
Qed.

Lemma deliver_ages v w s : ages s (deliver closingSelector react v w s).
Proof.
  unfold deliver, subject_next. destruct (is_open w s); [|apply ages_refl].
  eapply ages_trans; [|apply handle_signals_ages_delivered].
  apply ages_emit.
Qed.

Lemma deliver_delivered v w w' s :
  delivered w' (trace (deliver closingSelector react v w s)) =
  delivered w' (trace s) ++
    (if is_open w s then if decide (w = w') then [v] else [] else []).
Proof.
  unfold deliver, subject_next. destruct (is_open w s); [|by rewrite app_nil_r].
  destruct (handle_signals_ages_delivered (react w v) (emit (WinNext w v) s))
    as [_ ->].
  rewrite delivered_emit. f_equal. simpl. by destruct (decide (w = w')).
Qed.

Lemma fanout_ages v ws s : ages s (fanout closingSelector react v ws s).
Proof.
  revert s. induction ws as [|w ws IH]; intros s; simpl; [apply ages_refl|].
  eapply ages_trans; [apply deliver_ages|apply IH].
Qed.

Lemma fanout_app v ws1 ws2 s :
  fanout closingSelector react v (ws1 ++ ws2) s =
  fanout closingSelector react v ws2 (fanout closingSelector react v ws1 s).
Proof.
  revert s. induction ws1 as [|w ws1 IH]; intros s; simpl; [done|]. apply IH.
Qed.

(** The fan-out delivers to the windows of the copy only. *)
Lemma fanout_delivered_other v ws w s :
  w ∉ ws →
  delivered w (trace (fanout closingSelector react v ws s)) = delivered w (trace s).
Proof.
  revert s. induction ws as [|w' ws IH]; intros s Hw; simpl; [done|].
  apply not_elem_of_cons in Hw as [Hne Hw].
  rewrite IH, deliver_delivered by done.
  destruct (is_open w' s); [|by rewrite app_nil_r].
  rewrite decide_False by done. by rewrite app_nil_r.
Qed.

(** A window that is closed gets nothing, whether or not it is in the copy. *)
Lemma fanout_delivered_closed v ws w s :
  w < length (heap s) → is_open w s = false →
  delivered w (trace (fanout closingSelector react v ws s)) = delivered w (trace s).
Proof.
  revert s. induction ws as [|w' ws IH]; intros s Hlt Hcl; simpl; [done|].
  rewrite IH.
  - rewrite deliver_delivered. destruct (is_open w' s) eqn:E; [|by rewrite app_nil_r].
    case_decide; [congruence|by rewrite app_nil_r].
  - eapply ages_lt; [apply deliver_ages|done].
  - eapply ages_closed; [apply deliver_ages|done..].
Qed.

Lemma handle_ages i s : ages s (handle closingSelector react i s).
Proof.
  destruct i as [g|v]; simpl; [apply handle_signal_ages_delivered|].
  destruct (sourceSubscriber s); [apply fanout_ages|apply ages_refl].
Qed.

(** Once a window is closed, no input delivers anything to it. *)
Lemma run_delivered_closed ins w s :
  w < length (heap s) → is_open w s = false →
  delivered w (trace (run closingSelector react ins s)) = delivered w (trace s).
Proof.
  revert s. induction ins as [|i ins IH]; intros s Hlt Hcl; simpl; [done|].
  rewrite IH.
  - destruct i as [g|v]; simpl; [apply handle_signal_ages_delivered|].
    destruct (sourceSubscriber s); [by apply fanout_delivered_closed|done].
  - eapply ages_lt; [apply handle_ages|done].
  - eapply ages_closed; [apply handle_ages|done..].
Qed.

(** The fan-out of one value, window by window. *)
Lemma fanout_delivered v s :
  wf s →
  (∀ w, w ∉ windows s →
     delivered w (trace (fanout closingSelector react v (windows s) s))
     = delivered w (trace s)) ∧
  (∀ w, length (heap s) ≤ w →
     delivered w (trace (fanout closingSelector react v (windows s) s)) = []) ∧
  (∀ pre w post, windows s = pre ++ w :: post →
     delivered w (trace (fanout closingSelector react v (windows s) s))
     = delivered w (trace s) ++
       (if bool_decide (w ∈ windows (fanout closingSelector react v pre s))
        then [v] else [])).
Proof.
  intros Hwf. split; [|split].
  - intros w Hw. by apply fanout_delivered_other.
  - intros w Hw. rewrite fanout_delivered_other; [by apply delivered_fresh|].
    intros Hin%(wf_registry s Hwf)%is_open_lt. lia.
  - intros pre w post E. pose proof (wf_nodup s Hwf) as Hnd. rewrite E in Hnd |- *.
    apply NoDup_app in Hnd as (_ & Hpre & Hnd).
    apply NoDup_cons in Hnd as [Hpost _].
    rewrite fanout_app. simpl.
    rewrite fanout_delivered_other by done.
    rewrite deliver_delivered, decide_True by done.
    rewrite fanout_delivered_other.
    + f_equal.
      pose proof (wf_registry _ (wf_fanout closingSelector react v pre s Hwf) w) as Hreg.
      destruct (is_open w (fanout closingSelector react v pre s)) eqn:Ho.
      * by rewrite bool_decide_eq_true_2 by by apply Hreg.
      * rewrite bool_decide_eq_false_2; [done|]. intros H%Hreg. congruence.
    + intros H. apply (Hpre w H). by left.
Qed.

End Deliveries.

(** C9 does not hold as stated.  Windows 0 and 1 are open when the value 7
    arrives, so both are in the copy; the consumer of window 0 closes
    window 1 during the fan-out; window 1 is removed and completed, and does
    not receive 7 although it was in the copy. *)
Lemma removed_window_misses_value :
  let s := run silent closing_other [Sig (OpenNext 0); Sig (OpenNext 0)] ready in
  let s' := handle silent closing_other (SrcNext 7) s in
  windows s = [0; 1] ∧ windows s' = [0] ∧
  window_state 1 s' = Some Completed ∧
  7 ∉ delivered 1 (trace s').
Proof. repeat split. by intros ?%elem_of_nil. Qed.

(** C9, amended.  The fan-out of a source value runs over the copy of the
    registry taken when the value arrives.  A window outside the copy gets
    nothing from it, and a window registered during the fan-out gets nothing
    at all.  A window of the copy gets the value exactly when it is still
    registered at its turn, that is after the fan-out to the windows before
    it and the reactions of their consumers: a window removed before its turn
    was closed by that removal and misses the value. *)
Theorem fanout_snapshot sel react v s :
  wf s → sourceSubscriber s = true →
  let s' := handle sel react (SrcNext v) s in
  (∀ w, w ∉ windows s → delivered w (trace s') = delivered w (trace s)) ∧
  (∀ w, length (heap s) ≤ w → delivered w (trace s') = []) ∧
  (∀ pre w post, windows s = pre ++ w :: post →
     delivered w (trace s') = delivered w (trace s) ++
       (if bool_decide (w ∈ windows (fanout sel react v pre s)) then [v] else [])).
Proof.
  intros Hwf Hsrc. simpl. rewrite Hsrc. by apply fanout_delivered.
Qed.

(** ** One window between its opening and its close *)

Lemma keeps_refl w s : keeps w s s.
Proof. done. Qed.

Lemma keeps_trans w s1 s2 s3 : keeps w s1 s2 → keeps w s2 s3 → keeps w s1 s3.
Proof. intros (A1 & B1 & C1) (A2 & B2 & C2). repeat split; [congruence..|auto]. Qed.

Lemma keeps_open_at w s s' : open_at w s → keeps w s s' → wf s' → open_at w s'.
Proof.
  intros [H1 H2 H3 H4] (A & B & C) Hwf. split; [done|congruence|auto|].
  unfold closing_live in *. by rewrite B.
Qed.

Lemma closing_state_alter_ne f (w w' : nat) s :
  w ≠ w' → closing_state w (set_heap (alter f w' (heap s)) s) = closing_state w s.
Proof. intros Hne. unfold closing_state. simpl. by rewrite list_lookup_alter_ne. Qed.

Lemma keeps_alter f (w w' : nat) s :
  w ≠ w' → keeps w s (set_heap (alter f w' (heap s)) s).
Proof. intros Hne. repeat split; [|done]. by apply closing_state_alter_ne. Qed.

Lemma keeps_closeWindow w w' s :
  NoDup (windows s) → w ≠ w' → keeps w s (closeWindow w' s).
Proof.
  intros Hnd Hne. destruct (closeWindow_subscribers w' s) as (_ & _ & E).
  repeat split; [done| |].
  - unfold closeWindow. rewrite closing_state_alter_ne by done.
    by rewrite (top_closing _ _ _ terminal_op_subject_complete).
  - intros Hw. rewrite closeWindow_windows. by apply arrRemove_elem_of.
Qed.

Lemma keeps_closing_signal w w' c s :
  wf s → w ≠ w' → no_error c = true → keeps w s (closing_signal w' c s).
Proof.
  intros Hwf Hne Hc. unfold closing_signal.
  destruct (closing_live w' s); [|apply keeps_refl].
  destruct c; [|done|].
  - apply keeps_closeWindow; [apply Hwf|done].
  - eapply keeps_trans; [apply keeps_closeWindow; [apply Hwf|done]|].
    by apply keeps_alter.
Qed.

Lemma keeps_closing_signals w w' sync s :
  wf s → w ≠ w' → forallb no_error sync = true →
  keeps w s (foldl (λ s' c, closing_signal w' c s') s sync).
Proof.
  revert s. induction sync as [|c sync IH]; intros s Hwf Hne Hs; simpl;
    [apply keeps_refl|].
  simpl in Hs. apply andb_prop in Hs as [Hc Hs].
  eapply keeps_trans; [by apply keeps_closing_signal|].
  apply IH; [by apply wf_closing_signal|done..].
Qed.

Lemma keeps_subscribe_closing w w' sync s :
  wf s → OutNext w' ∈ trace s → w ≠ w' → forallb no_error sync = true →
  keeps w s (subscribe_closing w' sync s).
Proof.
  intros Hwf Hout Hne Hs. unfold subscribe_closing.
  set (s1 := emit (SubscribeClosing w')
               (set_heap (alter (set_closingSubscriber Subscribing) w' (heap s)) s)).
  assert (H1 : keeps w s s1).
  { repeat split; [|done]. by apply (closing_state_alter_ne _ w w'). }
  assert (Hwf1 : wf s1).
  { apply (wf_emit_subscribe w'
      (set_heap (alter (set_closingSubscriber Subscribing) w' (heap s)) s));
      [by apply wf_alter_closing|done]. }
  eapply keeps_trans; [|by apply keeps_alter].
  eapply keeps_trans; [exact H1|]. by apply keeps_closing_signals.
Qed.

Lemma keeps_new_window w o s : w < length (heap s) → keeps w s (new_window o s).
Proof.
  intros Hlt. repeat split.
  - unfold closing_state. simpl. by rewrite lookup_app_l.
  - intros Hw. simpl. apply elem_of_app. by left.
Qed.

Lemma handleError_windows e s : windows (handleError e s) = [].
Proof.
  unfold handleError, subscriber_error.
  pose proof (drain_windows _ _ _ (terminal_op_subject_error e) s) as Hws.
  destruct (subscriber (drain (subject_error e) s)); [|done].
  rewrite unsubscribe_all_windows. simpl.
  by destruct (sourceSubscriber (drain (subject_error e) s)).
Qed.

Lemma source_complete_windows s :
  windows (subscriber_complete (drain subject_complete s)) = [].
Proof.
  unfold subscriber_complete.
  pose proof (drain_windows _ _ _ terminal_op_subject_complete s) as Hws.
  destruct (subscriber (drain subject_complete s)); [|done].
  rewrite unsubscribe_all_windows. simpl.
  by destruct (sourceSubscriber (drain subject_complete s)).
Qed.

Section Interval.

Variable closingSelector : OpenVal → SelectorResult.
Variable react : WinId → Value → list Signal.
Variable w : WinId.

(** A benign signal leaves the window registered, with its closing notifier
    subscribed. *)
Lemma benign_signal g s :
  open_at w s → benign closingSelector w (Sig g) = true →
  open_at w (handle_signal closingSelector g s).
Proof.
  intros Hoa Hb. pose proof (oa_wf w s Hoa) as Hwf.
  assert (Hlt : w < length (heap s)).
  { apply is_open_lt, (wf_registry s Hwf), (oa_registered w s Hoa). }
  eapply keeps_open_at; [done| |by apply wf_handle_signal].
  destruct g as [o| | | | |w' c|]; simpl in Hb |- *; try done.
  - destruct (openSubscriber s) eqn:Hop; [|apply keeps_refl].
    unfold open_window. destruct (closingSelector o) as [e|sync]; [done|].
    eapply keeps_trans; [by apply keeps_new_window|].
    unfold subscriber_next.
    change (subscriber (new_window o s)) with (subscriber s).
    rewrite (wf_openings s Hwf Hop).
    eapply keeps_trans; [|apply keeps_subscribe_closing; [|..|done]].
    + done.
    + by apply wf_emitted_window, (wf_openings s Hwf Hop).
    + apply elem_of_app. right. by apply list_elem_of_singleton.
    + lia.
  - apply andb_prop in Hb as [Hne Hc]. apply bool_decide_eq_true in Hne.
    apply keeps_closing_signal; [done|congruence|done].
Qed.

Lemma benign_signals gs s :
  open_at w s → forallb (λ g, benign closingSelector w (Sig g)) gs = true →
  open_at w (foldl (λ s' g, handle_signal closingSelector g s') s gs).
Proof.
  revert s. induction gs as [|g gs IH]; intros s Hoa Hb; simpl; [done|].
  simpl in Hb. apply andb_prop in Hb as [Hg Hb].
  apply IH; [by apply benign_signal|done].
Qed.

Hypothesis Hreact : benign_consumers closingSelector react w.

Lemma benign_deliver v w' s :
  open_at w s → open_at w (deliver closingSelector react v w' s).
Proof.
  intros Hoa. unfold deliver. destruct (is_open w' s) eqn:E; [|done].
  apply benign_signals; [|apply Hreact].
  unfold subject_next. rewrite E.
  split; [|apply (oa_source w s Hoa)|apply (oa_registered w s Hoa)
          |apply (oa_closing w s Hoa)].
  pose proof (wf_subject_next w' v s (oa_wf w s Hoa)) as H.
  unfold subject_next in H. by rewrite E in H.
Qed.

Lemma benign_fanout v ws s :
  open_at w s → open_at w (fanout closingSelector react v ws s).
Proof.
  revert s. induction ws as [|w' ws IH]; intros s Hoa; simpl; [done|].
  by apply IH, benign_deliver.
Qed.

(** A benign input leaves the window open and delivers to it the value it
    carries, if it carries one. *)
Lemma benign_step i s :
  open_at w s → benign closingSelector w i = true →
  open_at w (handle closingSelector react i s) ∧
  delivered w (trace (handle closingSelector react i s))
  = delivered w (trace s) ++ src_values [i].
Proof.
  intros Hoa Hb. pose proof (oa_wf w s Hoa) as Hwf.
  destruct i as [g|v].
  - split; [by apply benign_signal|].
    rewrite app_nil_r. apply handle_signal_ages_delivered.
  - simpl. rewrite (oa_source w s Hoa). split; [by apply benign_fanout|].
    destruct (list_elem_of_split _ _ (oa_registered w s Hoa)) as (pre & post & E).
    destruct (fanout_delivered closingSelector react v s Hwf) as (_ & _ & H).
    rewrite (H pre w post E).
    rewrite bool_decide_eq_true_2; [done|].
    apply (oa_registered w _ (benign_fanout v pre s Hoa)).
Qed.

Lemma benign_run mid s :
  open_at w s → forallb (benign closingSelector w) mid = true →
  open_at w (run closingSelector react mid s) ∧
  delivered w (trace (run closingSelector react mid s))
  = delivered w (trace s) ++ src_values mid.
Proof.
  revert s. induction mid as [|i mid IH]; intros s Hoa Hb; simpl.
  - by rewrite app_nil_r.
  - simpl in Hb. apply andb_prop in Hb as [Hi Hb].
    destruct (benign_step i s Hoa Hi) as [Hoa' Hd].
    destruct (IH _ Hoa' Hb) as [Hoa'' Hd'].
    split; [done|]. rewrite Hd', Hd, <- app_assoc. f_equal.
    by destruct i.
Qed.

End Interval.

Lemma wf_empty_closed w s : wf s → windows s = [] → is_open w s = false.
Proof.
  intros Hwf Hws. apply not_true_is_false.
  intros H%(wf_registry s Hwf). rewrite Hws in H. by apply elem_of_nil in H.
Qed.

(** An input that ends the window closes it and delivers nothing. *)
Lemma ends_step sel react w i s :
  open_at w s → ends w i = true →
  is_open w (handle sel react i s) = false ∧
  delivered w (trace (handle sel react i s)) = delivered w (trace s).
Proof.
  intros Hoa He. pose proof (oa_wf w s Hoa) as Hwf.
  destruct i as [g|v]; [|done].
  split; [|apply handle_signal_ages_delivered].
  pose proof (wf_handle_signal sel g s Hwf) as Hwf'.
  destruct g as [| | |e| |w' c|]; simpl in He |- *; try done.
  - apply wf_empty_closed; [done|]. simpl. rewrite (oa_source w s Hoa).
    apply handleError_windows.
  - apply wf_empty_closed; [done|]. simpl. rewrite (oa_source w s Hoa).
    apply source_complete_windows.
  - apply bool_decide_eq_true in He. subst w'.
    unfold closing_signal. rewrite (oa_closing w s Hoa).
    assert (Hcl : is_open w (closeWindow w s) = false).
    { apply not_true_is_false. rewrite closeWindow_is_open. by intros [_ ?]. }
    destruct c as [|e|]; [done| |].
    + apply wf_empty_closed.
      * apply wf_alter_closing; [done..|]. by apply wf_handleError.
      * simpl. apply handleError_windows.
    + rewrite <- Hcl. apply is_open_ext. unfold window_state. simpl.
      by apply window_state_alter_closing.
  - apply wf_empty_closed; [done|]. simpl. unfold subscriber_unsubscribe.
    rewrite <- (wf_source s Hwf), (oa_source w s Hoa).
    by rewrite unsubscribe_all_windows, (oa_source w s Hoa).
Qed.

(** Opening a window whose closing notifier stays silent for now. *)
Lemma open_step sel o s :
  wf s → openSubscriber s = true → sel o = Notifier [] →
  open_at (length (heap s)) (handle_signal sel (OpenNext o) s).
Proof.
  intros Hwf Hop Hsel. pose proof (wf_openings s Hwf Hop) as Hsub.
  split.
  - by apply wf_handle_signal.
  - simpl. rewrite Hop. unfold open_window. rewrite Hsel.
    unfold subscriber_next. simpl. rewrite Hsub. simpl.
    by rewrite (wf_source s Hwf).
  - simpl. rewrite Hop. unfold open_window. rewrite Hsel.
    unfold subscriber_next. simpl. rewrite Hsub. simpl.
    apply elem_of_app. right. by apply list_elem_of_singleton.
  - simpl. rewrite Hop. unfold open_window. rewrite Hsel.
    unfold subscriber_next. simpl. rewrite Hsub.
    unfold closing_live, closing_state, subscribe_closing. simpl.
    rewrite list_lookup_alter_eq, list_lookup_alter_eq, list_lookup_middle by done.
    done.
Qed.

(** A window whose closing selector throws, or whose closing notifier sends
    anything while it is subscribed, is closed before the openings callback
    returns. *)
Lemma closed_at_opening sel o s :
  wf s → openSubscriber s = true → sel o ≠ Notifier [] →
  is_open (length (heap s)) (handle_signal sel (OpenNext o) s) = false.
Proof.
  intros Hwf Hop Hsel. pose proof (wf_openings s Hwf Hop) as Hsub.
  pose proof (wf_handle_signal sel (OpenNext o) s Hwf) as Hwf'.
  simpl in Hwf' |- *. rewrite Hop in Hwf' |- *. unfold open_window in Hwf' |- *.
  destruct (sel o) as [e|[|c sync]]; [|done|].
  - apply wf_empty_closed; [done|apply handleError_windows].
  - clear Hwf'. unfold subscriber_next.
    change (subscriber (new_window o s)) with (subscriber s). rewrite Hsub.
    set (w := length (heap s)).
    set (s3 := emit (OutNext w) (new_window o s)).
    assert (Hwf3 : wf s3) by by apply wf_emitted_window.
    unfold subscribe_closing.
    set (s4 := emit (SubscribeClosing w)
                 (set_heap (alter (set_closingSubscriber Subscribing) w (heap s3)) s3)).
    assert (Hwf4 : wf s4).
    { apply (wf_emit_subscribe w
        (set_heap (alter (set_closingSubscriber Subscribing) w (heap s3)) s3)).
      - by apply wf_alter_closing.
      - apply elem_of_app. right. by apply list_elem_of_singleton. }
    assert (Hlive : closing_live w s4 = true).
    { unfold closing_live, closing_state. simpl.
      by rewrite list_lookup_alter_eq, list_lookup_middle. }
    simpl.
    assert (Hcl : is_open w (closing_signal w c s4) = false).
    { unfold closing_signal. rewrite Hlive.
      assert (Hcw : is_open w (closeWindow w s4) = false).
      { apply not_true_is_false. rewrite closeWindow_is_open. by intros [_ ?]. }
      destruct c as [|e|]; [done| |].
      - apply wf_empty_closed.
        + apply wf_alter_closing; [done..|]. by apply wf_handleError.
        + simpl. apply handleError_windows.
      - rewrite <- Hcw. apply is_open_ext. unfold window_state. simpl.
        by apply window_state_alter_closing. }
    apply not_true_is_false. intros H.
    apply (closes_open true (closing_signal w c s4)) in H; [congruence|].
    eapply closes_trans; [apply closes_closing_signals|].
    apply closes_alter_closing;
      [apply closingSubscription_add_window|apply closingSubscription_add_openValue].
Qed.

Lemma open_window_length sel o s :
  length (heap (open_window sel o s)) = S (length (heap s)).
Proof.
  assert (Hnew : length (heap (new_window o s)) = S (length (heap s))).
  { simpl. rewrite length_app. simpl. lia. }
  unfold open_window. destruct (sel o) as [e|sync].
  - by rewrite (closes_length false (new_window o s) _ (closes_handleError false e _)).
  - rewrite (closes_length true _ _
      (subscribe_closing_closes (length (heap s)) sync
         (subscriber_next (length (heap s)) (new_window o s)))).
    change (heap (emit ?e ?x)) with (heap x). unfold subscriber_next.
    by destruct (subscriber (new_window o s)).
Qed.

Lemma run_app sel react ins1 ins2 s :
  run sel react (ins1 ++ ins2) s = run sel react ins2 (run sel react ins1 s).
Proof. apply foldl_app. Qed.

(** The interval of a window when nothing interferes.  Take any well-formed
    state [s] with a live openings subscriber, an opening value [o], and let
    [w] be the window opened for it; let the consumers of the windows react
    to values in any way that neither closes [w] nor ends the output.  If the
    closing notifier of [w] stays silent while it is subscribed, [mid] holds
    source values, openings and closings of other windows, [closing] ends
    [w] and [post] is anything at all, then what is delivered to [w] in the
    whole run is exactly the source values of [mid], in order.  Otherwise [w]
    is closed at its opening and nothing is ever delivered to it. *)
Lemma interval_without_interference sel react o mid closing post s :
  wf s → openSubscriber s = true →
  let w := length (heap s) in
  benign_consumers sel react w →
  delivered w (trace s) = [] ∧
  (sel o = Notifier [] →
   forallb (benign sel w) mid = true → ends w closing = true →
   delivered w
     (trace (run sel react (Sig (OpenNext o) :: mid ++ closing :: post) s))
   = src_values mid) ∧
  (sel o ≠ Notifier [] →
   delivered w (trace (run sel react (Sig (OpenNext o) :: post) s)) = []).
Proof.
  intros Hwf Hop w Hreact.
  assert (Hd0 : delivered w (trace (handle sel react (Sig (OpenNext o)) s)) = []).
  { simpl. destruct (handle_signal_ages_delivered sel (OpenNext o) s) as [_ ->].
    by apply delivered_fresh. }
  assert (Hlt : w < length (heap (handle sel react (Sig (OpenNext o)) s))).
  { simpl. rewrite Hop, open_window_length. unfold w. lia. }
  split; [by apply delivered_fresh|]. split.
  - intros Hsel Hmid Hend.
    change (run sel react (Sig (OpenNext o) :: mid ++ closing :: post) s)
      with (run sel react (mid ++ closing :: post)
              (handle sel react (Sig (OpenNext o)) s)).
    change (handle sel react (Sig (OpenNext o)) s)
      with (handle_signal sel (OpenNext o) s) in *.
    pose proof (open_step sel o s Hwf Hop Hsel) as Hoa. fold w in Hoa.
    destruct (benign_run sel react w Hreact mid _ Hoa Hmid) as [Hoa1 Hd1].
    destruct (ends_step sel react w closing _ Hoa1 Hend) as [Hcl Hd2].
    rewrite run_app.
    change (run sel react (closing :: post) ?s0)
      with (run sel react post (handle sel react closing s0)).
    rewrite run_delivered_closed; [by rewrite Hd2, Hd1, Hd0| |done].
    eapply ages_lt; [apply handle_ages|].
    apply is_open_lt, (wf_registry _ (oa_wf _ _ Hoa1)), (oa_registered _ _ Hoa1).
  - intros Hsel.
    change (run sel react (Sig (OpenNext o) :: post) s)
      with (run sel react post (handle sel react (Sig (OpenNext o)) s)).
    rewrite run_delivered_closed; [done..|].
    by apply closed_at_opening.
Qed.

(** ** The close procedure of one window *)

Lemma closingSubscription_unsubscribe_idemp o :
  closingSubscription_unsubscribe (closingSubscription_unsubscribe o) =
  closingSubscription_unsubscribe o.
Proof.
  unfold closingSubscription_unsubscribe.
  destruct (closingSubscription o) eqn:E; simpl; [by rewrite E|done].
Qed.

Lemma alter_idemp (f : WinObj → WinObj) (w : nat) (h : list WinObj) :
  (∀ o, f (f o) = f o) → alter f w (alter f w h) = alter f w h.
Proof.
  intros Hf. revert w. induction h as [|o h IH]; intros [|w]; simpl; [done..| |].
  - by rewrite Hf.
  - f_equal. apply IH.
Qed.

Lemma released_lt w s : released w s → w < length (heap s).
Proof.
  unfold released. intros H. destruct (heap s !! w) eqn:E; [|done].
  by eapply lookup_lt_Some.
Qed.

Lemma sticky_refl s : sticky s s.
Proof. by intros w. Qed.

Lemma sticky_trans s1 s2 s3 : sticky s1 s2 → sticky s2 s3 → sticky s1 s3.
Proof. intros H1 H2 w Hw. by apply H2, H1. Qed.

Lemma sticky_frame s s' : heap s' = heap s → sticky s s'.
Proof. intros E w. unfold released. by rewrite E. Qed.

Lemma sticky_alter f (w : nat) s :
  (∀ o, closingSubscription o = true → closingSubscription (f o) = true) →
  sticky s (set_heap (alter f w (heap s)) s).
Proof.
  intros Hf w'. unfold released. simpl. destruct (decide (w = w')) as [->|Hne].
  - rewrite list_lookup_alter_eq. destruct (heap s !! w'); simpl; [|done].
    intros [= H]. by rewrite Hf.
  - by rewrite list_lookup_alter_ne.
Qed.

Lemma sticky_terminate st (w : nat) e s :
  sticky s (emit e (set_heap (alter (set_window st) w (heap s)) s)).
Proof.
  eapply sticky_trans; [by apply (sticky_alter (set_window st) w)|].
  by apply sticky_frame.
Qed.

Lemma sticky_subject_complete w s : sticky s (subject_complete w s).
Proof.
  unfold subject_complete. destruct (is_open w s); [|apply sticky_refl].
  apply sticky_terminate.
Qed.

Lemma sticky_subject_error e w s : sticky s (subject_error e w s).
Proof.
  unfold subject_error. destruct (is_open w s); [|apply sticky_refl].
  apply sticky_terminate.
Qed.

Lemma sticky_subject_unsubscribe w s : sticky s (subject_unsubscribe w s).
Proof. apply sticky_terminate. Qed.

Lemma sticky_drain f s : (∀ w s, sticky s (f w s)) → sticky s (drain f s).
Proof.
  intros Hf. unfold drain. generalize (length (windows s)) as n. intros n.
  revert s. induction n as [|n IH]; intros s; simpl; [apply sticky_refl|].
  destruct (windows s) as [|w ws]; [apply sticky_refl|].
  eapply sticky_trans; [|apply IH].
  eapply sticky_trans; [|apply Hf]. by apply sticky_frame.
Qed.

Lemma sticky_unsubscribe_all s : sticky s (unsubscribe_all s).
Proof.
  unfold unsubscribe_all, source_unsubscribe. simpl.
  assert (H : ∀ b1 b2, sticky s
    (set_heap (set_closingSubscriber Stopped <$> heap s)
       (set_openSubscriber b1 (set_subscriber b2 s)))).
  { intros b1 b2 w. unfold released. simpl. rewrite list_lookup_fmap.
    by destruct (heap s !! w). }
  destruct (sourceSubscriber s); [|apply H].
  eapply sticky_trans; [apply (H false false)|].
  eapply sticky_trans; [|apply sticky_drain, sticky_subject_unsubscribe].
  by apply sticky_frame.
Qed.

Lemma sticky_subscriber_error e s : sticky s (subscriber_error e s).
Proof.
  unfold subscriber_error. destruct (subscriber s); [|apply sticky_refl].
  eapply sticky_trans; [|apply sticky_unsubscribe_all]. by apply sticky_frame.
Qed.

Lemma sticky_subscriber_complete s : sticky s (subscriber_complete s).
Proof.
  unfold subscriber_complete. destruct (subscriber s); [|apply sticky_refl].
  eapply sticky_trans; [|apply sticky_unsubscribe_all]. by apply sticky_frame.
Qed.

Lemma sticky_handleError e s : sticky s (handleError e s).
Proof.
  unfold handleError.
  eapply sticky_trans; [|apply sticky_subscriber_error].
  apply sticky_drain. intros. apply sticky_subject_error.
Qed.

Lemma closingSubscription_unsubscribe_released o :
  closingSubscription (closingSubscription_unsubscribe o) = true.
Proof.
  unfold closingSubscription_unsubscribe.
  by destruct (closingSubscription o) eqn:E.
Qed.

Lemma sticky_closeWindow w s : sticky s (closeWindow w s).
Proof.
  unfold closeWindow.
  eapply sticky_trans; [|apply sticky_alter].
  - eapply sticky_trans; [|apply sticky_subject_complete]. by apply sticky_frame.
  - intros o _. apply closingSubscription_unsubscribe_released.
Qed.

Lemma sticky_closing_signal w c s : sticky s (closing_signal w c s).
Proof.
  unfold closing_signal. destruct (closing_live w s); [|apply sticky_refl].
  destruct c.
  - apply sticky_closeWindow.
  - eapply sticky_trans; [apply sticky_handleError|]. by apply sticky_alter.
  - eapply sticky_trans; [apply sticky_closeWindow|]. by apply sticky_alter.
Qed.

Lemma sticky_new_window o s : sticky s (new_window o s).
Proof.
  intros w Hw. pose proof (released_lt w s Hw) as Hlt.
  unfold released in *. simpl. by rewrite lookup_app_l.
Qed.

Lemma sticky_subscribe_closing w sync s : sticky s (subscribe_closing w sync s).
Proof.
  unfold subscribe_closing.
  eapply sticky_trans; [|apply sticky_alter].
  - set (s1 := emit (SubscribeClosing w)
                 (set_heap (alter (set_closingSubscriber Subscribing) w (heap s)) s)).
    assert (H1 : sticky s s1).
    { eapply sticky_trans; [by apply (sticky_alter (set_closingSubscriber Subscribing) w)|].
      by apply sticky_frame. }
    eapply sticky_trans; [exact H1|]. generalize s1. clear H1 s1.
    induction sync as [|c sync IH]; intros s1; simpl; [apply sticky_refl|].
    eapply sticky_trans; [apply sticky_closing_signal|apply IH].
  - intros o Ho. unfold closingSubscription_add.
    by destruct (closingSubscriber o).
Qed.

Lemma sticky_handle_signal sel g s : sticky s (handle_signal sel g s).
Proof.
  destruct g; simpl.
  - destruct (openSubscriber s); [|apply sticky_refl]. unfold open_window.
    destruct (sel o) as [e|sync].
    + eapply sticky_trans; [apply sticky_new_window|apply sticky_handleError].
    + eapply sticky_trans; [apply sticky_new_window|].
      eapply sticky_trans; [|apply sticky_subscribe_closing].
      unfold subscriber_next. destruct (subscriber (new_window o s));
        [by apply sticky_frame|apply sticky_refl].
  - destruct (openSubscriber s); [apply sticky_subscriber_error|apply sticky_refl].
  - by apply sticky_frame.
  - destruct (sourceSubscriber s); [apply sticky_handleError|apply sticky_refl].
  - destruct (sourceSubscriber s); [|apply sticky_refl].
    eapply sticky_trans; [|apply sticky_subscriber_complete].
    apply sticky_drain. intros. apply sticky_subject_complete.
  - apply sticky_closing_signal.
  - unfold subscriber_unsubscribe.
    destruct (subscriber s); [apply sticky_unsubscribe_all|apply sticky_refl].
Qed.

Lemma sticky_handle sel react i s : sticky s (handle sel react i s).
Proof.
  destruct i as [g|v]; simpl; [apply sticky_handle_signal|].
  destruct (sourceSubscriber s); [|apply sticky_refl].
  generalize (windows s) as ws. intros ws. revert s.
  induction ws as [|w ws IH]; intros s; simpl; [apply sticky_refl|].
  eapply sticky_trans; [|apply IH].
  unfold deliver, subject_next. destruct (is_open w s); [|apply sticky_refl].
  eapply sticky_trans; [by apply (sticky_frame s (emit (WinNext w v) s))|].
  generalize (emit (WinNext w v) s) as s1. intros s1.
  generalize (react w v) as gs. intros gs. revert s1.
  induction gs as [|g gs IHg]; intros s1; simpl; [apply sticky_refl|].
  eapply sticky_trans; [apply sticky_handle_signal|apply IHg].
Qed.

Lemma sticky_run sel react ins s : sticky s (run sel react ins s).
Proof.
  revert s. induction ins as [|i ins IH]; intros s; simpl; [apply sticky_refl|].
  eapply sticky_trans; [apply sticky_handle|apply IH].
Qed.

Lemma run_ages sel react ins s : ages s (run sel react ins s).
Proof.
  revert s. induction ins as [|i ins IH]; intros s; simpl; [apply ages_refl|].
  eapply ages_trans; [apply handle_ages|apply IH].
Qed.

(** Once a window is out of the registry, closed, and its
    [closingSubscription] unsubscribed, [closeWindow] does nothing. *)
Lemma closeWindow_noop w s :
  w ∉ windows s → is_open w s = false → released w s → closeWindow w s = s.
Proof.
  intros Hw Hop Hrel. unfold closeWindow, subject_complete.
  change (is_open w (set_windows ?ws s)) with (is_open w s). rewrite Hop. simpl.
  rewrite arrRemove_absent by done.
  unfold released in Hrel. destruct (heap s !! w) as [o|] eqn:E; [|done].
  injection Hrel as Hrel.
  rewrite (alter_fixed _ w (heap s) o E).
  - by destruct s.
  - unfold closingSubscription_unsubscribe. by rewrite Hrel.
Qed.

Lemma closeWindow_released w s :
  w < length (heap s) → released w (closeWindow w s).
Proof.
  intros Hlt. unfold released, closeWindow. simpl.
  rewrite list_lookup_alter_eq.
  assert (Hlt' : w < length (heap (subject_complete w
    (set_windows (arrRemove (windows s) w) s)))).
  { by rewrite (closes_length true _ _ (closes_subject_complete w _)). }
  apply lookup_lt_is_Some_2 in Hlt' as [o ->]. simpl.
  by rewrite closingSubscription_unsubscribe_released.
Qed.

(** C10.  [closeWindow] is idempotent.  A second call for the same window
    right after the first leaves the whole state as the first call left it:
    the registry, the state of the window, [closingSubscription] and
    [closingSubscriber], and the trace, so nothing is signalled twice; this
    needs only that windows are registered once.  And in a well-formed state,
    for a window that exists, a further call at any later time, whatever
    happened in between, leaves the whole state as it finds it. *)
Theorem closeWindow_idempotent w s :
  NoDup (windows s) →
  closeWindow w (closeWindow w s) = closeWindow w s ∧
  (wf s → w < length (heap s) → ∀ sel react ins,
     closeWindow w (run sel react ins (closeWindow w s))
     = run sel react ins (closeWindow w s)).
Proof.
  intros Hnd.
  assert (Hop : is_open w (closeWindow w s) = false).
  { apply not_true_is_false. rewrite closeWindow_is_open. by intros [_ ?]. }
  split.
  - assert (Hws : arrRemove (windows (closeWindow w s)) w = windows (closeWindow w s)).
    { apply arrRemove_absent. rewrite closeWindow_windows, arrRemove_elem_of by done.
      by intros [_ ?]. }
    assert (Hh : alter closingSubscription_unsubscribe w (heap (closeWindow w s))
                 = heap (closeWindow w s)).
    { unfold closeWindow at 2. simpl.
      apply alter_idemp, closingSubscription_unsubscribe_idemp. }
    revert Hws Hop Hh. generalize (closeWindow w s) as s'. intros s' Hws Hop Hh.
    unfold closeWindow, subject_complete.
    change (is_open w (set_windows ?ws s')) with (is_open w s'). rewrite Hop.
    simpl. rewrite Hws, Hh. by destruct s'.
  - intros Hwf Hlt sel react ins.
    pose proof (wf_run sel react ins _ (wf_closeWindow w s Hwf)) as Hwf'.
    assert (Hlt1 : w < length (heap (closeWindow w s))).
    { by rewrite (closes_length true _ _ (closes_closeWindow w s)). }
    assert (Hop' : is_open w (run sel react ins (closeWindow w s)) = false).
    { eapply ages_closed; [apply run_ages|done..]. }
    apply closeWindow_noop; [|done|].
    + intros H%(wf_registry _ Hwf'). congruence.
    + apply sticky_run. by apply closeWindow_released.
Qed.

(** ** Concrete runs *)

Example overlap_windows :
  let s := run silent quiet overlap ready in
  delivered 0 (trace s) = [1; 6] ∧ delivered 1 (trace s) = [6; 11] ∧
  emitted (trace s) = [0; 1] ∧ windows s = [].
Proof. done. Qed.

Example scenario_windows :
  trace (run silent quiet scenario ready)
  = [Register 0; OutNext 0; SubscribeClosing 0; WinNext 0 10;
     Register 1; OutNext 1; SubscribeClosing 1; WinNext 0 20; WinNext 1 20;
     WinComplete 0; WinNext 1 21; WinComplete 1].
Proof. done. Qed.

(** A closing notifier that emits and completes while it is subscribed, as
    [of(1)] does: the window is emitted before it completes, and the second
    call of [closeWindow] signals nothing. *)
Example synchronous_closing :
  trace (run (λ _, Notifier [CNext; CComplete]) quiet [Sig (OpenNext 0)] ready)
  = [Register 0; OutNext 0; SubscribeClosing 0; WinComplete 0].
Proof. done. Qed.

Lemma wf_two_open : wf two_open.
Proof. apply wf_run, wf_ready. Qed.

Lemma source_complete_drains_witness :
  wf two_open ∧ sourceSubscriber two_open = true ∧
  trace (handle silent quiet (Sig SrcComplete) two_open)
  = trace two_open ++ [WinComplete 0; WinComplete 1; OutComplete].
Proof.
  split; [apply wf_two_open|]. split; [reflexivity|].
  apply (source_complete_drains silent quiet two_open wf_two_open eq_refl).
Defined.

Lemma source_error_drains_witness :
  wf two_open ∧ sourceSubscriber two_open = true ∧
  trace (handle silent quiet (Sig (SrcError (UserError 3))) two_open)
  = trace two_open ++ [WinError 0 (UserError 3); WinError 1 (UserError 3);
                       OutError (UserError 3)].
Proof.
  split; [apply wf_two_open|]. split; [reflexivity|].
  apply (source_error_drains silent quiet (UserError 3) two_open wf_two_open eq_refl).
Defined.

Lemma selector_throw_drains_witness :
  wf two_open ∧ openSubscriber two_open = true ∧
  throws_later 1 = Throws (UserError 2) ∧
  trace (handle throws_later quiet (Sig (OpenNext 1)) two_open)
  = trace two_open ++ [Register 2; WinError 0 (UserError 2);
                       WinError 1 (UserError 2); WinError 2 (UserError 2);
                       OutError (UserError 2)].
Proof.
  split; [apply wf_two_open|]. split; [reflexivity|]. split; [reflexivity|].
  apply (selector_throw_drains throws_later quiet 1 (UserError 2) two_open
           wf_two_open eq_refl eq_refl).
Defined.


Lemma closeWindow_idempotent_witness :
  NoDup (windows two_open) ∧
  closeWindow 0 (closeWindow 0 two_open) = closeWindow 0 two_open.
Proof.
  assert (Hnd : NoDup (windows two_open)) by apply wf_two_open.
  split; [exact Hnd|]. apply (closeWindow_idempotent 0 two_open Hnd).
Defined.

Lemma fanout_snapshot_witness :
  wf two_open ∧ sourceSubscriber two_open = true ∧
  delivered 0 (trace (handle silent closing_other (SrcNext 7) two_open)) = [7] ∧
  delivered 1 (trace (handle silent closing_other (SrcNext 7) two_open)) = [].
Proof.
  split; [apply wf_two_open|]. split; [reflexivity|].
  destruct (fanout_snapshot silent closing_other 7 two_open wf_two_open eq_refl)
    as (_ & _ & H).
  split.
  - apply (H [] 0 [1] eq_refl).
  - apply (H [0] 1 [] eq_refl).
Defined.

(** * Further properties of the operator *)

(** ** Openings that cannot be coerced *)

Lemma stopped_subscribe_failed sel err : stopped (subscribe sel (Uncoercible err)).
Proof. repeat split. Qed.

(** X1.  When [from(openings)] throws [err] (lines 76-82), the output errors
    with [err] at once and nothing is wired: no window is ever opened and no
    input has any effect. *)
Theorem uncoercible_openings_inert sel react err ins :
  let s := run sel react ins (subscribe sel (Uncoercible err)) in
  trace s = [OutError err] ∧ windows s = [] ∧ opened s = [] ∧
  subscriber s = false.
Proof.
  intros s. unfold s.
  by rewrite (stopped_run sel react ins _ (stopped_subscribe_failed sel err)).
Qed.

(** ** An error of a closing notifier *)

(** [handleError] on a live output, exactly. *)
Lemma handleError_effect e s :
  NoDup (windows s) → (∀ w, w ∈ windows s → is_open w s = true) →
  subscriber s = true → sourceSubscriber s = true →
  trace (handleError e s)
  = trace s ++ ((λ w, WinError w e) <$> windows s) ++ [OutError e] ∧
  windows (handleError e s) = [] ∧
  (∀ w, w ∈ windows s → window_state w (handleError e s) = Some (Errored e)) ∧
  stopped (handleError e s).
Proof.
  intros Hnd Hop Hsub Hsrc. unfold handleError, subscriber_error.
  destruct (drain_subscribers _ _ _ (terminal_op_subject_error e) s) as (-> & _ & _).
  rewrite Hsub.
  destruct (drain_then_stop (subject_error e) (λ w, WinError w e) (Errored e)
              (OutError e) s) as (Ht & Hws & Hst & _);
    [apply terminal_op_subject_error|done..|].
  repeat split; try done; apply stopped_unsubscribe_all.
Qed.

(** X3.  When the closing notifier of any window errors with [e] (line 95,
    [handleError] as error callback), every registered window gets [e],
    oldest first, the registry ends up empty, the output errors with [e],
    and no later input has any effect. *)
Theorem closing_error_drains sel react w e s :
  wf s → subscriber s = true → closing_live w s = true →
  let s' := handle sel react (Sig (Close w (CError e))) s in
  trace s' = trace s ++ ((λ w', WinError w' e) <$> windows s) ++ [OutError e] ∧
  windows s' = [] ∧
  (∀ w', w' ∈ windows s → window_state w' s' = Some (Errored e)) ∧
  (∀ ins, run sel react ins s' = s').
Proof.
  intros Hwf Hsub Hlive. simpl. unfold closing_signal. rewrite Hlive.
  destruct (handleError_effect e s) as (Ht & Hws & Hst & Hstop);
    [apply Hwf|intros w'; apply (wf_registry s Hwf)|done
    |by rewrite (wf_source s Hwf)|].
  split; [done|]. split; [done|]. split.
  - intros w' Hw'. rewrite <- (Hst w' Hw'). unfold window_state at 1. simpl.
    by apply window_state_alter_closing.
  - intros ins. by apply stopped_run, stopped_alter_stop.
Qed.

(** ** The fan-out of a source value *)

Lemma quiet_fanout sel v ws s :
  (∀ w, w ∈ ws → is_open w s = true) →
  trace (fanout sel quiet v ws s) = trace s ++ ((λ w, WinNext w v) <$> ws) ∧
  windows (fanout sel quiet v ws s) = windows s ∧
  heap (fanout sel quiet v ws s) = heap s ∧
  subscriber (fanout sel quiet v ws s) = subscriber s ∧
  openSubscriber (fanout sel quiet v ws s) = openSubscriber s ∧
  sourceSubscriber (fanout sel quiet v ws s) = sourceSubscriber s.
Proof.
  revert s. induction ws as [|w ws IH]; intros s Hop; simpl.
  - by rewrite app_nil_r.
  - assert (E : deliver sel quiet v w s = emit (WinNext w v) s).
    { unfold deliver, subject_next. rewrite (Hop w) by by left. done. }
    rewrite E. destruct (IH (emit (WinNext w v) s)) as (-> & -> & -> & -> & -> & ->).
    { intros w' Hw'. change (is_open w' (emit ?e s)) with (is_open w' s).
      apply Hop. by right. }
    simpl. by rewrite <- app_assoc.
Qed.

(** X5.  A source value is handed to every registered window once, oldest
    first, and changes nothing else (lines 118-125, for consumers that do not
    react); with no window registered the value is dropped. *)
Theorem source_value_fans_out sel v s :
  wf s → sourceSubscriber s = true →
  let s' := handle sel quiet (SrcNext v) s in
  trace s' = trace s ++ ((λ w, WinNext w v) <$> windows s) ∧
  windows s' = windows s ∧ heap s' = heap s ∧
  subscriber s' = subscriber s ∧
  (windows s = [] → s' = s).
Proof.
  intros Hwf Hsrc. simpl. rewrite Hsrc.
  destruct (quiet_fanout sel v (windows s) s) as (Ht & Hws & Hh & Hsub & _).
  { intros w. apply (wf_registry s Hwf). }
  repeat split; try done. by intros ->.
Qed.

(** ** Values and emission *)

(** X7.  In every run a value is delivered to a window only after the window
    was emitted on the output (line 105 before any later pass of lines
    118-125), also when consumers react synchronously. *)
Theorem values_after_emission sel react openings ins w v :
  precedes (OutNext w) (WinNext w v) (trace (run sel react ins (subscribe sel openings))).
Proof.
  apply ordered_precedes; [|done]. apply wf_run, wf_subscribe.
Qed.

(** ** A closing selector that never throws *)

Lemma windows_due_never_throws sel w os :
  never_throws sel → windows_due sel w os = seq w (length os).
Proof.
  intros Hsel. revert w. induction os as [|o os IH]; intros w; simpl; [done|].
  by rewrite Hsel, IH.
Qed.

(** ** Properties of the objects of the heap *)

Section HeapInvariant.

Variable P : WinObj → Prop.
Hypothesis P_window : ∀ st o, P o → P (set_window st o).
Hypothesis P_stopped : ∀ o, P o → P (set_closingSubscriber Stopped o).
Hypothesis P_subscribing : ∀ o, P o → P (set_closingSubscriber Subscribing o).
Hypothesis P_unsubscribe : ∀ o, P o → P (closingSubscription_unsubscribe o).
Hypothesis P_add : ∀ o, P o → P (closingSubscription_add o).
Hypothesis P_new : ∀ o, P (mkWinObj o Open false NotSubscribed).

Lemma heap_all_alter f (w : nat) s :
  (∀ o, P o → P (f o)) → heap_all P s →
  heap_all P (set_heap (alter f w (heap s)) s).
Proof. intros Hf H. unfold heap_all. simpl. apply Forall_alter; [done|]. auto. Qed.

Lemma heap_all_terminate st (w : nat) e s :
  heap_all P s →
  heap_all P (emit e (set_heap (alter (set_window st) w (heap s)) s)).
Proof. intros H. apply (heap_all_alter (set_window st) w s); auto. Qed.

Lemma heap_all_subject_complete w s :
  heap_all P s → heap_all P (subject_complete w s).
Proof.
  intros H. unfold subject_complete. destruct (is_open w s); [|done].
  by apply heap_all_terminate.
Qed.

Lemma heap_all_subject_error e w s :
  heap_all P s → heap_all P (subject_error e w s).
Proof.
  intros H. unfold subject_error. destruct (is_open w s); [|done].
  by apply heap_all_terminate.
Qed.

Lemma heap_all_drain f s :
  (∀ w s, heap_all P s → heap_all P (f w s)) →
  heap_all P s → heap_all P (drain f s).
Proof.
  intros Hf. unfold drain. generalize (length (windows s)) as n. intros n.
  revert s. induction n as [|n IH]; intros s H; simpl; [done|].
  destruct (windows s) as [|w ws]; [done|]. by apply IH, Hf.
Qed.

Lemma heap_all_unsubscribe_all s :
  heap_all P s → heap_all P (unsubscribe_all s).
Proof.
  intros H. unfold unsubscribe_all, source_unsubscribe. simpl.
  assert (H' : ∀ b1 b2 b3, heap_all P
    (set_sourceSubscriber b3 (set_heap (set_closingSubscriber Stopped <$> heap s)
       (set_openSubscriber b1 (set_subscriber b2 s))))).
  { intros. unfold heap_all. simpl. apply Forall_fmap.
    eapply Forall_impl; [exact H|]. intros o. apply P_stopped. }
  destruct (sourceSubscriber s); [|apply (H' false false false)].
  apply heap_all_drain; [|apply (H' false false false)].
  intros w s0 H0. by apply heap_all_terminate.
Qed.

Lemma heap_all_handleError e s : heap_all P s → heap_all P (handleError e s).
Proof.
  intros H. unfold handleError, subscriber_error.
  assert (H1 : heap_all P (drain (subject_error e) s)).
  { apply heap_all_drain; [|done]. intros. by apply heap_all_subject_error. }
  destruct (subscriber (drain (subject_error e) s)); [|done].
  by apply heap_all_unsubscribe_all.
Qed.

Lemma heap_all_closeWindow w s : heap_all P s → heap_all P (closeWindow w s).
Proof.
  intros H. unfold closeWindow. apply heap_all_alter; [done|].
  by apply heap_all_subject_complete.
Qed.

Lemma heap_all_closing_signal w c s :
  heap_all P s → heap_all P (closing_signal w c s).
Proof.
  intros H. unfold closing_signal. destruct (closing_live w s); [|done].
  destruct c.
  - by apply heap_all_closeWindow.
  - apply heap_all_alter; [done|]. by apply heap_all_handleError.
  - apply heap_all_alter; [done|]. by apply heap_all_closeWindow.
Qed.

Lemma heap_all_handle_signal sel g s :
  heap_all P s → heap_all P (handle_signal sel g s).
Proof.
  intros H. destruct g; simpl.
  - destruct (openSubscriber s); [|done]. unfold open_window.
    assert (Hn : heap_all P (new_window o s)).
    { unfold heap_all. simpl. apply Forall_app. split; [done|].
      by constructor. }
    destruct (sel o) as [e|sync]; [by apply heap_all_handleError|].
    unfold subscribe_closing. apply heap_all_alter; [done|].
    assert (H1 : heap_all P (subscriber_next (length (heap s)) (new_window o s))).
    { unfold subscriber_next. by destruct (subscriber (new_window o s)). }
    revert H1. generalize (subscriber_next (length (heap s)) (new_window o s)) as s1.
    intros s1 H1.
    assert (H2 : heap_all P (emit (SubscribeClosing (length (heap s)))
      (set_heap (alter (set_closingSubscriber Subscribing) (length (heap s))
         (heap s1)) s1))).
    { by apply (heap_all_alter (set_closingSubscriber Subscribing) _ s1). }
    revert H2. generalize (emit (SubscribeClosing (length (heap s)))
      (set_heap (alter (set_closingSubscriber Subscribing) (length (heap s))
         (heap s1)) s1)) as s2.
    induction sync as [|c sync IH]; intros s2 H2; simpl; [done|].
    by apply IH, heap_all_closing_signal.
  - destruct (openSubscriber s); [|done]. unfold subscriber_error.
    destruct (subscriber s); [|done]. by apply heap_all_unsubscribe_all.
  - done.
  - destruct (sourceSubscriber s); [by apply heap_all_handleError|done].
  - destruct (sourceSubscriber s); [|done]. unfold subscriber_complete.
    assert (H1 : heap_all P (drain subject_complete s)).
    { apply heap_all_drain; [|done]. intros. by apply heap_all_subject_complete. }
    destruct (subscriber (drain subject_complete s)); [|done].
    by apply heap_all_unsubscribe_all.
  - by apply heap_all_closing_signal.
  - unfold subscriber_unsubscribe. destruct (subscriber s); [|done].
    by apply heap_all_unsubscribe_all.
Qed.

Lemma heap_all_handle sel react i s :
  heap_all P s → heap_all P (handle sel react i s).
Proof.
  intros H. destruct i as [g|v]; simpl; [by apply heap_all_handle_signal|].
  destruct (sourceSubscriber s); [|done].
  generalize (windows s) as ws. intros ws. revert s H.
  induction ws as [|w ws IH]; intros s H; simpl; [done|].
  apply IH. unfold deliver, subject_next. destruct (is_open w s); [|done].
  assert (H1 : heap_all P (emit (WinNext w v) s)) by done.
  revert H1. generalize (emit (WinNext w v) s) as s1. intros s1.
  generalize (react w v) as gs. intros gs. revert s1.
  induction gs as [|g gs IHg]; intros s1 H1; simpl; [done|].
  by apply IHg, heap_all_handle_signal.
Qed.

Lemma heap_all_run sel react ins s :
  heap_all P s → heap_all P (run sel react ins s).
Proof.
  revert s. induction ins as [|i ins IH]; intros s H; simpl; [done|].
  by apply IH, heap_all_handle.
Qed.

Lemma heap_all_subscribe sel openings : heap_all P (subscribe sel openings).
Proof.
  destruct openings as [err|sync]; [constructor|]. unfold subscribe.
  assert (H : heap_all P
    (foldl (λ s n, handle_signal sel (opening_signal n) s) init sync)).
  { assert (H0 : heap_all P init) by constructor.
    revert H0. generalize init.
    induction sync as [|n sync IH]; intros s H0; simpl; [done|].
    by apply IH, heap_all_handle_signal. }
  unfold source_subscribe.
  by destruct (subscriber (foldl (λ s n, handle_signal sel (opening_signal n) s)
                             init sync)).
Qed.

Lemma heap_all_subscribed_run sel react openings ins :
  heap_all P (run sel react ins (subscribe sel openings)).
Proof. apply heap_all_run, heap_all_subscribe. Qed.

End HeapInvariant.

Lemma attached_ok_run sel react openings ins :
  heap_all attached_ok (run sel react ins (subscribe sel openings)).
Proof.
  apply heap_all_subscribed_run; unfold attached_ok; try done.
  - intros o H. unfold closingSubscription_unsubscribe.
    destruct (closingSubscription o) eqn:E; [by rewrite E|]. simpl.
    by destruct (closingSubscriber o).
  - intros o H. unfold closingSubscription_add.
    destruct (closingSubscriber o) eqn:E; try (by rewrite E). simpl.
    by destruct (closingSubscription o).
Qed.

(** ** The closing of one window *)

Lemma closeWindow_open_trace w s :
  is_open w s = true → trace (closeWindow w s) = trace s ++ [WinComplete w].
Proof.
  intros Ho. unfold closeWindow, subject_complete.
  change (is_open w (set_windows ?ws s)) with (is_open w s). by rewrite Ho.
Qed.

Lemma closeWindow_attached w s o :
  heap s !! w = Some o → closingSubscriber o = Attached →
  closingSubscription o = false →
  closing_state w (closeWindow w s) = Some Stopped.
Proof.
  intros Ho Ha Hc. unfold closing_state, closeWindow. simpl.
  rewrite list_lookup_alter_eq. unfold subject_complete.
  destruct (is_open w (set_windows (arrRemove (windows s) w) s)); simpl.
  - rewrite list_lookup_alter_eq, Ho. simpl.
    unfold closingSubscription_unsubscribe. simpl. by rewrite Hc, Ha.
  - rewrite Ho. simpl. unfold closingSubscription_unsubscribe. by rewrite Hc, Ha.
Qed.

(** X4.  In every run, when the closing notifier of a registered window
    emits or completes (line 95, [closeWindow] as next and as complete
    callback), that window alone is completed and removed from the registry,
    wherever it stands in it; the other windows, the output and the source
    subscription are untouched, and the notifier is unsubscribed: whatever it
    sends afterwards, an error included, is ignored. *)
Theorem closing_closes_one_window sel react openings ins w c :
  let s := run sel react ins (subscribe sel openings) in
  w ∈ windows s → closing_state w s = Some Attached → no_error c = true →
  let s' := handle sel react (Sig (Close w c)) s in
  trace s' = trace s ++ [WinComplete w] ∧
  windows s' = arrRemove (windows s) w ∧
  (w ∉ windows s') ∧
  window_state w s' = Some Completed ∧
  (∀ w', w' ≠ w → (w' ∈ windows s' ↔ w' ∈ windows s) ∧
                   window_state w' s' = window_state w' s ∧
                   closing_state w' s' = closing_state w' s) ∧
  subscriber s' = subscriber s ∧ openSubscriber s' = openSubscriber s ∧
  sourceSubscriber s' = sourceSubscriber s ∧
  (∀ c', handle sel react (Sig (Close w c')) s' = s').
Proof.
  intros s Hw Hatt Hc s'.
  assert (Hwf : wf s) by apply wf_run, wf_subscribe.
  pose proof (proj1 (wf_registry s Hwf w) Hw) as Hopen.
  pose proof (wf_nodup s Hwf) as Hnd.
  destruct (heap s !! w) as [o|] eqn:Ho;
    [|unfold closing_state in Hatt; by rewrite Ho in Hatt].
  assert (Ha : closingSubscriber o = Attached).
  { unfold closing_state in Hatt. rewrite Ho in Hatt. by injection Hatt. }
  assert (Hrel : closingSubscription o = false).
  { apply (Forall_lookup_1 _ _ _ _ (attached_ok_run sel react openings ins) Ho Ha). }
  assert (Hlive : closing_live w s = true).
  { unfold closing_live. by rewrite Hatt. }
  set (s1 := closeWindow w s).
  assert (H1 : trace s1 = trace s ++ [WinComplete w]) by by apply closeWindow_open_trace.
  assert (H2 : windows s1 = arrRemove (windows s) w) by apply closeWindow_windows.
  assert (H3 : closing_state w s1 = Some Stopped) by by eapply closeWindow_attached.
  assert (H4 : window_state w s1 = Some Completed).
  { unfold s1. rewrite closeWindow_window_state, decide_True by done.
    apply is_open_spec in Hopen. by rewrite Hopen. }
  assert (H5 : ∀ w', w' ≠ w → (w' ∈ windows s1 ↔ w' ∈ windows s) ∧
                 window_state w' s1 = window_state w' s ∧
                 closing_state w' s1 = closing_state w' s).
  { intros w' Hne. split; [|split].
    - rewrite H2, arrRemove_elem_of by done. tauto.
    - unfold s1. by rewrite closeWindow_window_state, decide_False.
    - by apply (keeps_closeWindow w' w s). }
  destruct (closeWindow_subscribers w s) as (F1 & F2 & F3).
  assert (E : s' = s1 ∨
              s' = set_heap (alter (set_closingSubscriber Stopped) w (heap s1)) s1).
  { unfold s'. simpl. unfold closing_signal. rewrite Hlive.
    destruct c; [by left|done|by right]. }
  assert (Hout : w ∉ arrRemove (windows s) w).
  { rewrite arrRemove_elem_of by done. by intros [_ ?]. }
  fold s1 in F1, F2, F3. clearbody s1.
  assert (Hdead : ∀ s2, closing_state w s2 = Some Stopped →
            ∀ c', handle sel react (Sig (Close w c')) s2 = s2).
  { intros s2 Hs2 c'. simpl. unfold closing_signal, closing_live. by rewrite Hs2. }
  destruct E as [->| ->].
  - split; [done|]. split; [done|]. split; [by rewrite H2|].
    split; [done|]. split; [done|]. repeat split; try done. by apply Hdead.
  - assert (H3' : closing_state w
      (set_heap (alter (set_closingSubscriber Stopped) w (heap s1)) s1) = Some Stopped).
    { unfold closing_state in *. simpl. rewrite list_lookup_alter_eq.
      by destruct (heap s1 !! w). }
    split; [done|]. split; [done|]. split; [simpl; by rewrite H2|].
    split.
    { rewrite <- H4. unfold window_state at 1. simpl.
      by apply window_state_alter_closing. }
    split.
    { intros w' Hne. destruct (H5 w' Hne) as (A & B & C). split; [done|]. split.
      - rewrite <- B. unfold window_state at 1. simpl.
        by apply window_state_alter_closing.
      - rewrite <- C. by apply closing_state_alter_ne. }
    repeat split; try done. by apply Hdead.
Qed.

(** ** A closing notifier that fires while it is subscribed *)

Lemma lookup_last (h : list WinObj) x : (h ++ [x]) !! length h = Some x.
Proof. by apply list_lookup_middle. Qed.

Lemma alter_last f (h : list WinObj) x :
  alter f (length h) (h ++ [x]) = h ++ [f x].
Proof.
  rewrite <- (Nat.add_0_r (length h)) at 1. by rewrite alter_app_r.
Qed.

Lemma arrRemove_last ws w : w ∉ ws → arrRemove (ws ++ [w]) w = ws.
Proof.
  induction ws as [|x ws IH]; simpl; intros Hw.
  - by rewrite decide_True.
  - apply not_elem_of_cons in Hw as [Hne Hw].
    rewrite decide_False by done. by rewrite IH.
Qed.

Lemma closeWindow_first ws (h : list WinObj) o b1 b2 b3 tr :
  length h ∉ ws →
  closeWindow (length h)
    (mkState (ws ++ [length h]) (h ++ [mkWinObj o Open false Subscribing])
       b1 b2 b3 tr)
  = mkState ws (h ++ [mkWinObj o Completed true Subscribing]) b1 b2 b3
      (tr ++ [WinComplete (length h)]).
Proof.
  intros Hw. unfold closeWindow, subject_complete, is_open, window_state. simpl.
  rewrite lookup_last. simpl.
  rewrite arrRemove_last by done. unfold set_heap, emit, set_windows. simpl.
  by rewrite !alter_last.
Qed.

Lemma closeWindow_again ws (h : list WinObj) o X b1 b2 b3 tr :
  length h ∉ ws →
  closeWindow (length h)
    (mkState ws (h ++ [mkWinObj o Completed true X]) b1 b2 b3 tr)
  = mkState ws (h ++ [mkWinObj o Completed true X]) b1 b2 b3 tr.
Proof.
  intros Hw. unfold closeWindow, subject_complete, is_open, window_state. simpl.
  rewrite lookup_last. simpl.
  rewrite arrRemove_absent by done. unfold set_heap, emit, set_windows. simpl.
  by rewrite !alter_last.
Qed.

(** The first notification, the window being open and registered last. *)
Lemma closing_signal_first ws (h : list WinObj) o b1 b2 b3 tr c :
  length h ∉ ws → no_error c = true →
  closing_signal (length h) c
    (mkState (ws ++ [length h]) (h ++ [mkWinObj o Open false Subscribing])
       b1 b2 b3 tr)
  = mkState ws
      (h ++ [mkWinObj o Completed true
               (match c with CComplete => Stopped | _ => Subscribing end)])
      b1 b2 b3 (tr ++ [WinComplete (length h)]).
Proof.
  intros Hw Hc. unfold closing_signal, closing_live, closing_state.
  cbn [heap]. rewrite lookup_last. cbn [fmap option_fmap option_map closingSubscriber].
  destruct c; [by apply closeWindow_first|done|].
  rewrite closeWindow_first by done. unfold set_heap. cbn [heap].
  by rewrite alter_last.
Qed.

(** A further notification, the window being completed and removed. *)
Lemma closing_signal_again ws (h : list WinObj) o (b : bool) b1 b2 b3 tr c :
  length h ∉ ws → no_error c = true →
  ∃ b' : bool,
    closing_signal (length h) c
      (mkState ws
         (h ++ [mkWinObj o Completed true (if b then Subscribing else Stopped)])
         b1 b2 b3 tr)
    = mkState ws
        (h ++ [mkWinObj o Completed true (if b' then Subscribing else Stopped)])
        b1 b2 b3 tr.
Proof.
  intros Hw Hc. unfold closing_signal, closing_live, closing_state.
  cbn [heap]. rewrite lookup_last. cbn [fmap option_fmap option_map closingSubscriber].
  destruct b; [|by exists false].
  destruct c; [exists true; by apply closeWindow_again|done|].
  exists false. rewrite closeWindow_again by done. unfold set_heap. cbn [heap].
  by rewrite alter_last.
Qed.

Lemma closing_signals_again sync ws (h : list WinObj) o (b : bool) b1 b2 b3 tr :
  length h ∉ ws → forallb no_error sync = true →
  ∃ b' : bool,
    foldl (λ s' c, closing_signal (length h) c s')
      (mkState ws
         (h ++ [mkWinObj o Completed true (if b then Subscribing else Stopped)])
         b1 b2 b3 tr) sync
    = mkState ws
        (h ++ [mkWinObj o Completed true (if b' then Subscribing else Stopped)])
        b1 b2 b3 tr.
Proof.
  intros Hw. revert b. induction sync as [|c sync IH]; simpl; intros b Hs.
  - by exists b.
  - apply andb_true_iff in Hs as [Hc Hs].
    destruct (closing_signal_again ws h o b b1 b2 b3 tr c Hw Hc) as [b1' ->].
    by apply IH.
Qed.

Lemma subscribe_closing_sync ws (h : list WinObj) o b2 b3 tr c sync :
  length h ∉ ws → forallb no_error (c :: sync) = true →
  subscribe_closing (length h) (c :: sync)
    (mkState (ws ++ [length h]) (h ++ [mkWinObj o Open false NotSubscribed])
       true b2 b3 tr)
  = mkState ws (h ++ [mkWinObj o Completed true Stopped]) true b2 b3
      (tr ++ [SubscribeClosing (length h); WinComplete (length h)]).
Proof.
  intros Hw Hs. simpl in Hs. apply andb_true_iff in Hs as [Hc Hs].
  unfold subscribe_closing. cbn [foldl].
  assert (E0 : emit (SubscribeClosing (length h))
      (set_heap
         (alter (set_closingSubscriber Subscribing) (length h)
            (heap (mkState (ws ++ [length h])
                     (h ++ [mkWinObj o Open false NotSubscribed]) true b2 b3 tr)))
         (mkState (ws ++ [length h])
            (h ++ [mkWinObj o Open false NotSubscribed]) true b2 b3 tr))
    = mkState (ws ++ [length h]) (h ++ [mkWinObj o Open false Subscribing])
        true b2 b3 (tr ++ [SubscribeClosing (length h)])).
  { unfold emit, set_heap. cbn. by rewrite alter_last. }
  rewrite E0, closing_signal_first by done.
  destruct (closing_signals_again sync ws h o
              (match c with CComplete => false | _ => true end)
              true b2 b3
              ((tr ++ [SubscribeClosing (length h)]) ++ [WinComplete (length h)])
              Hw Hs) as [b' Hb'].
  replace (match c with CComplete => Stopped | _ => Subscribing end)
    with (if match c with CComplete => false | _ => true end
          then Subscribing else Stopped) by by destruct c.
  rewrite Hb'. unfold set_heap. cbn. rewrite alter_last, <- app_assoc.
  by destruct b'.
Qed.

(** X6.  When the closing notifier of a new window emits or completes while it
    is being subscribed (line 107; [EMPTY] in the example of the
    documentation) and sends no error there, the window is registered,
    emitted, and completed before the openings callback returns: it is out of
    the registry again, the other windows and the subscribers are as before,
    what is added to [closingSubscription] afterwards is cancelled at once,
    and whatever comes later, no source value reaches the window. *)
Theorem notifier_fires_on_subscribe sel react o c sync s :
  wf s → openSubscriber s = true →
  sel o = Notifier (c :: sync) → forallb no_error (c :: sync) = true →
  let w := length (heap s) in
  let s' := handle sel react (Sig (OpenNext o)) s in
  trace s' = trace s ++ [Register w; OutNext w; SubscribeClosing w; WinComplete w] ∧
  windows s' = windows s ∧
  heap s' = heap s ++ [mkWinObj o Completed true Stopped] ∧
  subscriber s' = subscriber s ∧ openSubscriber s' = openSubscriber s ∧
  sourceSubscriber s' = sourceSubscriber s ∧
  (∀ ins, delivered w (trace (run sel react ins s')) = []).
Proof.
  intros Hwf Hop Hsel Hs w s'.
  assert (Hsub : subscriber s = true) by by apply (wf_openings s Hwf).
  assert (Hw : length (heap s) ∉ windows s).
  { intros Hin. by apply (wf_open_fresh s _ Hwf Hin). }
  assert (E : s' = mkState (windows s)
                (heap s ++ [mkWinObj o Completed true Stopped])
                (subscriber s) (openSubscriber s) (sourceSubscriber s)
                (trace s ++ [Register w; OutNext w; SubscribeClosing w;
                             WinComplete w])).
  { unfold s', w. simpl. rewrite Hop. unfold open_window. rewrite Hsel.
    destruct s as [ws h b1 b2 b3 tr]. simpl in *. subst b1 b2.
    unfold subscriber_next, new_window, emit, set_windows, set_heap.
    cbn [windows heap subscriber openSubscriber sourceSubscriber trace].
    rewrite subscribe_closing_sync by done. by rewrite <- !app_assoc. }
  split; [by rewrite E|]. split; [by rewrite E|]. split; [by rewrite E|].
  split; [by rewrite E|]. split; [by rewrite E|]. split; [by rewrite E|].
  intros ins. rewrite run_delivered_closed.
  - rewrite E. cbn [trace]. unfold delivered. rewrite omap_app.
    fold (delivered w (trace s)). by rewrite (delivered_fresh w s Hwf).
  - rewrite E. cbn [heap]. rewrite length_app. simpl. unfold w. lia.
  - rewrite E. unfold is_open, window_state. cbn [heap]. unfold w.
    by rewrite lookup_last.
Qed.

(** X12.  When the closing notifier of a new window errors with [e] while it
    is being subscribed (line 107, [throwError(e)] as notifier), the window
    has been registered and emitted, unlike under a throwing selector; it
    then gets [e] after all older windows, the output errors with [e], the
    registry is empty, and no later input has any effect. *)
Theorem notifier_errors_on_subscribe sel react o e sync s :
  wf s → openSubscriber s = true → sel o = Notifier (CError e :: sync) →
  let w := length (heap s) in
  let s' := handle sel react (Sig (OpenNext o)) s in
  trace s' = trace s ++ [Register w; OutNext w; SubscribeClosing w]
               ++ ((λ w', WinError w' e) <$> (windows s ++ [w])) ++ [OutError e] ∧
  windows s' = [] ∧
  (∀ w', w' ∈ windows s ++ [w] → window_state w' s' = Some (Errored e)) ∧
  (∀ ins, run sel react ins s' = s').
Proof.
  intros Hwf Hop Hsel w s'.
  pose proof (wf_openings s Hwf Hop) as Hsub.
  set (s2 := emit (OutNext w) (new_window o s)).
  set (s3 := emit (SubscribeClosing w)
               (set_heap (alter (set_closingSubscriber Subscribing) w (heap s2)) s2)).
  assert (Hwf3 : wf s3).
  { apply wf_emit_subscribe.
    - apply wf_alter_closing; [done..|]. by apply wf_emitted_window.
    - simpl. apply elem_of_app. right. by apply list_elem_of_singleton. }
  assert (Hlive : closing_live w s3 = true).
  { unfold closing_live, closing_state. simpl. rewrite list_lookup_alter_eq.
    unfold w. by rewrite lookup_last. }
  set (s4 := closing_signal w (CError e) s3).
  destruct (handleError_effect e s3) as (Ht & Hws & Hst & Hstop);
    [apply Hwf3|intros w'; apply (wf_registry s3 Hwf3)|done
    |by rewrite (wf_source s3 Hwf3)|].
  assert (Hstop4 : stopped s4).
  { unfold s4, closing_signal. rewrite Hlive. by apply stopped_alter_stop. }
  assert (E : s' = s4).
  { unfold s'. simpl. rewrite Hop. unfold open_window. rewrite Hsel.
    unfold subscriber_next. change (subscriber (new_window o s)) with (subscriber s).
    rewrite Hsub. unfold subscribe_closing. cbn [foldl].
    fold w. fold s2. fold s3. fold s4.
    rewrite (stopped_closing_signals w sync s4 Hstop4).
    by apply stopped_closingSubscription_add. }
  rewrite E. unfold s4, closing_signal. rewrite Hlive.
  split; [|split; [done|split]].
  - cbn [trace set_heap]. rewrite Ht. simpl. by rewrite <- !app_assoc.
  - intros w' Hw'. rewrite <- (Hst w' Hw'). unfold window_state at 1. simpl.
    by apply window_state_alter_closing.
  - intros ins. apply stopped_run. by apply stopped_alter_stop.
Qed.

(** ** The end of the output *)

Lemma adds_refl P s : adds P s s.
Proof. exists []. by rewrite app_nil_r. Qed.

Lemma adds_trans P s1 s2 s3 : adds P s1 s2 → adds P s2 s3 → adds P s1 s3.
Proof.
  intros (Δ1 & E1 & H1) (Δ2 & E2 & H2). exists (Δ1 ++ Δ2).
  rewrite E2, E1, app_assoc. split; [done|]. by apply Forall_app.
Qed.

Lemma adds_frame P s s' : trace s' = trace s → adds P s s'.
Proof. intros E. exists []. by rewrite app_nil_r. Qed.

Lemma adds_emit (P : Event → Prop) e s : P e → adds P s (emit e s).
Proof. intros He. exists [e]. split; [done|]. by constructor. Qed.

Lemma adds_drain_loop P f n s :
  (∀ w s, adds P s (f w s)) → adds P s (drain_loop n f s).
Proof.
  intros Hf. revert s. induction n as [|n IH]; intros s; simpl; [apply adds_refl|].
  destruct (windows s) as [|w ws]; [apply adds_refl|].
  eapply adds_trans; [|apply IH]. eapply adds_trans; [|apply Hf].
  by apply adds_frame.
Qed.

Lemma adds_subject_complete w s :
  adds (λ e, is_terminal e = false) s (subject_complete w s).
Proof.
  unfold subject_complete. destruct (is_open w s); [|apply adds_refl].
  exists [WinComplete w]. split; [done|]. by constructor.
Qed.

Lemma adds_subject_error e w s :
  adds (λ e, is_terminal e = false) s (subject_error e w s).
Proof.
  unfold subject_error. destruct (is_open w s); [|apply adds_refl].
  exists [WinError w e]. split; [done|]. by constructor.
Qed.

Lemma adds_unsubscribe_all s :
  adds (λ e, is_cancel e = true) s (unsubscribe_all s).
Proof.
  unfold unsubscribe_all, source_unsubscribe. simpl.
  destruct (sourceSubscriber s); [|by apply adds_frame].
  eapply adds_trans; [|apply adds_drain_loop].
  - by apply adds_frame.
  - intros w s'. exists [WinCancel w]. split; [done|]. by constructor.
Qed.

Lemma adds_closeWindow w s :
  adds (λ e, is_terminal e = false) s (closeWindow w s).
Proof.
  unfold closeWindow. eapply adds_trans; [|by apply adds_frame].
  eapply adds_trans; [|apply adds_subject_complete]. by apply adds_frame.
Qed.

Lemma cancel_not_terminal e : is_cancel e = true → is_terminal e = false.
Proof. by destruct e. Qed.

Lemma unended_final tr : Forall (λ e, is_terminal e = false) tr → final tr.
Proof.
  intros H pre e post -> He. apply Forall_app in H as [_ H].
  apply Forall_cons in H as [H _]. congruence.
Qed.

Lemma final_end pre t post :
  Forall (λ e, is_terminal e = false) pre → Forall (λ e, is_cancel e = true) post →
  final (pre ++ t :: post).
Proof.
  intros Hpre Hpost pre' e post' E He. revert pre' E.
  induction Hpre as [|a pre Ha Hpre IH]; intros pre' E.
  - destruct pre' as [|x pre']; simpl in E.
    + by injection E as -> ->.
    + injection E as -> E. subst post. apply Forall_app in Hpost as [_ H].
      apply Forall_cons in H as [H _]. by destruct e.
  - destruct pre' as [|x pre']; simpl in E.
    + injection E as -> _. congruence.
    + injection E as -> E. by apply (IH pre').
Qed.

Lemma final_once pre e post :
  final (pre ++ e :: post) → is_terminal e = true →
  Forall (λ x, is_terminal x = false) pre.
Proof.
  intros Hf He. apply Forall_forall. intros x Hx.
  destruct (is_terminal x) eqn:Ex; [|done].
  apply list_elem_of_split in Hx as (l1 & l2 & ->).
  specialize (Hf l1 x (l2 ++ e :: post)). rewrite <- app_assoc in Hf.
  specialize (Hf eq_refl Ex). apply Forall_app in Hf as [_ Hf].
  apply Forall_cons in Hf as [Hf _]. by destruct e.
Qed.

Lemma tidy_grow s s' :
  tidy s → subscriber s = true → subscriber s' = true →
  adds (λ e, is_terminal e = false) s s' → tidy s'.
Proof.
  intros [_ Hl _] Hs Hs' (Δ & E & HΔ).
  assert (Hu : unended s').
  { unfold unended. rewrite E. apply Forall_app. split; [by apply Hl|done]. }
  split; [by apply unended_final|done|]. intros; congruence.
Qed.

Lemma tidy_same s s' :
  tidy s → trace s' = trace s → subscriber s' = subscriber s →
  windows s' = windows s → (stopped s → stopped s') → tidy s'.
Proof.
  intros [Hf Hl He] Et Es Ew Hst. split.
  - by rewrite Et.
  - rewrite Es. unfold unended. by rewrite Et.
  - rewrite Es, Ew. intros H. destruct (He H). split; auto.
Qed.

Lemma tidy_unsubscribe_all s s0 ts :
  tidy s → subscriber s = true → sourceSubscriber s0 = true →
  trace s0 = trace s ++ ts → length ts ≤ 1 → tidy (unsubscribe_all s0).
Proof.
  intros [_ Hl _] Hs Hsrc Et Hts.
  destruct (adds_unsubscribe_all s0) as (Δ & E & HΔ). split.
  - rewrite E, Et. destruct ts as [|t [|]]; simpl in Hts; [| |lia].
    + rewrite app_nil_r. apply unended_final. apply Forall_app.
      split; [by apply Hl|]. eapply Forall_impl; [done|]. apply cancel_not_terminal.
    + rewrite <- app_assoc. simpl. apply final_end; [by apply Hl|done].
  - intros H. destruct (unsubscribe_all_subscribers s0) as (H' & _). congruence.
  - intros _. split; [apply stopped_unsubscribe_all|].
    by rewrite unsubscribe_all_windows, Hsrc.
Qed.

Lemma tidy_subscriber_error e s :
  tidy s → sourceSubscriber s = subscriber s → tidy (subscriber_error e s).
Proof.
  intros Ht Hsrc. unfold subscriber_error. destruct (subscriber s) eqn:Hs; [|done].
  apply (tidy_unsubscribe_all s _ [OutError e]); try done; simpl; lia.
Qed.

Lemma tidy_subscriber_complete s :
  tidy s → sourceSubscriber s = subscriber s → tidy (subscriber_complete s).
Proof.
  intros Ht Hsrc. unfold subscriber_complete. destruct (subscriber s) eqn:Hs; [|done].
  apply (tidy_unsubscribe_all s _ [OutComplete]); try done; simpl; lia.
Qed.

Lemma tidy_subscriber_unsubscribe s :
  tidy s → sourceSubscriber s = subscriber s → tidy (subscriber_unsubscribe s).
Proof.
  intros Ht Hsrc. unfold subscriber_unsubscribe.
  destruct (subscriber s) eqn:Hs; [|done].
  apply (tidy_unsubscribe_all s _ []); try done; [by rewrite app_nil_r|simpl; lia..].
Qed.

Lemma drain_empty f s : windows s = [] → drain f s = s.
Proof. intros E. unfold drain. by rewrite E. Qed.

Lemma tidy_drain f ev st s :
  terminal_op f ev st → (∀ w s, adds (λ e, is_terminal e = false) s (f w s)) →
  tidy s → tidy (drain f s).
Proof.
  intros Hf Ha Ht. destruct (subscriber s) eqn:Hs.
  - apply (tidy_grow s); [done|done| |].
    + by destruct (drain_subscribers f ev st Hf s) as (-> & _).
    + by apply adds_drain_loop.
  - destruct (tidy_ended s Ht Hs) as [_ Hw]. by rewrite drain_empty.
Qed.

Lemma tidy_handleError e s :
  tidy s → sourceSubscriber s = subscriber s → tidy (handleError e s).
Proof.
  intros Ht Hsrc. unfold handleError. apply tidy_subscriber_error.
  - eapply tidy_drain; [apply (terminal_op_subject_error e)| |done].
    intros. apply adds_subject_error.
  - by destruct (drain_subscribers _ _ _ (terminal_op_subject_error e) s)
      as (-> & _ & ->).
Qed.

Lemma tidy_source_complete s :
  tidy s → sourceSubscriber s = subscriber s →
  tidy (subscriber_complete (drain subject_complete s)).
Proof.
  intros Ht Hsrc. apply tidy_subscriber_complete.
  - eapply tidy_drain; [apply terminal_op_subject_complete| |done].
    intros. apply adds_subject_complete.
  - by destruct (drain_subscribers _ _ _ terminal_op_subject_complete s)
      as (-> & _ & ->).
Qed.

Lemma tidy_closeWindow w s :
  tidy s → subscriber s = true → tidy (closeWindow w s).
Proof.
  intros Ht Hs. apply (tidy_grow s); [done|done| |apply adds_closeWindow].
  by destruct (closeWindow_subscribers w s) as (-> & _).
Qed.

Lemma tidy_live_closing w s : tidy s → closing_live w s = true → subscriber s = true.
Proof.
  intros Ht Hl. destruct (subscriber s) eqn:Hs; [done|].
  destruct (tidy_ended s Ht Hs) as [(_ & _ & _ & H) _]. by rewrite H in Hl.
Qed.

Lemma tidy_alter_stop (w : nat) s :
  tidy s → tidy (set_heap (alter (set_closingSubscriber Stopped) w (heap s)) s).
Proof.
  intros Ht. apply (tidy_same s); [done..|]. apply stopped_alter_stop.
Qed.

Lemma tidy_closing_signal w c s :
  tidy s → sourceSubscriber s = subscriber s → tidy (closing_signal w c s).
Proof.
  intros Ht Hsrc. unfold closing_signal.
  destruct (closing_live w s) eqn:Hl; [|done].
  pose proof (tidy_live_closing w s Ht Hl) as Hs. destruct c.
  - by apply tidy_closeWindow.
  - by apply tidy_alter_stop, tidy_handleError.
  - by apply tidy_alter_stop, tidy_closeWindow.
Qed.

Lemma tidy_closing_signals w sync s :
  wf s → tidy s → tidy (foldl (λ s' c, closing_signal w c s') s sync).
Proof.
  revert s. induction sync as [|c sync IH]; intros s Hwf Ht; simpl; [done|].
  apply IH; [by apply wf_closing_signal|].
  apply tidy_closing_signal; [done|apply Hwf].
Qed.

Lemma tidy_subscribe_closing w sync s :
  wf s → OutNext w ∈ trace s → subscriber s = true → tidy s →
  tidy (subscribe_closing w sync s).
Proof.
  intros Hwf Hw Hs Ht. unfold subscribe_closing.
  set (s1 := emit (SubscribeClosing w)
               (set_heap (alter (set_closingSubscriber Subscribing) w (heap s)) s)).
  assert (Hwf1 : wf s1).
  { apply wf_emit_subscribe; [|done]. by apply wf_alter_closing. }
  assert (Ht1 : tidy s1).
  { apply (tidy_grow s); [done..|]. exists [SubscribeClosing w]. split; [done|]. by constructor. }
  pose proof (tidy_closing_signals w sync s1 Hwf1 Ht1) as Ht2.
  apply (tidy_same _ _ Ht2); [done..|].
  intros Hst. by rewrite (stopped_closingSubscription_add w _ Hst).
Qed.

Lemma tidy_open_window sel o s :
  wf s → openSubscriber s = true → tidy s → tidy (open_window sel o s).
Proof.
  intros Hwf Hop Ht. pose proof (wf_openings s Hwf Hop) as Hsub.
  assert (Ht1 : tidy (new_window o s)).
  { apply (tidy_grow s); [done..|]. exists [Register (length (heap s))]. split; [done|]. by constructor. }
  unfold open_window. destruct (sel o) as [e|sync].
  - apply tidy_handleError; [done|]. simpl. apply Hwf.
  - unfold subscriber_next.
    change (subscriber (new_window o s)) with (subscriber s). rewrite Hsub.
    apply tidy_subscribe_closing; [by apply wf_emitted_window| |done|].
    + apply elem_of_app. right. by apply list_elem_of_singleton.
    + apply (tidy_grow (new_window o s)); [done..|].
      exists [OutNext (length (heap s))]. split; [done|]. by constructor.
Qed.

Lemma tidy_handle_signal sel g s :
  wf s → tidy s → tidy (handle_signal sel g s).
Proof.
  intros Hwf Ht. pose proof (wf_source s Hwf) as Hsrc. destruct g; simpl.
  - destruct (openSubscriber s) eqn:Hop; [|done]. by apply tidy_open_window.
  - destruct (openSubscriber s); [|done]. by apply tidy_subscriber_error.
  - apply (tidy_same s); [done..|]. by intros (H1 & H2 & H3 & H4).
  - destruct (sourceSubscriber s) eqn:Hso; [|done].
    apply tidy_handleError; [done|congruence].
  - destruct (sourceSubscriber s) eqn:Hso; [|done].
    apply tidy_source_complete; [done|congruence].
  - by apply tidy_closing_signal.
  - by apply tidy_subscriber_unsubscribe.
Qed.

Lemma tidy_handle_signals sel gs s :
  wf s → tidy s → tidy (foldl (λ s' g, handle_signal sel g s') s gs).
Proof.
  revert s. induction gs as [|g gs IH]; intros s Hwf Ht; simpl; [done|].
  apply IH; [by apply wf_handle_signal|by apply tidy_handle_signal].
Qed.

Lemma tidy_subject_next w v s : wf s → tidy s → tidy (subject_next w v s).
Proof.
  intros Hwf Ht. unfold subject_next. destruct (is_open w s) eqn:Ho; [|done].
  assert (Hs : subscriber s = true).
  { destruct (subscriber s) eqn:Hs; [done|].
    destruct (tidy_ended s Ht Hs) as [_ Hw].
    by rewrite (wf_empty_closed w s Hwf Hw) in Ho. }
  apply (tidy_grow s); [done..|]. exists [WinNext w v]. split; [done|]. by constructor.
Qed.

Lemma tidy_deliver sel react v w s :
  wf s → tidy s → tidy (deliver sel react v w s).
Proof.
  intros Hwf Ht. unfold deliver. destruct (is_open w s); [|done].
  apply tidy_handle_signals; [by apply wf_subject_next|by apply tidy_subject_next].
Qed.

Lemma tidy_fanout sel react v ws s :
  wf s → tidy s → tidy (fanout sel react v ws s).
Proof.
  revert s. induction ws as [|w ws IH]; intros s Hwf Ht; simpl; [done|].
  apply IH; [by apply wf_deliver|by apply tidy_deliver].
Qed.

Lemma tidy_handle sel react i s : wf s → tidy s → tidy (handle sel react i s).
Proof.
  intros Hwf Ht. destruct i as [g|v]; simpl.
  - by apply tidy_handle_signal.
  - destruct (sourceSubscriber s); [|done]. by apply tidy_fanout.
Qed.

Lemma tidy_run sel react ins s : wf s → tidy s → tidy (run sel react ins s).
Proof.
  revert s. induction ins as [|i ins IH]; intros s Hwf Ht; simpl; [done|].
  apply IH; [by apply wf_handle|by apply tidy_handle].
Qed.

Lemma tidy_settled s : tidy s → settled s.
Proof.
  intros [H1 H2 H3]. split; [done..|]. intros H. by destruct (H3 H).
Qed.

Lemma settled_tidy s : settled s → subscriber s = true → tidy s.
Proof. intros [H1 H2 H3] Hs. split; [done..|]. intros; congruence. Qed.

Lemma settled_handle_signal sel g s :
  wf s → settled s → settled (handle_signal sel g s).
Proof.
  intros Hwf Hst. destruct (subscriber s) eqn:Hs.
  - by apply tidy_settled, tidy_handle_signal, settled_tidy.
  - change (handle_signal sel g s) with (handle sel quiet (Sig g) s).
    by rewrite stopped_handle by by apply settled_ended.
Qed.

Lemma settled_run sel react ins s :
  wf s → settled s → settled (run sel react ins s).
Proof.
  intros Hwf Hst. destruct (subscriber s) eqn:Hs.
  - by apply tidy_settled, tidy_run, settled_tidy.
  - by rewrite stopped_run by by apply settled_ended.
Qed.

Lemma settled_early_error e t :
  settled t → subscriber t = true →
  settled (subscriber_error e (set_sourceSubscriber false t)).
Proof.
  intros Hst Hs.
  assert (Hstop : stopped (subscriber_error e (set_sourceSubscriber false t))).
  { unfold subscriber_error. simpl. rewrite Hs. apply stopped_unsubscribe_all. }
  split; [| |done].
  - rewrite early_error_state by done. simpl.
    apply final_end; [by apply Hst|done].
  - intros H. destruct Hstop as (H' & _). congruence.
Qed.

Lemma settled_subscribe sel openings : settled (subscribe sel openings).
Proof.
  apply (subscribe_ind sel (λ t, wf t ∧ settled t)).
  - split; [apply wf_ready|].
    split; simpl; [by apply unended_final|by intros _; apply Forall_nil|done].
  - intros o t [Hwf Hst]. split; [by apply wf_handle_signal|by apply settled_handle_signal].
  - intros t [Hwf Hst]. split; [by apply wf_handle_signal|by apply settled_handle_signal].
  - intros e t Hs _ _ [Hwf Hst].
    split; [by apply wf_early_error|by apply settled_early_error].
  - intros err. split; [apply wf_uncoercible|]. split; simpl; [|done|].
    + by apply (final_end [] (OutError err) []).
    + intros _. apply (stopped_subscribe_failed sel err).
Qed.

(** X9.  Once the output has ended, by an error, by completion or by
    cancellation, whatever arrives afterwards, with whatever selector and
    consumers, changes nothing: every subscriber wired by the operator is
    stopped.  If the output was live when the source was subscribed (line
    115), the registry is then empty and no window is open. *)
Theorem ended_is_final sel react openings ins :
  let s0 := subscribe sel openings in
  let s := run sel react ins s0 in
  subscriber s = false →
  (∀ sel' react' more, run sel' react' more s = s) ∧
  (subscriber s0 = true → windows s = [] ∧ ∀ w, is_open w s = false).
Proof.
  intros s0 s Hs.
  assert (Hwf0 : wf s0) by apply wf_subscribe.
  assert (Hwf : wf s) by by apply wf_run.
  pose proof (settled_subscribe sel openings) as Hst0. fold s0 in Hst0.
  pose proof (settled_run sel react ins s0 Hwf0 Hst0) as Hst. fold s in Hst.
  split.
  - intros sel' react' more. apply stopped_run. by apply settled_ended.
  - intros Hs0.
    assert (Ht : tidy s) by by apply tidy_run, settled_tidy.
    destruct (tidy_ended s Ht Hs) as [_ Hw].
    split; [done|]. intros w. by apply wf_empty_closed.
Qed.

(** X10.  The output gets at most one terminal signal in a run, and after it
    nothing is signalled any more, to the output or to a window: what follows
    in the trace is the forced cancel of windows (lines 134-143), and every
    subscriber is stopped.  If the output was live when the source was
    subscribed (line 115), the registry is then empty. *)
Theorem output_ends_once sel react openings ins pre e post :
  let s0 := subscribe sel openings in
  let s := run sel react ins s0 in
  trace s = pre ++ e :: post → is_terminal e = true →
  Forall (λ x, is_terminal x = false) pre ∧
  Forall (λ x, is_cancel x = true) post ∧
  stopped s ∧
  (subscriber s0 = true → windows s = []).
Proof.
  intros s0 s E He.
  assert (Hwf0 : wf s0) by apply wf_subscribe.
  pose proof (settled_subscribe sel openings) as Hst0. fold s0 in Hst0.
  pose proof (settled_run sel react ins s0 Hwf0 Hst0) as Hst. fold s in Hst.
  pose proof (settled_final s Hst) as Hf.
  assert (Hs : subscriber s = false).
  { destruct (subscriber s) eqn:Hs; [|done].
    pose proof (settled_live s Hst Hs) as Hu. unfold unended in Hu. rewrite E in Hu.
    apply Forall_app in Hu as [_ Hu]. apply Forall_cons in Hu as [Hu _]. congruence. }
  split; [|split; [|split]].
  - apply (final_once pre e post); [by rewrite <- E|done].
  - by apply (Hf pre e post).
  - by apply settled_ended.
  - intros Hs0.
    assert (Ht : tidy s) by by apply tidy_run, settled_tidy.
    by destruct (tidy_ended s Ht Hs).
Qed.

(** ** The order of the registry *)

Lemma StronglySorted_sublist (l1 l2 : list nat) :
  l1 `sublist_of` l2 → StronglySorted lt l2 → StronglySorted lt l1.
Proof.
  induction 1 as [|x l1 l2 Hsub IH|x l1 l2 Hsub IH]; intros Hs; [done| |].
  - apply StronglySorted_cons in Hs as [Hx Hs]. apply StronglySorted_cons.
    split; [|by apply IH]. apply Forall_forall. intros y Hy.
    rewrite Forall_forall in Hx. apply Hx. by apply (sublist_subseteq _ _ Hsub).
  - apply StronglySorted_cons in Hs as [_ Hs]. by apply IH.
Qed.

Lemma StronglySorted_seq a n : StronglySorted lt (seq a n).
Proof.
  revert a. induction n as [|n IH]; intros a; simpl; [constructor|].
  apply StronglySorted_cons. split; [|apply IH].
  apply Forall_forall. intros x Hx%elem_of_seq. lia.
Qed.

Lemma arrRemove_sublist ws w : arrRemove ws w `sublist_of` ws.
Proof.
  induction ws as [|x ws IH]; simpl; [done|]. case_decide.
  - by apply sublist_cons.
  - by apply sublist_skip.
Qed.

Lemma shrinks_refl s : shrinks s s.
Proof. by unfold shrinks. Qed.

Lemma shrinks_trans s1 s2 s3 : shrinks s1 s2 → shrinks s2 s3 → shrinks s1 s3.
Proof. unfold shrinks. intros H1 H2. by etrans. Qed.

Lemma shrinks_empty s s' : windows s' = [] → shrinks s s'.
Proof. unfold shrinks. intros ->. apply sublist_nil_l. Qed.

Lemma shrinks_frame s s' : windows s' = windows s → shrinks s s'.
Proof. unfold shrinks. by intros ->. Qed.

Lemma shrinks_unsubscribe_all s : shrinks s (unsubscribe_all s).
Proof.
  unfold shrinks. rewrite unsubscribe_all_windows.
  destruct (sourceSubscriber s); [apply sublist_nil_l|done].
Qed.

Lemma shrinks_subscriber_error e s : shrinks s (subscriber_error e s).
Proof.
  unfold subscriber_error. destruct (subscriber s); [|apply shrinks_refl].
  eapply shrinks_trans; [|apply shrinks_unsubscribe_all]. by apply shrinks_frame.
Qed.

Lemma shrinks_subscriber_unsubscribe s : shrinks s (subscriber_unsubscribe s).
Proof.
  unfold subscriber_unsubscribe. destruct (subscriber s); [|apply shrinks_refl].
  apply shrinks_unsubscribe_all.
Qed.

Lemma shrinks_closeWindow w s : shrinks s (closeWindow w s).
Proof. unfold shrinks. rewrite closeWindow_windows. apply arrRemove_sublist. Qed.

Lemma shrinks_closing_signal w c s : shrinks s (closing_signal w c s).
Proof.
  unfold closing_signal. destruct (closing_live w s); [|apply shrinks_refl].
  destruct c.
  - apply shrinks_closeWindow.
  - apply shrinks_empty. simpl. apply handleError_windows.
  - eapply shrinks_trans; [apply shrinks_closeWindow|]. by apply shrinks_frame.
Qed.

Lemma shrinks_closing_signals w sync s :
  shrinks s (foldl (λ s' c, closing_signal w c s') s sync).
Proof.
  revert s. induction sync as [|c sync IH]; intros s; simpl; [apply shrinks_refl|].
  eapply shrinks_trans; [apply shrinks_closing_signal|apply IH].
Qed.

Lemma shrinks_subscribe_closing w sync s : shrinks s (subscribe_closing w sync s).
Proof.
  unfold subscribe_closing. eapply shrinks_trans; [|by apply shrinks_frame].
  eapply shrinks_trans; [|apply shrinks_closing_signals]. by apply shrinks_frame.
Qed.

Lemma sorted_shrinks s s' : sorted s → shrinks s s' → sorted s'.
Proof. unfold sorted, shrinks. intros Hs Hsub. by eapply StronglySorted_sublist. Qed.

Lemma sorted_new_window o s : wf s → sorted s → sorted (new_window o s).
Proof.
  intros Hwf Hs. unfold sorted. simpl. apply StronglySorted_app.
  split; [|split; [done|]].
  - intros x1 x2 H1 ->%list_elem_of_singleton. by apply wf_allocated.
  - apply StronglySorted_cons. split; [done|constructor].
Qed.

Lemma sorted_open_window sel o s : wf s → sorted s → sorted (open_window sel o s).
Proof.
  intros Hwf Hs. pose proof (sorted_new_window o s Hwf Hs) as H1.
  unfold open_window. destruct (sel o) as [e|sync].
  - apply (sorted_shrinks (new_window o s)); [done|].
    apply shrinks_empty, handleError_windows.
  - apply (sorted_shrinks (new_window o s)); [done|].
    eapply shrinks_trans; [|apply shrinks_subscribe_closing].
    apply shrinks_frame. unfold subscriber_next.
    by destruct (subscriber (new_window o s)).
Qed.

Lemma sorted_handle_signal sel g s :
  wf s → sorted s → sorted (handle_signal sel g s).
Proof.
  intros Hwf Hs. destruct g; simpl.
  - destruct (openSubscriber s); [|done]. by apply sorted_open_window.
  - destruct (openSubscriber s); [|done].
    apply (sorted_shrinks s); [done|apply shrinks_subscriber_error].
  - done.
  - destruct (sourceSubscriber s); [|done].
    apply (sorted_shrinks s); [done|]. apply shrinks_empty, handleError_windows.
  - destruct (sourceSubscriber s); [|done].
    apply (sorted_shrinks s); [done|]. apply shrinks_empty, source_complete_windows.
  - apply (sorted_shrinks s); [done|apply shrinks_closing_signal].
  - apply (sorted_shrinks s); [done|apply shrinks_subscriber_unsubscribe].
Qed.

Lemma sorted_handle_signals sel gs s :
  wf s → sorted s → sorted (foldl (λ s' g, handle_signal sel g s') s gs).
Proof.
  revert s. induction gs as [|g gs IH]; intros s Hwf Hs; simpl; [done|].
  apply IH; [by apply wf_handle_signal|by apply sorted_handle_signal].
Qed.

Lemma sorted_deliver sel react v w s :
  wf s → sorted s → sorted (deliver sel react v w s).
Proof.
  intros Hwf Hs. unfold deliver. destruct (is_open w s) eqn:Ho; [|done].
  apply sorted_handle_signals; [by apply wf_subject_next|].
  unfold subject_next. by rewrite Ho.
Qed.

Lemma sorted_fanout sel react v ws s :
  wf s → sorted s → sorted (fanout sel react v ws s).
Proof.
  revert s. induction ws as [|w ws IH]; intros s Hwf Hs; simpl; [done|].
  apply IH; [by apply wf_deliver|by apply sorted_deliver].
Qed.

Lemma sorted_handle sel react i s : wf s → sorted s → sorted (handle sel react i s).
Proof.
  intros Hwf Hs. destruct i as [g|v]; simpl.
  - by apply sorted_handle_signal.
  - destruct (sourceSubscriber s); [|done]. by apply sorted_fanout.
Qed.

Lemma sorted_run sel react ins s : wf s → sorted s → sorted (run sel react ins s).
Proof.
  revert s. induction ins as [|i ins IH]; intros s Hwf Hs; simpl; [done|].
  apply IH; [by apply wf_handle|by apply sorted_handle].
Qed.

Lemma sorted_subscribe sel openings : sorted (subscribe sel openings).
Proof.
  apply (subscribe_ind sel (λ t, wf t ∧ sorted t)).
  - split; [apply wf_ready|constructor].
  - intros o t [Hwf Hs]. split; [by apply wf_handle_signal|by apply sorted_handle_signal].
  - intros t [Hwf Hs]. split; [by apply wf_handle_signal|by apply sorted_handle_signal].
  - intros e t Hsub _ _ [Hwf Hs]. split; [by apply wf_early_error|].
    unfold sorted. by rewrite early_error_state.
  - intros err. split; [apply wf_uncoercible|constructor].
Qed.

(** X11.  In every run the registry holds exactly the windows that are open,
    each once, in the order in which they were opened, whatever the order in
    which windows were closed in between ([push] at line 88, [arrRemove] at
    line 91, [shift] at lines 71, 130 and 141). *)
Theorem registry_in_opening_order sel react openings ins :
  let s := run sel react ins (subscribe sel openings) in
  windows s = filter (λ w, is_open w s = true) (seq 0 (length (heap s))).
Proof.
  intros s.
  assert (Hwf : wf s) by apply wf_run, wf_subscribe.
  assert (Hs : sorted s) by (apply sorted_run; [apply wf_subscribe|apply sorted_subscribe]).
  apply (StronglySorted_unique_strong lt).
  - intros x1 x2 _ _ H1 H2. lia.
  - done.
  - eapply StronglySorted_sublist; [apply sublist_filter|apply StronglySorted_seq].
  - apply NoDup_Permutation.
    + apply Hwf.
    + apply NoDup_filter, NoDup_seq.
    + intros w. rewrite list_elem_of_filter, elem_of_seq.
      rewrite (wf_registry s Hwf w). split.
      * intros Ho. split; [done|]. apply is_open_lt in Ho. lia.
      * by intros [Ho _].
Qed.

(** ** The completion of the openings *)

Lemma shut_subscriber_error e s :
  openSubscriber s = false → openSubscriber (subscriber_error e s) = false.
Proof.
  intros Hs. unfold subscriber_error. destruct (subscriber s); [|done].
  by destruct (unsubscribe_all_subscribers (emit (OutError e) s)) as (_ & -> & _).
Qed.

Lemma shut_subscriber_complete s :
  openSubscriber s = false → openSubscriber (subscriber_complete s) = false.
Proof.
  intros Hs. unfold subscriber_complete. destruct (subscriber s); [|done].
  by destruct (unsubscribe_all_subscribers (emit OutComplete s)) as (_ & -> & _).
Qed.

Lemma shut_subscriber_unsubscribe s :
  openSubscriber s = false → openSubscriber (subscriber_unsubscribe s) = false.
Proof.
  intros Hs. unfold subscriber_unsubscribe. destruct (subscriber s); [|done].
  by destruct (unsubscribe_all_subscribers s) as (_ & -> & _).
Qed.

Lemma shut_handleError e s :
  openSubscriber s = false → openSubscriber (handleError e s) = false.
Proof.
  intros Hs. apply shut_subscriber_error.
  by destruct (drain_subscribers _ _ _ (terminal_op_subject_error e) s)
    as (_ & -> & _).
Qed.

Lemma shut_closing_signal w c s :
  openSubscriber s = false → openSubscriber (closing_signal w c s) = false.
Proof.
  intros Hs. unfold closing_signal. destruct (closing_live w s); [|done].
  destruct (closeWindow_subscribers w s) as (_ & E & _). destruct c.
  - by rewrite E.
  - change (openSubscriber (handleError e s) = false). by apply shut_handleError.
  - change (openSubscriber (closeWindow w s) = false). by rewrite E.
Qed.

Lemma shut_handle_signal sel g s :
  openSubscriber s = false →
  openSubscriber (handle_signal sel g s) = false ∧
  opened (handle_signal sel g s) = opened s ∧
  emitted (trace (handle_signal sel g s)) = emitted (trace s).
Proof.
  intros Hs.
  assert (Hg : (∃ o, g = OpenNext o) ∨ ∀ o, g ≠ OpenNext o).
  { destruct g; try by right. left. by eexists. }
  destruct Hg as [[o ->]|Hg].
  { simpl. by rewrite Hs. }
  pose proof (closes_handle_signal sel g s Hg) as Hc.
  split; [|split; [apply (closes_opened _ _ _ Hc)|apply (closes_emitted _ _ _ Hc)]].
  destruct g; simpl.
  - by rewrite Hs.
  - by rewrite Hs.
  - done.
  - destruct (sourceSubscriber s); [by apply shut_handleError|done].
  - destruct (sourceSubscriber s); [|done]. apply shut_subscriber_complete.
    by destruct (drain_subscribers _ _ _ terminal_op_subject_complete s)
      as (_ & -> & _).
  - by apply shut_closing_signal.
  - by apply shut_subscriber_unsubscribe.
Qed.

Lemma shut_handle_signals sel gs s :
  openSubscriber s = false →
  openSubscriber (foldl (λ s' g, handle_signal sel g s') s gs) = false ∧
  opened (foldl (λ s' g, handle_signal sel g s') s gs) = opened s ∧
  emitted (trace (foldl (λ s' g, handle_signal sel g s') s gs)) = emitted (trace s).
Proof.
  revert s. induction gs as [|g gs IH]; intros s Hs; simpl; [done|].
  destruct (shut_handle_signal sel g s Hs) as (H1 & H2 & H3).
  destruct (IH _ H1) as (H4 & H5 & H6). by rewrite H5, H6.
Qed.

Lemma shut_deliver sel react v w s :
  openSubscriber s = false →
  openSubscriber (deliver sel react v w s) = false ∧
  opened (deliver sel react v w s) = opened s ∧
  emitted (trace (deliver sel react v w s)) = emitted (trace s).
Proof.
  intros Hs. unfold deliver. destruct (is_open w s) eqn:Ho; [|done].
  assert (E : subject_next w v s = emit (WinNext w v) s).
  { unfold subject_next. by rewrite Ho. }
  rewrite E. destruct (shut_handle_signals sel (react w v) (emit (WinNext w v) s))
    as (H1 & H2 & H3); [done|].
  rewrite H1, H2, H3. split; [done|]. split; [done|].
  simpl. unfold emitted. rewrite omap_app. simpl. by rewrite app_nil_r.
Qed.

Lemma shut_fanout sel react v ws s :
  openSubscriber s = false →
  openSubscriber (fanout sel react v ws s) = false ∧
  opened (fanout sel react v ws s) = opened s ∧
  emitted (trace (fanout sel react v ws s)) = emitted (trace s).
Proof.
  revert s. induction ws as [|w ws IH]; intros s Hs; simpl; [done|].
  destruct (shut_deliver sel react v w s Hs) as (H1 & H2 & H3).
  destruct (IH _ H1) as (H4 & H5 & H6). by rewrite H5, H6.
Qed.

Lemma shut_handle sel react i s :
  openSubscriber s = false →
  openSubscriber (handle sel react i s) = false ∧
  opened (handle sel react i s) = opened s ∧
  emitted (trace (handle sel react i s)) = emitted (trace s).
Proof.
  intros Hs. destruct i as [g|v]; simpl.
  - by apply shut_handle_signal.
  - destruct (sourceSubscriber s); [by apply shut_fanout|done].
Qed.

Lemma shut_run sel react ins s :
  openSubscriber s = false →
  openSubscriber (run sel react ins s) = false ∧
  opened (run sel react ins s) = opened s ∧
  emitted (trace (run sel react ins s)) = emitted (trace s).
Proof.
  revert s. induction ins as [|i ins IH]; intros s Hs; simpl; [done|].
  destruct (shut_handle sel react i s Hs) as (H1 & H2 & H3).
  destruct (IH _ H1) as (H4 & H5 & H6). by rewrite H5, H6.
Qed.

(** X2.  The completion of the openings stream ([noop], line 110) ends
    nothing: the output, the source subscription, the registry and the open
    windows are as before.  From then on no window is opened or emitted,
    whatever arrives, opening values and reactions of consumers included. *)
Theorem openings_complete_stops_opening sel react ins s :
  let s1 := handle sel react (Sig OpenComplete) s in
  trace s1 = trace s ∧ windows s1 = windows s ∧ heap s1 = heap s ∧
  subscriber s1 = subscriber s ∧ sourceSubscriber s1 = sourceSubscriber s ∧
  opened (run sel react ins s1) = opened s ∧
  emitted (trace (run sel react ins s1)) = emitted (trace s).
Proof.
  intros s1. repeat (split; [done|]).
  destruct (shut_run sel react ins s1) as (_ & H1 & H2); [done|].
  by rewrite H1, H2.
Qed.

(** ** What completes the output *)

Lemma adds_mono (P Q : Event → Prop) s s' :
  (∀ e, P e → Q e) → adds P s s' → adds Q s s'.
Proof.
  intros HPQ (Δ & E & HΔ). exists Δ. split; [done|].
  by eapply Forall_impl.
Qed.

Lemma adds_not_complete_terminal s s' :
  adds (λ e, is_terminal e = false) s s' → adds (λ e, e ≠ OutComplete) s s'.
Proof. apply adds_mono. by intros e He ->. Qed.

Lemma adds_not_complete_cancel s s' :
  adds (λ e, is_cancel e = true) s s' → adds (λ e, e ≠ OutComplete) s s'.
Proof. apply adds_mono. by intros e He ->. Qed.

Lemma uncompleted_subscriber_error e s :
  adds (λ e, e ≠ OutComplete) s (subscriber_error e s).
Proof.
  unfold subscriber_error. destruct (subscriber s); [|apply adds_refl].
  eapply adds_trans; [by apply (adds_emit _ (OutError e))|].
  apply adds_not_complete_cancel, adds_unsubscribe_all.
Qed.

Lemma uncompleted_subscriber_unsubscribe s :
  adds (λ e, e ≠ OutComplete) s (subscriber_unsubscribe s).
Proof.
  unfold subscriber_unsubscribe. destruct (subscriber s); [|apply adds_refl].
  apply adds_not_complete_cancel, adds_unsubscribe_all.
Qed.

Lemma uncompleted_handleError e s :
  adds (λ e, e ≠ OutComplete) s (handleError e s).
Proof.
  unfold handleError. eapply adds_trans; [|apply uncompleted_subscriber_error].
  apply adds_not_complete_terminal, adds_drain_loop.
  intros. apply adds_subject_error.
Qed.

Lemma uncompleted_closing_signal w c s :
  adds (λ e, e ≠ OutComplete) s (closing_signal w c s).
Proof.
  unfold closing_signal. destruct (closing_live w s); [|apply adds_refl].
  destruct c.
  - apply adds_not_complete_terminal, adds_closeWindow.
  - eapply adds_trans; [apply uncompleted_handleError|by apply adds_frame].
  - eapply adds_trans; [|by apply adds_frame].
    apply adds_not_complete_terminal, adds_closeWindow.
Qed.

Lemma uncompleted_closing_signals w sync s :
  adds (λ e, e ≠ OutComplete) s (foldl (λ s' c, closing_signal w c s') s sync).
Proof.
  revert s. induction sync as [|c sync IH]; intros s; simpl; [apply adds_refl|].
  eapply adds_trans; [apply uncompleted_closing_signal|apply IH].
Qed.

Lemma uncompleted_subscribe_closing w sync s :
  adds (λ e, e ≠ OutComplete) s (subscribe_closing w sync s).
Proof.
  unfold subscribe_closing. eapply adds_trans; [|by apply adds_frame].
  eapply adds_trans; [|apply uncompleted_closing_signals].
  exists [SubscribeClosing w]. split; [done|]. by constructor.
Qed.

Lemma uncompleted_open_window sel o s :
  adds (λ e, e ≠ OutComplete) s (open_window sel o s).
Proof.
  assert (H1 : adds (λ e, e ≠ OutComplete) s (new_window o s)).
  { exists [Register (length (heap s))]. split; [done|]. by constructor. }
  unfold open_window. destruct (sel o) as [e|sync].
  - eapply adds_trans; [done|apply uncompleted_handleError].
  - eapply adds_trans; [done|].
    eapply adds_trans; [|apply uncompleted_subscribe_closing].
    unfold subscriber_next. destruct (subscriber (new_window o s)); [|apply adds_refl].
    by apply (adds_emit _ (OutNext (length (heap s)))).
Qed.

Lemma uncompleted_handle_signal sel g s :
  g ≠ SrcComplete → adds (λ e, e ≠ OutComplete) s (handle_signal sel g s).
Proof.
  intros Hg. destruct g; simpl; try done.
  - destruct (openSubscriber s); [apply uncompleted_open_window|apply adds_refl].
  - destruct (openSubscriber s); [apply uncompleted_subscriber_error|apply adds_refl].
  - by apply adds_frame.
  - destruct (sourceSubscriber s); [apply uncompleted_handleError|apply adds_refl].
  - apply uncompleted_closing_signal.
  - apply uncompleted_subscriber_unsubscribe.
Qed.

Lemma uncompleted_handle_signals sel gs s :
  SrcComplete ∉ gs →
  adds (λ e, e ≠ OutComplete) s (foldl (λ s' g, handle_signal sel g s') s gs).
Proof.
  revert s. induction gs as [|g gs IH]; intros s Hgs; simpl; [apply adds_refl|].
  apply not_elem_of_cons in Hgs as [Hg Hgs].
  eapply adds_trans; [by apply uncompleted_handle_signal|by apply IH].
Qed.

Lemma uncompleted_fanout sel react v ws s :
  (∀ w v, SrcComplete ∉ react w v) →
  adds (λ e, e ≠ OutComplete) s (fanout sel react v ws s).
Proof.
  intros Hr. revert s. induction ws as [|w ws IH]; intros s; simpl; [apply adds_refl|].
  eapply adds_trans; [|apply IH]. unfold deliver.
  destruct (is_open w s) eqn:Ho; [|apply adds_refl].
  eapply adds_trans; [|by apply uncompleted_handle_signals].
  unfold subject_next. rewrite Ho. by apply (adds_emit _ (WinNext w v)).
Qed.

Lemma uncompleted_run sel react ins s :
  (∀ w v, SrcComplete ∉ react w v) → Sig SrcComplete ∉ ins →
  adds (λ e, e ≠ OutComplete) s (run sel react ins s).
Proof.
  intros Hr. revert s. induction ins as [|i ins IH]; intros s Hins; simpl;
    [apply adds_refl|].
  apply not_elem_of_cons in Hins as [Hi Hins].
  eapply adds_trans; [|by apply IH]. destruct i as [g|v]; simpl.
  - apply uncompleted_handle_signal. by intros ->.
  - destruct (sourceSubscriber s); [by apply uncompleted_fanout|apply adds_refl].
Qed.

Lemma uncompleted_subscribe sel openings :
  Forall (λ e, e ≠ OutComplete) (trace (subscribe sel openings)).
Proof.
  destruct openings as [err|sync]; [by repeat constructor|]. unfold subscribe.
  assert (H : ∀ s, adds (λ e, e ≠ OutComplete) s
    (foldl (λ s n, handle_signal sel (opening_signal n) s) s sync)).
  { induction sync as [|n sync IH]; intros s; simpl; [apply adds_refl|].
    eapply adds_trans; [|apply IH]. apply uncompleted_handle_signal.
    by destruct n. }
  destruct (H init) as (Δ & E & HΔ). unfold source_subscribe.
  destruct (subscriber (foldl (λ s n, handle_signal sel (opening_signal n) s)
                          init sync)); simpl; by rewrite E.
Qed.

(** X13.  Only the completion of the source completes the output (line 132):
    as long as the source has not completed, the output is not completed,
    neither by the completion of the openings stream nor by the closing of
    the last window nor by anything else that arrives. *)
Theorem completes_only_with_source sel react openings ins :
  (∀ w v, SrcComplete ∉ react w v) → Sig SrcComplete ∉ ins →
  OutComplete ∉ trace (run sel react ins (subscribe sel openings)).
Proof.
  intros Hr Hins.
  destruct (uncompleted_run sel react ins (subscribe sel openings) Hr Hins)
    as (Δ & -> & HΔ).
  rewrite Forall_forall in HΔ. intros [H|H]%elem_of_app.
  - pose proof (uncompleted_subscribe sel openings) as H0.
    rewrite Forall_forall in H0. by apply (H0 _ H).
  - by apply (HΔ _ H).
Qed.

(** * Concrete runs of the further properties *)

Lemma closing_error_drains_witness :
  wf two_open ∧ subscriber two_open = true ∧ closing_live 1 two_open = true ∧
  trace (handle silent quiet (Sig (Close 1 (CError (UserError 4)))) two_open)
  = trace two_open ++ [WinError 0 (UserError 4); WinError 1 (UserError 4);
                       OutError (UserError 4)].
Proof.
  split; [apply wf_two_open|]. split; [reflexivity|]. split; [reflexivity|].
  destruct (closing_error_drains silent quiet 1 (UserError 4) two_open
              wf_two_open eq_refl eq_refl) as (H & _).
  exact H.
Defined.

Lemma closing_closes_one_window_witness :
  let s := run silent quiet [Sig (OpenNext 0); Sig (OpenNext 1)] (subscribe silent (Coercible [])) in
  0 ∈ windows s ∧ closing_state 0 s = Some Attached ∧ no_error CNext = true ∧
  windows (handle silent quiet (Sig (Close 0 CNext)) s) = [1].
Proof.
  assert (H0 : 0 ∈ [0; 1]) by (by left).
  split; [exact H0|]. split; [reflexivity|]. split; [reflexivity|].
  destruct (closing_closes_one_window silent quiet (Coercible [])
              [Sig (OpenNext 0); Sig (OpenNext 1)] 0 CNext H0 eq_refl eq_refl)
    as (_ & H & _).
  exact H.
Defined.

Lemma source_value_fans_out_witness :
  wf two_open ∧ sourceSubscriber two_open = true ∧
  trace (handle silent quiet (SrcNext 7) two_open)
  = trace two_open ++ [WinNext 0 7; WinNext 1 7].
Proof.
  split; [apply wf_two_open|]. split; [reflexivity|].
  destruct (source_value_fans_out silent 7 two_open wf_two_open eq_refl) as (H & _).
  exact H.
Defined.

Lemma notifier_fires_on_subscribe_witness :
  wf two_open ∧ openSubscriber two_open = true ∧
  every_other 0 = Notifier [CComplete] ∧ forallb no_error [CComplete] = true ∧
  trace (handle every_other quiet (Sig (OpenNext 0)) two_open)
  = trace two_open ++ [Register 2; OutNext 2; SubscribeClosing 2; WinComplete 2].
Proof.
  split; [apply wf_two_open|]. split; [reflexivity|]. split; [reflexivity|].
  split; [reflexivity|].
  destruct (notifier_fires_on_subscribe every_other quiet 0 CComplete [] two_open
              wf_two_open eq_refl eq_refl eq_refl) as (H & _).
  exact H.
Defined.

Lemma ended_is_final_witness :
  let s0 := subscribe silent (Coercible [ONext 0]) in
  let s := run silent quiet [Sig SrcComplete] s0 in
  subscriber s = false ∧ subscriber s0 = true ∧
  run silent quiet [SrcNext 3; Sig (OpenNext 1)] s = s ∧ windows s = [].
Proof.
  intros s0 s.
  assert (Hs : subscriber s = false) by (vm_compute; reflexivity).
  assert (Hs0 : subscriber s0 = true) by (vm_compute; reflexivity).
  split; [exact Hs|]. split; [exact Hs0|].
  destruct (ended_is_final silent quiet (Coercible [ONext 0]) [Sig SrcComplete] Hs)
    as (H1 & H2).
  split; [apply H1|]. by destruct (H2 Hs0).
Defined.

Lemma output_ends_once_witness :
  let s0 := subscribe silent (Coercible [ONext 0]) in
  let s := run silent quiet [Sig (OpenError (UserError 1))] s0 in
  trace s = [Register 0; OutNext 0; SubscribeClosing 0]
              ++ OutError (UserError 1) :: [WinCancel 0] ∧
  is_terminal (OutError (UserError 1)) = true ∧
  subscriber s0 = true ∧ stopped s ∧ windows s = [].
Proof.
  intros s0 s.
  assert (Ht : trace s = [Register 0; OutNext 0; SubscribeClosing 0]
                           ++ OutError (UserError 1) :: [WinCancel 0])
    by (vm_compute; reflexivity).
  assert (Hs0 : subscriber s0 = true) by (vm_compute; reflexivity).
  split; [exact Ht|]. split; [reflexivity|]. split; [exact Hs0|].
  destruct (output_ends_once silent quiet (Coercible [ONext 0])
              [Sig (OpenError (UserError 1))]
              [Register 0; OutNext 0; SubscribeClosing 0]
              (OutError (UserError 1)) [WinCancel 0] Ht eq_refl)
    as (_ & _ & H1 & H2).
  split; [exact H1|exact (H2 Hs0)].
Defined.

Lemma notifier_errors_on_subscribe_witness :
  let sel := λ _ : OpenVal, Notifier [CError (UserError 5)] in
  wf two_open ∧ openSubscriber two_open = true ∧
  sel 0 = Notifier [CError (UserError 5)] ∧
  windows (handle sel quiet (Sig (OpenNext 0)) two_open) = [].
Proof.
  split; [apply wf_two_open|]. split; [reflexivity|]. split; [reflexivity|].
  destruct (notifier_errors_on_subscribe
              (λ _ : OpenVal, Notifier [CError (UserError 5)]) quiet 0
              (UserError 5) [] two_open wf_two_open eq_refl eq_refl) as (_ & H & _).
  exact H.
Defined.

Lemma completes_only_with_source_witness :
  let ins := [Sig (OpenNext 0); Sig OpenComplete; Sig (Close 0 CNext)] in
  (∀ w v, SrcComplete ∉ quiet w v) ∧ (Sig SrcComplete ∉ ins) ∧
  OutComplete ∉ trace (run silent quiet ins (subscribe silent (Coercible []))).
Proof.
  assert (H1 : ∀ w v : nat, SrcComplete ∉ quiet w v).
  { intros w v H. by apply elem_of_nil in H. }
  assert (H2 : Sig SrcComplete ∉
                 [Sig (OpenNext 0); Sig OpenComplete; Sig (Close 0 CNext)]).
  { intros H. repeat (apply elem_of_cons in H as [H|H]; [done|]).
    by apply elem_of_nil in H. }
  split; [exact H1|]. split; [exact H2|].
  apply (completes_only_with_source silent quiet (Coercible []) _ H1 H2).
Defined.

(** * The openings over a whole run *)

(** ** The opening values received *)

Lemma opened_open_window sel o s : opened (open_window sel o s) = opened s ++ [o].
Proof.
  unfold open_window. destruct (sel o) as [e|sync].
  - rewrite (closes_opened false _ _ (closes_handleError false e _)).
    unfold opened. simpl. by rewrite fmap_app.
  - rewrite (closes_opened true _ _ (subscribe_closing_closes _ sync _)).
    unfold subscriber_next.
    destruct (subscriber (new_window o s)); unfold opened; simpl; by rewrite fmap_app.
Qed.

Lemma opened_handle_signal sel g s :
  opened (handle_signal sel g s) = opened s ++ received_signal g s.
Proof.
  assert (Hg : (∃ o, g = OpenNext o) ∨ ∀ o, g ≠ OpenNext o).
  { destruct g; try (by right); left; by eexists. }
  destruct Hg as [[o ->]|Hg].
  - simpl. destruct (openSubscriber s); [apply opened_open_window|by rewrite app_nil_r].
  - rewrite (closes_opened _ _ _ (closes_handle_signal sel g s Hg)).
    destruct g; simpl; try by rewrite app_nil_r. by destruct (Hg o).
Qed.

Lemma opened_handle_signals sel gs s :
  opened (foldl (λ s' g, handle_signal sel g s') s gs)
  = opened s ++ received_signals sel gs s.
Proof.
  revert s. induction gs as [|g gs IH]; intros s; simpl; [by rewrite app_nil_r|].
  by rewrite IH, opened_handle_signal, app_assoc.
Qed.

Lemma opened_deliver sel react v w s :
  opened (deliver sel react v w s)
  = opened s ++ (if is_open w s
                 then received_signals sel (react w v) (subject_next w v s) else []).
Proof.
  unfold deliver. destruct (is_open w s) eqn:Ho; [|by rewrite app_nil_r].
  rewrite opened_handle_signals. f_equal. unfold subject_next. by rewrite Ho.
Qed.

Lemma opened_fanout sel react v ws s :
  opened (fanout sel react v ws s) = opened s ++ received_fanout sel react v ws s.
Proof.
  revert s. induction ws as [|w ws IH]; intros s; simpl; [by rewrite app_nil_r|].
  by rewrite IH, opened_deliver, app_assoc.
Qed.

Lemma opened_handle sel react i s :
  opened (handle sel react i s) = opened s ++ received_input sel react i s.
Proof.
  destruct i as [g|v]; simpl; [apply opened_handle_signal|].
  destruct (sourceSubscriber s); [apply opened_fanout|by rewrite app_nil_r].
Qed.

Lemma opened_run sel react ins s :
  opened (run sel react ins s) = opened s ++ received sel react ins s.
Proof.
  revert s. induction ins as [|i ins IH]; intros s; simpl; [by rewrite app_nil_r|].
  by rewrite IH, opened_handle, app_assoc.
Qed.

Lemma opened_subscribe sel openings :
  opened (subscribe sel openings) = received_subscribing sel openings.
Proof.
  destruct openings as [err|sync]; [done|]. unfold subscribe, received_subscribing.
  assert (H : ∀ s,
    opened (foldl (λ s n, handle_signal sel (opening_signal n) s) s sync)
    = opened s ++ received_signals sel (opening_signal <$> sync) s).
  { induction sync as [|n sync IH]; intros s; simpl; [by rewrite app_nil_r|].
    by rewrite IH, opened_handle_signal, app_assoc. }
  unfold source_subscribe.
  destruct (subscriber (foldl (λ s n, handle_signal sel (opening_signal n) s)
                          init sync)); apply (H init).
Qed.

Lemma opened_all_received sel react openings ins :
  opened (run sel react ins (subscribe sel openings))
  = all_received sel react openings ins.
Proof. by rewrite opened_run, opened_subscribe. Qed.

Lemma opened_early_error e t :
  subscriber t = true →
  opened (subscriber_error e (set_sourceSubscriber false t)) = opened t.
Proof.
  intros Hs. rewrite early_error_state by done. unfold opened. simpl.
  rewrite <- list_fmap_compose. by apply list_fmap_ext.
Qed.

(** ** The windows due for the opening values received *)

Lemma due_subscribe sel openings : due sel (subscribe sel openings).
Proof.
  apply (subscribe_ind sel (λ t, wf t ∧ due sel t)).
  - by split; [apply wf_ready|].
  - intros o t [Hwf Hd]. split; [by apply wf_handle_signal|by apply due_handle_signal].
  - intros t [Hwf Hd]. split; [by apply wf_handle_signal|by apply due_handle_signal].
  - intros e t Hs _ _ [Hwf Hd]. split; [by apply wf_early_error|].
    unfold due. rewrite opened_early_error, early_error_state by done. simpl.
    unfold emitted. rewrite omap_app. simpl. by rewrite app_nil_r.
  - intros err. by split; [apply wf_uncoercible|].
Qed.

Lemma emitted_elem_of k tr : k ∈ emitted tr ↔ OutNext k ∈ tr.
Proof.
  unfold emitted. rewrite list_elem_of_omap. split.
  - intros (x & Hx & E). destruct x; try done. by injection E as ->.
  - intros H. by exists (OutNext k).
Qed.

Lemma windows_due_lookup sel a os k :
  k ∈ windows_due sel a os →
  ∃ o, os !! (k - a) = Some o ∧ a ≤ k ∧ throws (sel o) = false.
Proof.
  revert a. induction os as [|o os IH]; intros a; simpl.
  - by intros ?%elem_of_nil.
  - intros [H|H]%elem_of_app.
    + destruct (throws (sel o)) eqn:E; [by apply elem_of_nil in H|].
      apply list_elem_of_singleton in H as ->. exists o.
      by rewrite Nat.sub_diag.
    + destruct (IH _ H) as (o' & Ho' & Hle & Ht). exists o'.
      replace (k - a) with (S (k - S a)) by lia. split; [done|]. split; [lia|done].
Qed.

(** ** Opening values whose closing selector threw *)

Lemma thrown_none sel s :
  (∀ o, o ∈ opened s → throws (sel o) = false) → thrown sel s.
Proof.
  intros H k o e Hk Hsel. apply list_elem_of_lookup_2 in Hk.
  specialize (H o Hk). by rewrite Hsel in H.
Qed.

Lemma thrown_stopped_or_none sel s :
  thrown sel s → stopped s ∨ ∀ o, o ∈ opened s → throws (sel o) = false.
Proof.
  intros Ht.
  destruct (decide (Exists (λ o, throws (sel o) = true) (opened s))) as [H|H].
  - left. apply Exists_exists in H as (o & Hin & Ho).
    apply list_elem_of_lookup_1 in Hin as [k Hk].
    destruct (sel o) as [e|sync] eqn:Hsel; [|done].
    by destruct (Ht k o e Hk Hsel) as (_ & _ & ?).
  - right. apply not_Exists_Forall in H; [|apply _]. rewrite Forall_forall in H.
    intros o Ho. specialize (H o Ho). simpl in H. by destruct (throws (sel o)).
Qed.

Lemma thrown_emit sel ev s : thrown sel s → thrown sel (emit ev s).
Proof.
  intros H k o e Hk Hsel. destruct (H k o e Hk Hsel) as (A & B & C).
  split; [done|]. split; [|exact C]. apply elem_of_app. by left.
Qed.

Lemma thrown_throw sel o e s :
  wf s → openSubscriber s = true → sel o = Throws e →
  (∀ o', o' ∈ opened s → throws (sel o') = false) →
  thrown sel (open_window sel o s).
Proof.
  intros Hwf Hop Hsel Hnone k o' e' Hk Hsel'.
  pose proof (wf_openings s Hwf Hop) as Hsub.
  rewrite opened_open_window in Hk.
  apply lookup_app_Some in Hk as [Hk|[Hle Hk]].
  { apply list_elem_of_lookup_2 in Hk. specialize (Hnone o' Hk).
    by rewrite Hsel' in Hnone. }
  apply list_lookup_singleton_Some in Hk as [Hk <-].
  rewrite Hsel in Hsel'. injection Hsel' as <-.
  assert (Ek : k = length (heap s)).
  { unfold opened in Hle, Hk. rewrite length_fmap in Hle, Hk. lia. }
  subst k. unfold open_window. rewrite Hsel.
  destruct (handleError_effect e (new_window o s)) as (Ht & Hws & Hst & Hstop).
  - simpl. apply NoDup_app. split; [apply Hwf|]. split; [|apply NoDup_singleton].
    intros w' Hw' ->%list_elem_of_singleton. by eapply wf_open_fresh.
  - intros w' Hw'. apply new_window_is_open. simpl in Hw'.
    apply elem_of_app in Hw' as [Hw'|Hw'].
    + right. by apply Hwf.
    + left. by apply list_elem_of_singleton in Hw'.
  - done.
  - simpl. by rewrite (wf_source s Hwf).
  - assert (Hin : length (heap s) ∈ windows (new_window o s)).
    { simpl. apply elem_of_app. right. by apply list_elem_of_singleton. }
    split; [by apply Hst|]. split; [|done].
    rewrite Ht. apply elem_of_app. right. apply elem_of_app. left.
    apply list_elem_of_fmap. by exists (length (heap s)).
Qed.

Lemma thrown_handle_signal sel g s :
  wf s → thrown sel s → thrown sel (handle_signal sel g s).
Proof.
  intros Hwf Ht. destruct (thrown_stopped_or_none sel s Ht) as [Hst|Hnone].
  { change (handle_signal sel g s) with (handle sel quiet (Sig g) s).
    by rewrite stopped_handle. }
  pose proof (opened_handle_signal sel g s) as Hop.
  destruct g as [o| | | | | |];
    try (apply thrown_none; intros o' Ho'; rewrite Hop in Ho'; simpl in Ho';
         rewrite app_nil_r in Ho'; by apply Hnone).
  change (thrown sel (if openSubscriber s then open_window sel o s else s)).
  destruct (openSubscriber s) eqn:Hopn; [|done].
  destruct (sel o) as [e|sync] eqn:Hsel; [by apply (thrown_throw sel o e)|].
  apply thrown_none. intros o' Ho'. rewrite opened_open_window in Ho'.
  apply elem_of_app in Ho' as [Ho'|Ho']; [by apply Hnone|].
  apply list_elem_of_singleton in Ho' as ->. by rewrite Hsel.
Qed.

Lemma thrown_handle_signals sel gs s :
  wf s → thrown sel s → thrown sel (foldl (λ s' g, handle_signal sel g s') s gs).
Proof.
  revert s. induction gs as [|g gs IH]; intros s Hwf Ht; simpl; [done|].
  apply IH; [by apply wf_handle_signal|by apply thrown_handle_signal].
Qed.

Lemma thrown_fanout sel react v ws s :
  wf s → thrown sel s → thrown sel (fanout sel react v ws s).
Proof.
  revert s. induction ws as [|w ws IH]; intros s Hwf Ht; simpl; [done|].
  apply IH; [by apply wf_deliver|]. unfold deliver.
  destruct (is_open w s) eqn:Ho; [|done].
  apply thrown_handle_signals; [by apply wf_subject_next|].
  unfold subject_next. rewrite Ho. by apply thrown_emit.
Qed.

Lemma thrown_run sel react ins s :
  wf s → thrown sel s → thrown sel (run sel react ins s).
Proof.
  revert s. induction ins as [|i ins IH]; intros s Hwf Ht; simpl; [done|].
  apply IH; [by apply wf_handle|]. destruct i as [g|v]; simpl.
  - by apply thrown_handle_signal.
  - destruct (sourceSubscriber s); [by apply thrown_fanout|done].
Qed.

Lemma thrown_subscribe sel openings : thrown sel (subscribe sel openings).
Proof.
  apply (subscribe_ind sel (λ t, wf t ∧ thrown sel t)).
  - split; [apply wf_ready|]. by apply thrown_none; intros o ?%elem_of_nil.
  - intros o t [Hwf Ht]. split; [by apply wf_handle_signal|by apply thrown_handle_signal].
  - intros t [Hwf Ht]. split; [by apply wf_handle_signal|by apply thrown_handle_signal].
  - intros e t Hs _ _ [Hwf Ht]. split; [by apply wf_early_error|].
    apply thrown_none. rewrite opened_early_error by done.
    destruct (thrown_stopped_or_none sel t Ht) as [(H & _)|Hnone]; [congruence|done].
  - intros err. split; [apply wf_uncoercible|].
    by apply thrown_none; intros o ?%elem_of_nil.
Qed.

(** C2 does not hold as stated.  The output is subscribed, the openings send
    nothing while they are subscribed, and then one opening value arrives:
    it is received before any terminal event, its closing selector throws,
    and the output errors without having emitted a window. *)
Lemma one_window_per_opening_fails :
  let ins := [Sig (OpenNext 0)] in
  let s := run throwing quiet ins (subscribe throwing (Coercible [])) in
  all_received throwing quiet (Coercible []) ins = [0] ∧
  trace s = [Register 0; WinError 0 (UserError 0); OutError (UserError 0)] ∧
  emitted (trace s) = [] ∧
  length (emitted (trace s)) ≠ length (all_received throwing quiet (Coercible []) ins).
Proof. done. Qed.

(** C2, amended.  In every run, let [rcv] be the opening values received, in
    order: those that reach the openings callback, while the openings are
    subscribed or later, caused by a consumer or not, before the output ends.
    The [k]-th of them gets window [k]; the windows emitted on the output
    are, in opening order, those of the opening values whose closing selector
    call returned, one for each; and an opening value whose closing selector
    call throws [e] gets a window that is registered and errored with [e],
    and never emitted. *)
Theorem emitted_windows_due sel react openings ins :
  let s := run sel react ins (subscribe sel openings) in
  let rcv := all_received sel react openings ins in
  opened s = rcv ∧
  emitted (trace s) = windows_due sel 0 rcv ∧
  (∀ k o e, rcv !! k = Some o → sel o = Throws e →
     Register k ∈ trace s ∧ WinError k e ∈ trace s ∧
     window_state k s = Some (Errored e) ∧ (OutNext k ∉ trace s)).
Proof.
  intros s rcv.
  assert (Hwf : wf s) by apply wf_run, wf_subscribe.
  assert (Hop : opened s = rcv) by apply opened_all_received.
  assert (Hdue : emitted (trace s) = windows_due sel 0 rcv).
  { rewrite <- Hop. apply due_run; [apply wf_subscribe|apply due_subscribe]. }
  assert (Hthr : thrown sel s).
  { apply thrown_run; [apply wf_subscribe|apply thrown_subscribe]. }
  split; [done|]. split; [done|].
  intros k o e Hk Hsel. rewrite <- Hop in Hk.
  destruct (Hthr k o e Hk Hsel) as (A & B & _).
  split; [|split; [done|split; [done|]]].
  - apply (wf_register s Hwf). apply lookup_lt_Some in Hk.
    unfold opened in Hk. by rewrite length_fmap in Hk.
  - intros H%emitted_elem_of. rewrite Hdue in H.
    apply windows_due_lookup in H as (o' & Hk' & _ & Hth).
    rewrite Nat.sub_0_r, <- Hop, Hk in Hk'. injection Hk' as <-.
    by rewrite Hsel in Hth.
Qed.

(** X8.  If the closing selector returns for every opening value (lines
    97-105), the output emits exactly one window per opening value received,
    in opening order. *)
Theorem every_opening_emitted sel react openings ins :
  never_throws sel →
  let s := run sel react ins (subscribe sel openings) in
  emitted (trace s) = seq 0 (length (all_received sel react openings ins)).
Proof.
  intros Hsel s. rewrite <- opened_all_received. fold s.
  rewrite <- (windows_due_never_throws sel 0 (opened s) Hsel).
  apply due_run; [apply wf_subscribe|apply due_subscribe].
Qed.

(** * The deliveries over a whole run *)

Lemma upto_split w ws : w ∈ ws → ∃ post, ws = upto w ws ++ w :: post.
Proof.
  induction ws as [|x ws IH]; simpl; [by intros ?%elem_of_nil|].
  intros Hw. case_decide as E.
  - subst. by exists ws.
  - apply elem_of_cons in Hw as [->|Hw]; [done|].
    destruct (IH Hw) as [post Hpost]. exists post. simpl. by f_equal.
Qed.

Lemma silent_fanout_windows sel react v ws s :
  (∀ w, w ∈ ws → react w v = []) → windows (fanout sel react v ws s) = windows s.
Proof.
  revert s. induction ws as [|w ws IH]; intros s Hr; simpl; [done|].
  rewrite IH by (intros w' Hw'; apply Hr; by right).
  unfold deliver. rewrite (Hr w) by by left. simpl. unfold subject_next.
  by destruct (is_open w s).
Qed.

Lemma handle_delivered sel react i w s :
  wf s →
  delivered w (trace (handle sel react i s))
  = delivered w (trace s)
    ++ match i with
       | SrcNext v => if in_turn sel react v w s then [v] else []
       | Sig _ => []
       end.
Proof.
  intros Hwf. destruct i as [g|v].
  - rewrite app_nil_r. apply handle_signal_ages_delivered.
  - simpl. unfold in_turn. destruct (sourceSubscriber s); [|by rewrite app_nil_r].
    destruct (fanout_delivered sel react v s Hwf) as (Hout & _ & Hin).
    destruct (decide (w ∈ windows s)) as [Hw|Hw].
    + destruct (upto_split w (windows s) Hw) as [post E].
      rewrite (Hin _ _ _ E). by rewrite (bool_decide_eq_true_2 _ Hw).
    + rewrite (Hout w Hw). rewrite (bool_decide_eq_false_2 _ Hw). simpl.
      by rewrite app_nil_r.
Qed.

Lemma run_delivered sel react ins w s :
  wf s →
  delivered w (trace (run sel react ins s))
  = delivered w (trace s) ++ expected sel react w ins s.
Proof.
  revert s. induction ins as [|i ins IH]; intros s Hwf; simpl; [by rewrite app_nil_r|].
  rewrite IH by by apply wf_handle. by rewrite handle_delivered, app_assoc.
Qed.

(** C1 does not hold as stated.  Windows 0 and 1 are open when the value 7
    arrives.  The consumer of window 0 reacts to 7 by making the openings
    emit, which opens window 2, and by making the closing notifiers of
    windows 1 and 0 fire.  Window 0 receives 7 although it is closed while 7
    is handled; window 1 does not, although it was open when 7 arrived and is
    closed only after that; window 2 does not, although it is opened while 7
    is handled.  Whether the instant of 7 is put inside or outside the
    interval of a window opened or closed in it, the claim fails for one of
    the three. *)
Lemma opened_or_closed_during_fanout :
  let s := two_open in
  let s' := handle silent interfering (SrcNext 7) s in
  windows s = [0; 1] ∧ windows s' = [2] ∧
  trace s' = trace s ++ [WinNext 0 7; Register 2; OutNext 2; SubscribeClosing 2;
                         WinComplete 1; WinComplete 0] ∧
  delivered 0 (trace s') = [7] ∧
  delivered 1 (trace s') = [] ∧
  delivered 2 (trace s') = [].
Proof. done. Qed.

(** C1, amended.  Take any state between two callbacks, any inputs and any
    window [w].  What is delivered to [w] during the inputs is exactly, in
    order, the source values that arrive while the source subscriber is live
    and [w] is in the registry, that is after the opening of [w] and before
    anything has closed it (its closing notifier, the end of the source, an
    error or a cancellation: whatever removes it), and for which [w] is still
    in the registry when its turn in the fan-out comes.  So nothing is
    delivered to [w] before it is opened, nothing once it is closed, a window
    opened during a fan-out does not get the value being fanned out, and a
    window closed during a fan-out gets it only if it is closed after its
    turn.  When the consumers of the windows ahead of [w] do not react to a
    value, [w] gets it if and only if it is in the registry when the value
    arrives; overlapping windows do not matter to each other otherwise. *)
Theorem delivered_while_registered sel react ins w s :
  wf s →
  delivered w (trace (run sel react ins s))
  = delivered w (trace s) ++ expected sel react w ins s ∧
  (length (heap s) ≤ w → delivered w (trace s) = []) ∧
  (w < length (heap s) → w ∉ windows s → expected sel react w ins s = []) ∧
  (∀ v, (∀ w', w' ∈ upto w (windows s) → react w' v = []) →
     in_turn sel react v w s = sourceSubscriber s && bool_decide (w ∈ windows s)).
Proof.
  intros Hwf. split; [by apply run_delivered|]. split; [by apply delivered_fresh|].
  split.
  - intros Hlt Hw.
    assert (Hcl : is_open w s = false).
    { apply not_true_is_false. by intros H%(wf_registry s Hwf). }
    pose proof (run_delivered sel react ins w s Hwf) as E.
    rewrite (run_delivered_closed sel react ins w s Hlt Hcl) in E.
    rewrite <- (app_nil_r (delivered w (trace s))) in E at 1.
    by apply app_inv_head in E.
  - intros v Hr. unfold in_turn. rewrite silent_fanout_windows by done.
    by destruct (sourceSubscriber s), (bool_decide (w ∈ windows s)).
Qed.

(** * An error of the openings while they are being subscribed *)

Lemma stopped_opening_signals sel (sync : list Opening) s :
  stopped s → foldl (λ s n, handle_signal sel (opening_signal n) s) s sync = s.
Proof.
  intros Hs. induction sync as [|n sync IH]; simpl; [done|].
  change (handle_signal sel (opening_signal n) s)
    with (handle sel quiet (Sig (opening_signal n)) s).
  by rewrite stopped_handle.
Qed.

(** X14.  If the openings stream errors with [e] while it is being
    subscribed (line 83, as [concat(of(0), throwError(e))] does) and its
    subscriber is live until then, the output errors with [e] and that is
    all: the windows opened so far get neither [e] nor a completion nor the
    forced cancel, they stay in the registry, open, whatever arrives later.
    The teardown that cancels the windows belongs to the source subscriber,
    which is built only afterwards (line 115), on an output that has ended. *)
Theorem openings_error_while_subscribing sel react pre e post ins :
  let s1 := foldl (λ s n, handle_signal sel (opening_signal n) s) init pre in
  openSubscriber s1 = true →
  let s := run sel react ins (subscribe sel (Coercible (pre ++ OError e :: post))) in
  trace s = trace s1 ++ [OutError e] ∧
  windows s = windows s1 ∧
  (∀ w, w ∈ windows s → window_state w s = Some Open) ∧
  stopped s.
Proof.
  intros s1 Hop s.
  destruct (subscribing_ind sel wf wf_ready
              (λ o t, wf_handle_signal sel (OpenNext o) t)
              (λ t, wf_handle_signal sel OpenComplete t)
              (λ e' t Hs _ _ Hwf, wf_early_error e' t Hwf Hs) pre)
    as (t & [Hf [[Hs Et]|[Hst _]]] & Hwf).
  - fold s1 in Hf, Hs, Et.
    assert (E1 : s1 = set_sourceSubscriber false t).
    { rewrite Et. destruct s1. simpl in *. by subst. }
    assert (Hst : subscriber t = true) by by rewrite Et.
    set (s2 := subscriber_error e s1).
    assert (Hstop : stopped s2).
    { unfold s2, subscriber_error. rewrite Hs. apply stopped_unsubscribe_all. }
    assert (Es : s = s2).
    { unfold s, subscribe. rewrite foldl_app. simpl. fold s1. rewrite Hop.
      fold s2. rewrite stopped_opening_signals by done.
      rewrite (source_subscribe_presource s2 s2) by by apply presource_stopped.
      by apply stopped_run. }
    assert (E2 : s2 = mkState (windows t) (set_closingSubscriber Stopped <$> heap t)
                        false false false (trace t ++ [OutError e])).
    { unfold s2. rewrite E1. by apply early_error_state. }
    rewrite Es. split; [|split; [|split; [|done]]].
    + rewrite E2, Et. done.
    + rewrite E2, Et. done.
    + intros w Hw. rewrite E2 in Hw |- *. simpl in Hw.
      apply (wf_registry t Hwf), is_open_spec in Hw. rewrite <- Hw.
      unfold window_state. simpl. rewrite list_lookup_fmap.
      by destruct (heap t !! w).
  - fold s1 in Hst. destruct Hst as (_ & H & _). congruence.
Qed.

(** * Concrete runs of the whole-run properties *)

Lemma delivered_while_registered_witness :
  let ins := [SrcNext 7; Sig (Close 0 CNext); SrcNext 8] in
  wf two_open ∧
  delivered 0 (trace (run silent quiet ins two_open)) = [7] ∧
  delivered 1 (trace (run silent quiet ins two_open)) = [7; 8].
Proof.
  intros ins. split; [apply wf_two_open|]. split.
  - destruct (delivered_while_registered silent quiet ins 0 two_open wf_two_open)
      as (H & _).
    etrans; [exact H|]. vm_compute. reflexivity.
  - destruct (delivered_while_registered silent quiet ins 1 two_open wf_two_open)
      as (H & _).
    etrans; [exact H|]. vm_compute. reflexivity.
Defined.

Lemma emitted_windows_due_witness :
  let ins := [Sig (OpenNext 1); Sig (OpenNext 2)] in
  let s := run throws_later quiet ins (subscribe throws_later (Coercible [ONext 0])) in
  all_received throws_later quiet (Coercible [ONext 0]) ins = [0; 1] ∧
  emitted (trace s) = [0] ∧
  window_state 1 s = Some (Errored (UserError 2)) ∧
  (OutNext 1 ∉ trace s).
Proof.
  intros ins s.
  assert (Hr : all_received throws_later quiet (Coercible [ONext 0]) ins = [0; 1])
    by (vm_compute; reflexivity).
  destruct (emitted_windows_due throws_later quiet (Coercible [ONext 0]) ins)
    as (_ & H2 & H3).
  split; [exact Hr|]. split.
  - etrans; [exact H2|]. rewrite Hr. reflexivity.
  - assert (Hk : all_received throws_later quiet (Coercible [ONext 0]) ins !! 1 = Some 1)
      by (rewrite Hr; reflexivity).
    destruct (H3 1 1 (UserError 2) Hk eq_refl) as (_ & _ & H4 & H5).
    split; [exact H4|exact H5].
Defined.

Lemma every_opening_emitted_witness :
  never_throws silent ∧
  emitted (trace (run silent quiet overlap (subscribe silent (Coercible [])))) = [0; 1].
Proof.
  assert (H : never_throws silent) by (intros o; reflexivity).
  split; [exact H|].
  etrans; [exact (every_opening_emitted silent quiet (Coercible []) overlap H)|].
  vm_compute. reflexivity.
Defined.

Lemma openings_error_while_subscribing_witness :
  let s1 := foldl (λ s n, handle_signal silent (opening_signal n) s) init [ONext 0] in
  let s := run silent quiet [SrcNext 3; Sig Unsubscribe]
             (subscribe silent (Coercible ([ONext 0] ++ OError (UserError 1) :: []))) in
  openSubscriber s1 = true ∧
  trace s = [Register 0; OutNext 0; SubscribeClosing 0; OutError (UserError 1)] ∧
  windows s = [0] ∧ window_state 0 s = Some Open.
Proof.
  intros s1 s.
  assert (Hop : openSubscriber s1 = true) by (vm_compute; reflexivity).
  destruct (openings_error_while_subscribing silent quiet [ONext 0] (UserError 1) []
              [SrcNext 3; Sig Unsubscribe] Hop) as (H1 & H2 & H3 & _).
  assert (Hw : windows s = [0]) by (etrans; [exact H2|]; vm_compute; reflexivity).
  split; [exact Hop|]. split; [|split; [exact Hw|]].
  - etrans; [exact H1|]. vm_compute. reflexivity.
  - apply H3. change (0 ∈ windows s). rewrite Hw. by left.
Defined.
